(** * Pathfinder: a shallow embedding of the query parser, the matcher,
      the traversal, the search coordinator and the roots of the two
      passes of the command line.

    Conventions of the embedding.
    - A Python [str] is a [string] whose characters are the code points
      0..255 (the Latin-1 range of Unicode); [lower], [strip] and the
      regular expressions below follow Python's behaviour on that range,
      and the facts about the parser are facts about arguments in that
      range.
    - A Python exception is the [Raise] case of [result]; [try]/[except
      Exception] is [try_except].
    - [time.monotonic()] reads the next value of a clock oracle; time
      stamps are integers (ticks of the monotonic clock).
    - The order in which [as_completed] hands back futures is an oracle.
    - The file system does not change during a call and its directory
      trees are finite: a path carries what [stat], [open] and [resolve]
      return for it, a directory what [os.scandir] lists.
    - The callback of [search] is the log of the paths it receives.
    - In [Utils] and [Search] the three calls of a search that no [try]
      guards return: [root.exists()], the step of the iteration over an
      open directory listing, and the callback.  [Raising] is the same
      code with these three calls fallible; it agrees with [Search]
      where they return ([search_calm]), and it is the model in which
      the exceptions that leave [search] are stated.
    - The paths that [default_search_paths], [drive_roots] and [main]
      pick as roots are values of an abstract type with equality; the
      [pathlib] operations on them are parameters. *)

From Stdlib Require Import ZArith String Ascii Strings.Byte List Bool Lia.
From stdpp Require Import gmap strings list sorting.

Open Scope string_scope.
Open Scope Z_scope.
Open Scope list_scope.

(* ===================================================================== *)
(** ** Python strings *)
(* ===================================================================== *)

Module PyStr.

Definition code (c : ascii) : N := N_of_ascii c.

Definition in_range (lo hi : N) (c : ascii) : bool :=
  (N.leb lo (code c)) && (N.leb (code c) hi).

(** Upper-case letters of the Latin-1 range: A-Z, U+00C0-U+00D6 and
    U+00D8-U+00DE; each has its lower-case partner 32 positions up. *)
Definition is_upper (c : ascii) : bool :=
  in_range 65 90 c || in_range 192 214 c || in_range 216 222 c.

Definition lower_char (c : ascii) : ascii :=
  if is_upper c then ascii_of_N (code c + 32) else c.

(** [str.lower()] *)
Fixpoint lower (s : string) : string :=
  match s with
  | EmptyString => EmptyString
  | String c s' => String (lower_char c) (lower s')
  end.

(** [str.isspace()] on one character, which is also what [str.strip()]
    removes and what [\s] matches: TAB..CR, FS..US, space, NEL, NBSP. *)
Definition isspace (c : ascii) : bool :=
  in_range 9 13 c || in_range 28 32 c || in_range 133 133 c
  || in_range 160 160 c.

Definition is_empty (s : string) : bool :=
  match s with EmptyString => true | _ => false end.

Fixpoint lstrip (s : string) : string :=
  match s with
  | EmptyString => EmptyString
  | String c s' => if isspace c then lstrip s' else s
  end.

Fixpoint rstrip (s : string) : string :=
  match s with
  | EmptyString => EmptyString
  | String c s' =>
      let r := rstrip s' in
      if isspace c && is_empty r then EmptyString else String c r
  end.

(** [str.strip()] *)
Definition strip (s : string) : string := rstrip (lstrip s).

(** [s.startswith(p)] *)
Definition startswith (p s : string) : bool := String.prefix p s.

(** [sub in s] for strings: [sub] occurs at some offset of [s]. *)
Fixpoint contains (sub s : string) : bool :=
  String.prefix sub s ||
  match s with
  | EmptyString => false
  | String _ s' => contains sub s'
  end.

(** [s.split(sep)] for a one-character separator. *)
Fixpoint split_on (sep : ascii) (cur : string) (s : string) : list string :=
  match s with
  | EmptyString => [cur]
  | String c s' =>
      if Ascii.eqb c sep then cur :: split_on sep EmptyString s'
      else split_on sep (cur +:+ String c EmptyString) s'
  end.

Definition split (sep : ascii) (s : string) : list string :=
  split_on sep EmptyString s.

(** [sep.join(parts)] *)
Definition join (sep : string) (parts : list string) : string :=
  String.concat sep parts.

(** The longest prefix of [s] whose characters satisfy [p], and the rest. *)
Fixpoint span (p : ascii -> bool) (s : string) : string * string :=
  match s with
  | EmptyString => (EmptyString, EmptyString)
  | String c s' =>
      if p c then let '(a, b) := span p s' in (String c a, b)
      else (EmptyString, s)
  end.

End PyStr.

(* ===================================================================== *)
(** ** Exceptions *)
(* ===================================================================== *)

Inductive exn : Type :=
| OSError
| UnicodeError.

Inductive result (A : Type) : Type :=
| Ok (a : A)
| Raise (e : exn).
Arguments Ok {A} a.
Arguments Raise {A} e.

#[global] Instance result_ret : MRet result := fun A a => Ok a.
#[global] Instance result_bind : MBind result := fun A B k m =>
  match m with
  | Ok a => k a
  | Raise e => Raise e
  end.

(** [try: body  except Exception: handler] *)
Definition try_except {A : Type} (body handler : result A) : result A :=
  match body with
  | Ok a => Ok a
  | Raise _ => handler
  end.

(* ===================================================================== *)
(** ** query.py *)
(* ===================================================================== *)

(** utils.py, [TYPE_GROUPS]: a dictionary from a category name to the set
    of its extensions. *)
Definition TYPE_GROUPS : gmap string (gset string) :=
  list_to_map
  [ ("image", list_to_set
       [".png"; ".jpg"; ".jpeg"; ".gif"; ".bmp"; ".tiff"; ".tif"; ".webp";
        ".heic"; ".svg"]);
    ("video", list_to_set
       [".mp4"; ".mkv"; ".mov"; ".avi"; ".webm"; ".wmv"; ".m4v"]);
    ("audio", list_to_set [".mp3"; ".wav"; ".flac"; ".aac"; ".ogg"; ".m4a"]);
    ("doc", list_to_set
       [".pdf"; ".doc"; ".docx"; ".rtf"; ".txt"; ".md"; ".rst"]);
    ("code", list_to_set
       [".py"; ".js"; ".ts"; ".tsx"; ".jsx"; ".java"; ".c"; ".cpp"; ".cs";
        ".go"; ".rb"; ".rs"; ".php"; ".sh"; ".ps1"]);
    ("archive", list_to_set
       [".zip"; ".tar"; ".gz"; ".tgz"; ".bz2"; ".7z"; ".rar"]);
    ("data", list_to_set
       [".csv"; ".tsv"; ".json"; ".jsonl"; ".ndjson"; ".parquet"; ".feather";
        ".arrow"; ".orc"; ".h5"; ".hdf5"; ".db"; ".sqlite"; ".sqlite3";
        ".db3"; ".dta"; ".sav"]);
    ("sheet", list_to_set [".xlsx"; ".xls"; ".ods"; ".csv"; ".tsv"]);
    ("notebook", list_to_set [".ipynb"]);
    ("pdf", list_to_set [".pdf"]) ].

Module Re.
Import PyStr.

Definition dquote : ascii := ascii_of_N 34.
Definition newline : ascii := ascii_of_N 10.

Definition is_dquote (c : ascii) : bool := Ascii.eqb c dquote.

(** [[A-Za-z0-9]] *)
Definition is_alnum (c : ascii) : bool :=
  in_range 65 90 c || in_range 97 122 c || in_range 48 57 c.

(** [[A-Za-z0-9_]] *)
Definition is_word (c : ascii) : bool := is_alnum c || in_range 95 95 c.

(** [QUOTED_RE] (a double quote, one or more characters that are not a
    double quote, captured, and a double quote) anchored at the head of [s]:
    the captured group when the pattern matches there. *)
Definition QUOTED_RE_match_at (s : string) : option string :=
  match s with
  | String c t =>
      if is_dquote c then
        let '(body, rest) := span (fun x => negb (is_dquote x)) t in
        match body, rest with
        | String _ _, String _ _ => Some body
        | _, _ => None
        end
      else None
  | EmptyString => None
  end.

(** One pass of the regex engine over the text, left to right, matches not
    overlapping: a character that starts no match is kept as it is. *)
Inductive piece : Type :=
| Lit (c : ascii)
| Quoted (body : string).

(** [skip] characters still belong to the match found last. *)
Fixpoint QUOTED_RE_scan (skip : nat) (s : string) : list piece :=
  match s with
  | EmptyString => []
  | String c s' =>
      match skip with
      | S k => QUOTED_RE_scan k s'
      | O =>
          match QUOTED_RE_match_at s with
          | Some body => Quoted body :: QUOTED_RE_scan (S (String.length body)) s'
          | None => Lit c :: QUOTED_RE_scan O s'
          end
      end
  end.

(** [QUOTED_RE.findall(s)] *)
Definition QUOTED_RE_findall (s : string) : list string :=
  omap (fun p => match p with Quoted b => Some b | Lit _ => None end)
       (QUOTED_RE_scan O s).

(** [QUOTED_RE.sub] with a single space as replacement *)
Definition QUOTED_RE_sub_space (s : string) : string :=
  string_of_list_ascii
    (List.map (fun p => match p with Quoted _ => " "%char | Lit c => c end)
              (QUOTED_RE_scan O s)).

(** [re.split] on [\s+]: [cur] is the piece being read, [in_sep] tells
    that the previous character was white space. *)
Fixpoint split_ws (in_sep : bool) (cur : string) (s : string) : list string :=
  match s with
  | EmptyString => [cur]
  | String c s' =>
      if isspace c then
        (if in_sep then split_ws true cur s'
         else cur :: split_ws true EmptyString s')
      else split_ws false (cur +:+ String c EmptyString) s'
  end.

Definition re_split_ws (s : string) : list string := split_ws false EmptyString s.

(** A literal matched under [re.IGNORECASE]; [lit] is given in lower case. *)
Fixpoint match_literal_ci (lit s : string) : option string :=
  match lit, s with
  | EmptyString, _ => Some s
  | String a lit', String c s' =>
      if Ascii.eqb (lower_char c) a then match_literal_ci lit' s' else None
  | String _ _, EmptyString => None
  end.

(** [$]: the end of the text, or just before a newline that ends it. *)
Definition at_dollar (rest : string) : bool :=
  match rest with
  | EmptyString => true
  | String c EmptyString => Ascii.eqb c newline
  | _ => false
  end.

(** [EXT_RE.match(s)], [EXT_RE] = [^ext:(\.[A-Za-z0-9]+)$] with
    [re.IGNORECASE]: the group when it matches. *)
Definition EXT_RE_match (s : string) : option string :=
  match match_literal_ci "ext:" s with
  | Some (String c t) =>
      if Ascii.eqb c "."%char then
        let '(body, rest) := span is_alnum t in
        if negb (is_empty body) && at_dollar rest
        then Some (String "."%char body) else None
      else None
  | _ => None
  end.

(** [TYPE_RE.match(s)], [TYPE_RE] = [^type:([A-Za-z0-9_]+)$] with
    [re.IGNORECASE]: the group when it matches. *)
Definition TYPE_RE_match (s : string) : option string :=
  match match_literal_ci "type:" s with
  | Some t =>
      let '(body, rest) := span is_word t in
      if negb (is_empty body) && at_dollar rest then Some body else None
  | None => None
  end.

End Re.

Module Query.
Import PyStr Re.

Record ParsedQuery : Type := mkParsedQuery {
  exact_filenames : list string;
  exact_stems : list string;
  and_extensions : list string;
  tokens : list string;
  case_sensitive : bool
}.

Definition _norm (s : string) (case_sensitive : bool) : string :=
  if case_sensitive then s else lower s.

Definition _normalize_ext (e : string) : string :=
  let e := lower (strip e) in
  if negb (startswith "." e) then "." +:+ e else e.

(** [TYPE_GROUPS.get(type_name.lower(), set())] *)
Definition _expand_type_to_exts (type_name : string) : gset string :=
  default ∅ (TYPE_GROUPS !! lower type_name).

(** [a or b] on two optional match objects (a match object is truthy). *)
Definition or_match (a b : option string) : option string :=
  match a with Some _ => a | None => b end.

(** [sorted(xs)] for a set of strings. *)
Definition str_le (a b : string) : Prop := String.leb a b = true.
#[global] Instance str_le_dec : RelDecision str_le.
Proof. intros a b. unfold str_le. apply _. Defined.
#[global] Instance str_le_total : Total str_le.
Proof. intros a b. apply String.leb_total. Qed.

Definition sorted (xs : gset string) : list string :=
  merge_sort str_le (elements xs).

(** The local function [dedup] of [parse_query]. *)
Fixpoint dedup_from (seen : gset string) (seq : list string) : list string :=
  match seq with
  | [] => []
  | x :: seq' =>
      if decide (x ∈ seen) then dedup_from seen seq'
      else x :: dedup_from ({[ x ]} ∪ seen) seq'
  end.

Definition dedup (seq : list string) : list string := dedup_from ∅ seq.

(** The four accumulators of [parse_query]; the three lists grow at the
    end, as [list.append] does. *)
Record acc : Type := mkAcc {
  a_filenames : list string;
  a_stems : list string;
  a_exts : gset string;
  a_tokens : list string
}.

Definition acc0 : acc := mkAcc [] [] ∅ [].

(** What both loops do first: [Some] when the item was an [ext:] or a
    [type:] directive (the [continue] branches). *)
Definition directive (s n : string) (a : acc) : option acc :=
  match or_match (EXT_RE_match s) (EXT_RE_match n) with
  | Some g =>
      Some (mkAcc (a_filenames a) (a_stems a)
                  ({[ _normalize_ext g ]} ∪ a_exts a) (a_tokens a))
  | None =>
      match or_match (TYPE_RE_match s) (TYPE_RE_match n) with
      | Some g =>
          Some (mkAcc (a_filenames a) (a_stems a)
                  (a_exts a ∪ set_map _normalize_ext (_expand_type_to_exts g))
                  (a_tokens a))
      | None => None
      end
  end.

Definition has_sep (s : string) : bool :=
  contains "/" s || contains "\" s.

Definition final_segment (s : string) : string :=
  List.last (split "\"%char (List.last (split "/"%char s) EmptyString))
            EmptyString.

(** Body of the loop over the quoted items. *)
Definition quoted_step (cs : bool) (a : acc) (raw : string) : acc :=
  let s := strip raw in
  let n := _norm s cs in
  match directive s n a with
  | Some a' => a'
  | None =>
      if has_sep s then
        mkAcc (a_filenames a ++ [_norm (final_segment s) cs])
              (a_stems a) (a_exts a) (a_tokens a)
      else if contains "." s && negb (startswith "." s) then
        mkAcc (a_filenames a ++ [_norm s cs]) (a_stems a) (a_exts a) (a_tokens a)
      else
        mkAcc (a_filenames a) (a_stems a ++ [_norm s cs]) (a_exts a) (a_tokens a)
  end.

(** Body of the loop over the unquoted items. *)
Definition unquoted_step (cs : bool) (a : acc) (raw : string) : acc :=
  let s := strip raw in
  let n := _norm s cs in
  match directive s n a with
  | Some a' => a'
  | None => mkAcc (a_filenames a) (a_stems a) (a_exts a) (a_tokens a ++ [n])
  end.

Definition quoted_items (argv_terms : list string) : list string :=
  QUOTED_RE_findall (join " " argv_terms).

Definition unquoted_items (argv_terms : list string) : list string :=
  List.filter (fun t => negb (is_empty t))
    (re_split_ws (strip (QUOTED_RE_sub_space (join " " argv_terms)))).

Definition parse_acc (argv_terms : list string) (cs : bool) : acc :=
  fold_left (unquoted_step cs) (unquoted_items argv_terms)
    (fold_left (quoted_step cs) (quoted_items argv_terms) acc0).

Definition parse_query (argv_terms : list string) (case_sensitive : bool)
  : ParsedQuery :=
  let a := parse_acc argv_terms case_sensitive in
  mkParsedQuery (dedup (a_filenames a)) (dedup (a_stems a))
                (sorted (a_exts a)) (dedup (a_tokens a)) case_sensitive.

End Query.


#[global] Instance byte_eq_decision : EqDecision Byte.byte := Byte.byte_eq_dec.

(* ===================================================================== *)
(** ** The file system as the program observes it *)
(* ===================================================================== *)

Record stat_result : Type := mkStat {
  st_dev : Z;
  st_ino : Z;
  st_size : Z
}.

(** A [pathlib.Path] together with what the calls made on it return. *)
Record Path : Type := mkPath {
  p_str : string;                       (* str(path) *)
  p_name : string;                      (* path.name *)
  p_stem : string;                      (* path.stem *)
  p_suffix : string;                    (* path.suffix *)
  p_stat : result stat_result;          (* path.stat() *)
  p_resolved_casefold : result string;  (* str(path.resolve()).casefold() *)
  p_open_rb : result (list Byte.byte)   (* open(path, rb), then reading *)
}.

(** [f.read(n)] on a file just opened. *)
Definition read (n : Z) (content : list Byte.byte) : list Byte.byte :=
  if n <? 0 then content else take (Z.to_nat n) content.

(** An [os.DirEntry]. The two boolean arguments are [follow_symlinks]. *)
Record DirEntry : Type := mkDirEntry {
  e_name : string;
  e_path : Path;
  e_is_dir : bool -> result bool;
  e_is_file : bool -> result bool;
  e_is_symlink : result bool
}.

(** A path that is handed to [os.scandir]: the call fails, or lists
    entries, each with what scanning [Path(entry.path)] would give. *)
Inductive Dir : Type :=
| mkDir (d_scan : result (list (DirEntry * Dir))).

Definition d_scan (d : Dir) : result (list (DirEntry * Dir)) :=
  match d with mkDir s => s end.

Record Root : Type := mkRoot {
  root_exists : bool;   (* root.exists() *)
  root_dir : Dir
}.

(* ===================================================================== *)
(** ** utils.py *)
(* ===================================================================== *)

Module Utils.
Import PyStr.

Definition TEXT_EXTS : list string :=
  [".txt"; ".md"; ".rst"; ".log"; ".py"; ".js"; ".ts"; ".tsx"; ".jsx";
   ".json"; ".yml"; ".yaml"; ".ini"; ".cfg"; ".conf"; ".html"; ".htm";
   ".css"; ".xml"; ".csv"; ".tsv"; ".ipynb"; ".tex"].

Definition is_probably_text (path : Path) : result bool :=
  let ext := lower (p_suffix path) in
  if bool_decide (ext ∈ TEXT_EXTS) then Ok true
  else
    try_except
      (content ← p_open_rb path;
       let sample := read 1024 content in
       Ok (negb (bool_decide (Byte.x00 ∈ sample))))
      (Ok false).

(** Body of the [for entry in it] loop: what is pushed on the stack and
    what is yielded.  An exception of [is_dir], [is_file] or [is_symlink]
    skips the entry. *)
Definition visit_entry (follow_symlinks : bool) (max_depth : option Z)
  (exclude_dirs : gset string) (depth : Z) (entry : DirEntry) (sub : Dir)
  : option (Dir * Z) * option Path :=
  let body : result (option (Dir * Z) * option Path) :=
    isd ← e_is_dir entry follow_symlinks;
    if isd : bool then
      if bool_decide (e_name entry ∈ exclude_dirs) then Ok (None, None)
      else
        let next_depth := depth + 1 in
        if match max_depth with
           | None => true
           | Some m => next_depth <=? m
           end
        then Ok (Some (sub, next_depth), None)
        else Ok (None, None)
    else
      isf ← e_is_file entry follow_symlinks;
      yes ← (if isf : bool then Ok true
             else if follow_symlinks then e_is_symlink entry else Ok false);
      if yes : bool then Ok (None, Some (e_path entry)) else Ok (None, None)
  in
  match body with
  | Ok r => r
  | Raise _ => (None, None)
  end.

(** One directory listing: the stack (top first) after the pushes, and
    the paths yielded, in order. *)
Fixpoint visit_entries (follow_symlinks : bool) (max_depth : option Z)
  (exclude_dirs : gset string) (depth : Z) (entries : list (DirEntry * Dir))
  (stack : list (Dir * Z)) : list (Dir * Z) * list Path :=
  match entries with
  | [] => (stack, [])
  | (entry, sub) :: rest =>
      let '(push, yielded) :=
        visit_entry follow_symlinks max_depth exclude_dirs depth entry sub in
      let stack' := match push with Some d => d :: stack | None => stack end in
      let '(stack'', ys) :=
        visit_entries follow_symlinks max_depth exclude_dirs depth rest stack' in
      (stack'', match yielded with Some p => p :: ys | None => ys end)
  end.

(** The [while stack] loop; [fuel] bounds the number of iterations. *)
Fixpoint walk_loop (follow_symlinks : bool) (max_depth : option Z)
  (exclude_dirs : gset string) (fuel : nat) (stack : list (Dir * Z))
  : list Path :=
  match fuel with
  | O => []
  | S fuel' =>
      match stack with
      | [] => []
      | (cur, depth) :: stack' =>
          match d_scan cur with
          | Raise _ =>
              walk_loop follow_symlinks max_depth exclude_dirs fuel' stack'
          | Ok entries =>
              let '(stack'', ys) :=
                visit_entries follow_symlinks max_depth exclude_dirs depth
                              entries stack' in
              ys ++ walk_loop follow_symlinks max_depth exclude_dirs fuel' stack''
          end
      end
  end.

(** The number of directories below and including [d]: no traversal
    pops more often than that. *)
Fixpoint dir_weight (d : Dir) : nat :=
  match d with
  | mkDir (Ok entries) =>
      S ((fix go (es : list (DirEntry * Dir)) : nat :=
            match es with
            | [] => O
            | (_, sub) :: es' => (dir_weight sub + go es')%nat
            end) entries)
  | mkDir (Raise _) => 1%nat
  end.

Definition _walk_scandir (root : Dir) (follow_symlinks : bool)
  (max_depth : option Z) (exclude_dirs : gset string) : list Path :=
  walk_loop follow_symlinks max_depth exclude_dirs (dir_weight root) [(root, 0)].

Fixpoint iter_files (paths : list Root) (follow_symlinks : bool)
  (max_depth : option Z) (exclude_dirs : list string) : list Path :=
  let excludes : gset string := list_to_set exclude_dirs in
  match paths with
  | [] => []
  | root :: paths' =>
      (if root_exists root
       then _walk_scandir (root_dir root) follow_symlinks max_depth excludes
       else [])
      ++ iter_files paths' follow_symlinks max_depth exclude_dirs
  end.

End Utils.

(* ===================================================================== *)
(** ** search.py *)
(* ===================================================================== *)

Module Search.
Import PyStr Query Utils.

Record MatchResult : Type := mkMatchResult { path : Path }.

(** The three values of [stopped_reason]; [limit_reached] is the string
    [limit]. *)
Inductive StopReason : Type := idle_timeout | limit_reached | complete.

#[global] Instance StopReason_eq_dec : EqDecision StopReason.
Proof. solve_decision. Defined.

Record SearchStats : Type := mkSearchStats {
  emitted : Z;
  wall_time_sec : Z;
  idle_time_sec : Z;
  stopped_reason : StopReason
}.

(** The key of the set [seen_ids]: a pair of integers, or a 1-tuple
    holding a string. *)
Inductive FileIdentity : Type :=
| IdDevIno (dev ino : Z)
| IdStr (s : string).

#[global] Instance FileIdentity_eq_dec : EqDecision FileIdentity.
Proof. solve_decision. Defined.

#[global] Instance FileIdentity_countable : Countable FileIdentity.
Proof.
  refine (inj_countable'
    (λ i, match i with IdDevIno d n => inl (d, n) | IdStr s => inr s end)
    (λ x, match x with inl (d, n) => IdDevIno d n | inr s => IdStr s end) _).
  now intros [].
Defined.

(** The keyword arguments of [search]; [stream_callback] tells whether a
    callback was supplied. *)
Record Options : Type := mkOptions {
  scan_content : bool;
  content_only : bool;
  follow_symlinks : bool;
  max_content_size_mb : Z;
  workers : Z;
  limit : Z;
  max_depth : option Z;
  exclude_dirs : list string;
  stream_callback : bool;
  ext_match_or : bool;
  idle_timeout_sec : option Z
}.

Definition non_empty {A : Type} (l : list A) : bool :=
  match l with [] => false | _ => true end.

Definition truthy (s : string) : bool := negb (is_empty s).

Definition _name_matches (filename stem ext : string) (q : ParsedQuery) : bool :=
  let fn := if case_sensitive q then filename else lower filename in
  let st := if case_sensitive q then stem else lower stem in
  let ex := if case_sensitive q then ext else lower ext in
  if non_empty (and_extensions q) && negb (bool_decide (ex ∈ and_extensions q))
  then false
  else if non_empty (exact_filenames q) && bool_decide (fn ∈ exact_filenames q)
  then true
  else if non_empty (exact_stems q) && bool_decide (st ∈ exact_stems q)
  then true
  else existsb (λ tok, truthy tok && contains tok fn) (tokens q).

Definition _content_matches (text : string) (q : ParsedQuery) : bool :=
  if negb (non_empty (tokens q)) then false
  else
    let hay := if case_sensitive q then text else lower text in
    existsb (λ tok, truthy tok && contains tok hay) (tokens q).

Definition _file_id (path : Path) : result FileIdentity :=
  try_except
    (st ← p_stat path; Ok (IdDevIno (st_dev st) (st_ino st)))
    (try_except
       (s ← p_resolved_casefold path; Ok (IdStr s))
       (Ok (IdStr (p_str path)))).

Section WithWorld.

(** [bytes.decode] for UTF-8 with [errors] set to [ignore]. *)
Variable utf8_decode : list Byte.byte → result string.

(** [bytes.decode] for Latin-1: every byte is its own code point. *)
Definition latin1_decode (data : list Byte.byte) : result string :=
  Ok (string_of_list_byte data).

Definition _read_text (path : Path) (max_bytes : Z) : result string :=
  st ← p_stat path;
  let to_read := Z.min (st_size st) max_bytes in
  content ← p_open_rb path;
  let data := read to_read content in
  try_except (utf8_decode data) (latin1_decode data).

(** The block under [if scan_content], inside its [try]. *)
Definition content_phase (path : Path) (q : ParsedQuery) (ext : string)
  (max_bytes : Z) : result (option MatchResult) :=
  text_like ← is_probably_text path;
  small ← (if text_like : bool
           then st ← p_stat path; Ok (st_size st <=? max_bytes)
           else Ok false);
  if small : bool then
    text ← _read_text path max_bytes;
    if _content_matches text q then
      if negb (non_empty (and_extensions q))
         || bool_decide (ext ∈ and_extensions q)
      then Ok (Some (mkMatchResult path))
      else Ok None
    else Ok None
  else Ok None.

(** The attributes [name], [stem] and [suffix] are computed from the path
    alone: the [try] around them has no failing case. *)
Definition _evaluate_path (path : Path) (q : ParsedQuery)
  (scan_content content_only : bool) (max_bytes : Z) (ext_match_or : bool)
  : result (option MatchResult) :=
  let filename := p_name path in
  let stem := p_stem path in
  let ext := lower (p_suffix path) in
  if ext_match_or && non_empty (and_extensions q)
     && bool_decide (ext ∈ and_extensions q)
  then Ok (Some (mkMatchResult path))
  else if negb content_only && _name_matches filename stem ext q
  then Ok (Some (mkMatchResult path))
  else if scan_content
  then try_except (content_phase path q ext max_bytes) (Ok None)
  else Ok None.

(** *** The coordinator *)

(** What a worker hands back through [fut.result()]. *)
Definition Future : Type := result (option MatchResult).

(** [time.monotonic()]: the value of the n-th reading of the call. *)
Variable monotonic : nat → Z.

(** [as_completed(futures)]: the order in which the futures of the n-th
    drain complete. *)
Variable as_completed : nat → list Future → list Future.

(** The variables that [search] shares with its nested functions,
    the calls received by the callback ([delivered]), and how many times
    the clock was read and the pool drained. *)
Record Coord : Type := mkCoord {
  results : list MatchResult;
  delivered : list Path;
  seen_ids : gset FileIdentity;
  emitted_count : Z;
  cur_reason : StopReason;           (* the variable stopped_reason *)
  stop_event : bool;
  idle_deadline : option Z;
  last_emit_time : option Z;
  clock : nat;
  drains : nat
}.

Definition set_reason (r : StopReason) (c : Coord) : Coord :=
  mkCoord (results c) (delivered c) (seen_ids c) (emitted_count c) r
          (stop_event c) (idle_deadline c) (last_emit_time c) (clock c)
          (drains c).

Definition set_stop_event (c : Coord) : Coord :=
  mkCoord (results c) (delivered c) (seen_ids c) (emitted_count c)
          (cur_reason c) true (idle_deadline c) (last_emit_time c) (clock c)
          (drains c).

Definition tick (c : Coord) : Coord :=
  mkCoord (results c) (delivered c) (seen_ids c) (emitted_count c)
          (cur_reason c) (stop_event c) (idle_deadline c) (last_emit_time c)
          (S (clock c)) (drains c).

Definition next_drain (c : Coord) : Coord :=
  mkCoord (results c) (delivered c) (seen_ids c) (emitted_count c)
          (cur_reason c) (stop_event c) (idle_deadline c) (last_emit_time c)
          (clock c) (S (drains c)).

Definition set_timer (deadline last : option Z) (c : Coord) : Coord :=
  mkCoord (results c) (delivered c) (seen_ids c) (emitted_count c)
          (cur_reason c) (stop_event c) deadline last (clock c) (drains c).

(** [seen_ids.add(fid)], the callback or [results.append], and
    [emitted_count += 1]. *)
Definition record_emission (callback : bool) (fid : FileIdentity) (p : Path)
  (c : Coord) : Coord :=
  mkCoord (if callback then results c else results c ++ [mkMatchResult p])
          (if callback then delivered c ++ [p] else delivered c)
          ({[ fid ]} ∪ seen_ids c) (emitted_count c + 1)
          (cur_reason c) (stop_event c) (idle_deadline c) (last_emit_time c)
          (clock c) (drains c).

Definition monotonic_read (c : Coord) : Z * Coord :=
  (monotonic (clock c), tick c).

Section WithOptions.

Variable query : ParsedQuery.
Variable opts : Options.

(** [idle_timeout_sec and idle_timeout_sec > 0] *)
Definition idle_enabled : bool :=
  match idle_timeout_sec opts with
  | Some t => negb (t =? 0) && (0 <? t)
  | None => false
  end.

Definition timeout_value : Z :=
  match idle_timeout_sec opts with Some t => t | None => 0 end.

Definition timed_out (c : Coord) : bool * Coord :=
  match idle_deadline c with
  | None => (false, c)
  | Some deadline =>
      let '(now, c') := monotonic_read c in (deadline <=? now, c')
  end.

Definition reset_idle_timer (c : Coord) : Coord :=
  let '(now, c') := monotonic_read c in
  set_timer (if idle_enabled then Some (now + timeout_value)
             else idle_deadline c')
            (Some now) c'.

Definition maybe_emit (p : Path) (c : Coord) : result (bool * Coord) :=
  fid ← _file_id p;
  if bool_decide (fid ∈ seen_ids c) then Ok (true, c)
  else
    let c := record_emission (stream_callback opts) fid p c in
    let c := reset_idle_timer c in
    if Z.max 1 (limit opts) <=? emitted_count c
    then Ok (false, set_stop_event (set_reason limit_reached c))
    else Ok (true, c).

Definition max_bytes : Z := max_content_size_mb opts * 1024 * 1024.

Definition evaluate (sc : bool) (p : Path) : Future :=
  _evaluate_path p query sc (content_only opts) max_bytes (ext_match_or opts).

(** [stop_event.is_set() or timed_out()] *)
Definition stop_or_timed_out (c : Coord) : bool * Coord :=
  if stop_event c then (true, c) else timed_out c.

(** [if timed_out(): stopped_reason = idle_timeout] *)
Definition note_timeout (c : Coord) : Coord :=
  let '(late, c') := timed_out c in
  if late then set_reason idle_timeout c' else c'.

(** The loop of the fast path over the candidates still to come. *)
Fixpoint inline_loop (cands : list Path) (c : Coord) : result Coord :=
  match cands with
  | [] => Ok c
  | p :: rest =>
      let '(halt, c) := stop_or_timed_out c in
      if halt then Ok (note_timeout c)
      else
        r ← evaluate false p;
        match r with
        | Some m =>
            '(go_on, c) ← maybe_emit (path m) c;
            if go_on : bool then inline_loop rest c else Ok c
        | None => inline_loop rest c
        end
  end.

(** [for fut in ...: ...] over futures in their order of completion;
    [in_batch] is true for the loop inside the submission loop, which also
    stops on an idle timeout, and false for the loop after it. *)
Fixpoint drain (in_batch : bool) (futs : list Future) (c : Coord)
  : result Coord :=
  match futs with
  | [] => Ok c
  | fut :: rest =>
      if stop_event c || (in_batch && bool_decide (cur_reason c = idle_timeout))
      then Ok c
      else
        r ← fut;
        match r with
        | Some m =>
            '(go_on, c) ← maybe_emit (path m) c;
            if go_on : bool then drain in_batch rest c else Ok c
        | None => drain in_batch rest c
        end
  end.

Definition BATCH : nat := 2048.

(** The submission loop of the pooled path: the futures still pending
    when it ends, and the state. *)
Fixpoint submit_loop (cands : list Path) (futures : list Future) (c : Coord)
  : result (list Future * Coord) :=
  match cands with
  | [] => Ok (futures, c)
  | p :: rest =>
      let '(halt, c) := stop_or_timed_out c in
      if halt then Ok (futures, note_timeout c)
      else
        let futures := futures ++ [evaluate true p] in
        let '(full, c) :=
          if bool_decide (BATCH ≤ length futures)%nat then (true, c)
          else timed_out c in
        if full then
          let c := note_timeout c in
          c ← drain true (as_completed (drains c) futures) (next_drain c);
          if stop_event c || bool_decide (cur_reason c = idle_timeout)
          then Ok ([], c)
          else submit_loop rest [] c
        else submit_loop rest futures c
  end.

(** [last_emit_time or start] *)
Definition last_emit_or (start : Z) (c : Coord) : Z :=
  match last_emit_time c with
  | Some t => if t =? 0 then start else t
  | None => start
  end.

Definition make_stats (start : Z) (c : Coord) : SearchStats * Coord :=
  let '(end_, c) := monotonic_read c in
  let idle_gap :=
    if bool_decide (cur_reason c = idle_timeout)
    then Z.max 0 (end_ - last_emit_or start c) else 0 in
  (mkSearchStats (emitted_count c) (end_ - start) idle_gap (cur_reason c), c).

(** What a call of [search] leaves behind: the pair it returns and the
    paths the callback received, in order. *)
Record Outcome : Type := mkOutcome {
  returned : list MatchResult * SearchStats;
  callback_calls : list Path
}.

Definition initial (start : Z) : Coord :=
  mkCoord [] [] ∅ 0 complete false
          (if idle_enabled then Some (start + timeout_value) else None)
          None 1%nat O.

Definition search (roots : list Root) : result Outcome :=
  let start := monotonic O in
  let c := initial start in
  let cands := iter_files roots (follow_symlinks opts) (max_depth opts)
                          (exclude_dirs opts) in
  if negb (scan_content opts) then
    c ← inline_loop cands c;
    let '(stats, c) := make_stats start c in
    Ok (mkOutcome (results c, stats) (delivered c))
  else
    '(futures, c) ← submit_loop cands [] c;
    c ← drain false (as_completed (drains c) futures) (next_drain c);
    let '(stats, c) := make_stats start c in
    Ok (mkOutcome (results c, stats) (delivered c)).

End WithOptions.

End WithWorld.

End Search.

(* ===================================================================== *)
(** ** The vocabulary of the statements *)
(* ===================================================================== *)

(** *** The parser *)

Section QueryVocabulary.
Import PyStr Re Query.

(** [out] keeps exactly the first occurrence of every value of [seq], in
    the order of [seq]. *)
Definition first_seen (seq out : list string) : Prop :=
  NoDup out ∧ (∀ x, x ∈ out ↔ x ∈ seq) ∧
  ∀ (i : nat) (x : string), out !! i = Some x →
    ∃ k : nat, seq !! k = Some x ∧ (x ∉ take k seq) ∧
      ∀ y, (y ∈ take i out ↔ y ∈ take k seq).

Definition is_lower (s : string) : Prop := lower s = s.

Definition ext_ok (e : string) : Prop :=
  is_lower e ∧ startswith "." e = true.

(** Where the entries of the accumulators come from: [qs] are the quoted
    items and [us] the unquoted ones. *)
Record acc_inv (cs : bool) (qs us : list string) (a : acc) : Prop := {
  inv_exts : ∀ e, e ∈ a_exts a → ext_ok e;
  inv_filenames : ∀ x, x ∈ a_filenames a →
    ∃ raw, raw ∈ qs ∧
      (x = _norm (strip raw) cs ∨ x = _norm (final_segment (strip raw)) cs);
  inv_stems : ∀ x, x ∈ a_stems a → ∃ raw, raw ∈ qs ∧ x = _norm (strip raw) cs;
  inv_tokens : ∀ x, x ∈ a_tokens a → ∃ raw, raw ∈ us ∧ x = _norm (strip raw) cs
}.

Definition acc_le (a a' : acc) : Prop :=
  a_filenames a ⊆ a_filenames a' ∧ a_stems a ⊆ a_stems a'.

(** An item is a directive when one of the two patterns matches it, as it
    is or normalised. *)
Definition is_directive (s n : string) : bool :=
  match or_match (EXT_RE_match s) (EXT_RE_match n),
        or_match (TYPE_RE_match s) (TYPE_RE_match n) with
  | None, None => false
  | _, _ => true
  end.

Inductive exact_kind : Type := ExactFilename | ExactStem.

(** The list a quoted item lands in, and the text that lands there. *)
Definition classify (s : string) : exact_kind * string :=
  if has_sep s then (ExactFilename, final_segment s)
  else if contains "." s && negb (startswith "." s) then (ExactFilename, s)
  else (ExactStem, s).

Definition lands_in (k : exact_kind) (x : string) (a : acc) : Prop :=
  match k with
  | ExactFilename => x ∈ a_filenames a
  | ExactStem => x ∈ a_stems a
  end.

Definition query_has (k : exact_kind) (x : string) (q : ParsedQuery) : Prop :=
  match k with
  | ExactFilename => x ∈ exact_filenames q
  | ExactStem => x ∈ exact_stems q
  end.

(** The text between two double quotes, as typed on the command line. *)
Definition in_quotes (s : string) : string :=
  String dquote (s +:+ String dquote EmptyString).

(** The rule of the claim read word for word: a dot at any position but
    the first makes the text an exact filename. *)
Definition dot_not_at_start (s : string) : bool :=
  match s with
  | EmptyString => false
  | String _ t => contains "." t
  end.

Definition classify_as_worded (s : string) : exact_kind * string :=
  if has_sep s then (ExactFilename, final_segment s)
  else if dot_not_at_start s then (ExactFilename, s)
  else (ExactStem, s).

End QueryVocabulary.

(** *** The matcher *)

Section MatcherVocabulary.
Import PyStr Query Search.

(** The three normalised names that [_name_matches] compares. *)
Definition folded (q : ParsedQuery) (s : string) : string :=
  if case_sensitive q then s else lower s.

(** The identity [_file_id] returns, spelled out. *)
Definition fid_of (p : Path) : FileIdentity :=
  match p_stat p with
  | Ok st => IdDevIno (st_dev st) (st_ino st)
  | Raise _ =>
      match p_resolved_casefold p with
      | Ok s => IdStr s
      | Raise _ => IdStr (p_str p)
      end
  end.

End MatcherVocabulary.

(** *** The traversal *)

Section TraversalVocabulary.
Import Utils.

Fixpoint entries_weight (es : list (DirEntry * Dir)) : nat :=
  match es with
  | [] => O
  | (_, sub) :: es' => (dir_weight sub + entries_weight es')%nat
  end.

Fixpoint stack_weight (stack : list (Dir * Z)) : nat :=
  match stack with
  | [] => O
  | (d, _) :: stack' => (dir_weight d + stack_weight stack')%nat
  end.

Variable follow_symlinks : bool.
Variable max_depth : option Z.
Variable exclude_dirs : gset string.

(** The traversal from any stack, with the fuel it needs. *)
Definition walk (stack : list (Dir * Z)) : list Path :=
  walk_loop follow_symlinks max_depth exclude_dirs (stack_weight stack) stack.

End TraversalVocabulary.

(** *** The coordinator *)

Section CoordinatorVocabulary.
Import PyStr Query Utils Search.

Variable utf8_decode : list Byte.byte → result string.
Variable monotonic : nat → Z.
Variable as_completed : nat → list Future → list Future.
Variable query : ParsedQuery.
Variable opts : Options.

(** The bound the emitted counter is compared with. *)
Definition cap : Z := Z.max 1 (limit opts).

(** The paths emitted so far, in order, whichever channel carries them. *)
Definition emissions (c : Coord) : list Path :=
  if stream_callback opts then delivered c else path <$> results c.

Record coord_inv (c : Coord) : Prop := {
  inv_seen : seen_ids c = list_to_set (fid_of <$> emissions c);
  inv_nodup : NoDup (fid_of <$> emissions c);
  inv_count : emitted_count c = Z.of_nat (length (emissions c));
  inv_channel :
    if stream_callback opts then results c = [] else delivered c = [];
  inv_stopped :
    stop_event c = true →
    cur_reason c = limit_reached ∧ emitted_count c = cap;
  inv_running : stop_event c = false → emitted_count c < cap;
  inv_limit : cur_reason c = limit_reached → stop_event c = true;
  inv_timer :
    idle_enabled opts = false →
    idle_deadline c = None ∧ cur_reason c ≠ idle_timeout
}.

(** The state after the emission of [p], before the test of the limit. *)
Definition emitted_state (p : Path) (c : Coord) : Coord :=
  reset_idle_timer monotonic opts
    (record_emission (stream_callback opts) (fid_of p) p c).

(** The identity a future will be emitted under, if it holds a match. *)
Definition fut_id (f : Future) : option FileIdentity :=
  match f with
  | Ok (Some m) => Some (fid_of (path m))
  | _ => None
  end.

(** The path a future will emit, if it holds a match. *)
Definition fut_path (f : Future) : option Path :=
  match f with
  | Ok (Some m) => Some (path m)
  | _ => None
  end.

(** The identities of the matches among some futures. *)
Definition pend (futs : list Future) : gset FileIdentity :=
  list_to_set (omap fut_id futs).

Definition returns (f : Future) : Prop := ∃ r, f = Ok r.

Definition clock_monotone : Prop := ∀ n, monotonic n ≤ monotonic (S n).

Definition fair_completion : Prop :=
  ∀ (n : nat) (futs : list Future), as_completed n futs ≡ₚ futs.

(** The candidates of a call, in traversal order. *)
Definition candidates (roots : list Root) : list Path :=
  iter_files roots (follow_symlinks opts) (max_depth opts) (exclude_dirs opts).

(** What [search] returns from the state [c] its loops end in. *)
Definition outcome_of (c : Coord) : Outcome :=
  let start := monotonic O in
  let end_ := monotonic (clock c) in
  mkOutcome
    (results c,
     mkSearchStats (emitted_count c) (end_ - start)
       (if bool_decide (cur_reason c = idle_timeout)
        then Z.max 0 (end_ - last_emit_or start c) else 0)
       (cur_reason c))
    (delivered c).

(** The paths a call emitted: those the callback received, then those in
    the returned list (one of the two is empty). *)
Definition emitted_paths (o : Outcome) : list Path :=
  callback_calls o ++ (path <$> (returned o).1).

(** The paths the matcher accepts among some candidates, in order. *)
Definition accepted (sc : bool) (cands : list Path) : list Path :=
  omap fut_path (evaluate utf8_decode query opts sc <$> cands).

(** The identities of the distinct files among the candidates that the
    matcher accepts. *)
Definition eligible (roots : list Root) : gset FileIdentity :=
  pend (evaluate utf8_decode query opts (scan_content opts)
          <$> candidates roots).

(** The time the idle timer counts from: the last emission, or the start
    of the call when nothing was emitted. *)
Definition idle_base (c : Coord) : Z :=
  match last_emit_time c with Some t => t | None => monotonic O end.

(** The deadline is one timeout after [idle_base], which is a reading of
    the clock already made. *)
Record timer_inv (c : Coord) : Prop := {
  timer_deadline :
    idle_enabled opts = true →
    idle_deadline c = Some (idle_base c + timeout_value opts);
  timer_base : ∃ k, (k < clock c)%nat ∧ idle_base c = monotonic k
}.

(** The timer has been seen to expire. *)
Definition expired (c : Coord) : Prop :=
  ∃ k, (k < clock c)%nat ∧ idle_base c + timeout_value opts ≤ monotonic k.

End CoordinatorVocabulary.

Section LimitVocabulary.
Import Search.

Definition with_limit (l : Z) (o : Options) : Options :=
  mkOptions (scan_content o) (content_only o) (follow_symlinks o)
            (max_content_size_mb o) (workers o) l (max_depth o)
            (exclude_dirs o) (stream_callback o) (ext_match_or o)
            (idle_timeout_sec o).

End LimitVocabulary.

(** *** Files, clocks and schedules for concrete runs *)

Module Sample.
Import Query Search.

(** A regular file that can be read, with its device, inode and size. *)
Definition file (name stem suffix : string) (ino size : Z) (text : string)
  : Path :=
  mkPath name name stem suffix (Ok (mkStat 1 ino size)) (Ok name)
         (Ok (list_byte_of_string text)).

Definition file_entry (p : Path) : DirEntry * Dir :=
  (mkDirEntry (p_name p) p (λ _, Ok false) (λ _, Ok true) (Ok false),
   mkDir (Raise OSError)).

Definition folder (entries : list (DirEntry * Dir)) : Root :=
  mkRoot true (mkDir (Ok entries)).

Definition alpha : Path := file "alpha.txt" "alpha" ".txt" 10 5 "hello".
Definition beta : Path := file "beta.txt" "beta" ".txt" 11 5 "world".
(** A second name (a hard link) of the file [alpha]. *)
Definition alias : Path := file "alias.txt" "alias" ".txt" 10 5 "hello".
(** A text file of 20 MiB, as [stat] reports it. *)
Definition huge : Path :=
  file "log.txt" "log" ".txt" 12 (20 * 1024 * 1024) "an invoice".

(** The three files of the end-to-end example: an image with a null byte
    in it, a text that holds the word, and a name that holds the word. *)
Definition a_jpg : Path :=
  mkPath "a.jpg" "a.jpg" "a" ".jpg" (Ok (mkStat 1 20 3)) (Ok "a.jpg")
         (Ok [Byte.xff; Byte.x00; Byte.xd8]).
Definition notes_txt : Path :=
  file "notes.txt" "notes" ".txt" 21 18 "the invoice is due".
Definition my_invoice_pdf : Path :=
  file "My Invoice.pdf" "My Invoice" ".pdf" 22 4 "%PDF".
Definition invoices : list Root :=
  [folder [file_entry a_jpg; file_entry notes_txt; file_entry my_invoice_pdf]].

Definition two_files : list Root := [folder [file_entry alpha; file_entry beta]].

Definition dir_entry (name : string) (sub : Dir) : DirEntry * Dir :=
  (mkDirEntry name (file name name "" 0 0 "") (λ _, Ok true) (λ _, Ok false)
              (Ok false),
   sub).

(** An entry whose type cannot be told: [is_dir] raises. *)
Definition broken_entry (name : string) : DirEntry * Dir :=
  (mkDirEntry name (file name name "" 0 0 "") (λ _, Raise OSError)
              (λ _, Raise OSError) (Raise OSError),
   mkDir (Raise OSError)).

(** A tree with an excluded directory, a directory that cannot be listed,
    an entry that cannot be examined and two levels of subdirectories. *)
Definition tree : list Root :=
  [ mkRoot false (mkDir (Ok [file_entry huge]));
    folder
      [ file_entry alpha;
        dir_entry "node_modules" (mkDir (Ok [file_entry notes_txt]));
        dir_entry "sub"
          (mkDir (Ok [file_entry beta;
                      dir_entry "deep" (mkDir (Ok [file_entry alias]))]));
        broken_entry "vanished";
        dir_entry "locked" (mkDir (Raise OSError)) ] ].
Definition linked_files : list Root :=
  [folder [file_entry alpha; file_entry alias; file_entry beta]].

(** The query of the single token [a]. *)
Definition token_a : ParsedQuery := mkParsedQuery [] [] [] ["a"] false.
Definition token_invoice : ParsedQuery :=
  mkParsedQuery [] [] [] ["invoice"] false.

Definition options (scan : bool) (lim : Z) (callback : bool)
  (idle : option Z) : Options :=
  mkOptions scan false false 10 8 lim None [] callback false idle.

(** Bytes below 128 decode to themselves. *)
Definition ascii_decode (data : list Byte.byte) : result string :=
  Ok (string_of_list_byte data).

Definition in_order (n : nat) (futs : list Future) : list Future := futs.

(** A clock that advances by one tick per reading. *)
Definition steady_clock (n : nat) : Z := Z.of_nat n.

(** A clock that reads 0 at the start and 10 from then on. *)
Definition jumping_clock (n : nat) : Z :=
  match n with O => 0 | S _ => 10 end.

(** A clock that advances by one tick per reading, and by 8 ticks from
    its third reading to its fourth. *)
Definition late_clock (n : nat) : Z :=
  if (n <? 3)%nat then Z.of_nat n else 7 + Z.of_nat n.

(** The query [notes ext:.txt], parsed. *)
Definition notes_in_txt : ParsedQuery :=
  mkParsedQuery [] [] [".txt"] ["notes"] false.

(** The query [ext:.jpg], parsed. *)
Definition only_jpg : ParsedQuery := mkParsedQuery [] [] [".jpg"] [] false.

End Sample.

(** *** More of the parser *)

Section WordVocabulary.
Import PyStr Re Query.

(** Every character of [s] satisfies [p]. *)
Fixpoint all_chars (p : ascii → bool) (s : string) : bool :=
  match s with
  | EmptyString => true
  | String c s' => p c && all_chars p s'
  end.

Definition no_space (c : ascii) : bool := negb (isspace c).

Definition no_dquote (c : ascii) : bool := negb (is_dquote c).

Definition plain_char (c : ascii) : bool := no_space c && no_dquote c.

(** A command-line argument without white space and without double
    quotes. *)
Definition plain (t : string) : Prop :=
  t ≠ "" ∧ all_chars plain_char t = true.

(** A string of white space, the empty string included. *)
Definition blank (t : string) : Prop := all_chars isspace t = true.

(** What a token of a parsed query looks like. *)
Definition word (t : string) : Prop :=
  t ≠ "" ∧ all_chars no_space t = true ∧
  EXT_RE_match t = None ∧ TYPE_RE_match t = None.

(** The extensions an item adds to the filter: the one of an [ext:]
    directive, those of the group of a [type:] directive, none
    otherwise. *)
Definition directive_exts (s n : string) : gset string :=
  match or_match (EXT_RE_match s) (EXT_RE_match n) with
  | Some g => {[ _normalize_ext g ]}
  | None =>
      match or_match (TYPE_RE_match s) (TYPE_RE_match n) with
      | Some g => set_map _normalize_ext (_expand_type_to_exts g)
      | None => ∅
      end
  end.

Definition item_exts (cs : bool) (raw : string) : gset string :=
  directive_exts (strip raw) (_norm (strip raw) cs).

(** The query that asks for nothing. *)
Definition empty_query (cs : bool) : ParsedQuery :=
  mkParsedQuery [] [] [] [] cs.

End WordVocabulary.


(** *** Case folding of the pieces of a scan *)

Section FoldVocabulary.
Import PyStr Re.

Definition lower_piece (p : piece) : piece :=
  match p with
  | Lit c => Lit (lower_char c)
  | Quoted body => Quoted (lower body)
  end.

(** The characters of the text are code points 0..255, the range on which
    [lower] and the regular expressions of the embedding follow Python.
    (Beyond it they part: U+0130 is taken for a letter by the
    case-insensitive classes of [EXT_RE], and its lower case is two
    characters, the second of them no letter.) *)
Definition latin1 (s : string) : Prop := all_chars (in_range 0 255) s = true.

End FoldVocabulary.


(** *** Where a file lies under a directory *)

Section BelowVocabulary.

Variable follow_symlinks : bool.
Variable exclude_dirs : gset string.

(** The entry is taken for a file: [is_dir] says no, and [is_file] says
    yes or, when symbolic links are followed, [is_symlink] does. *)
Definition yielded (entry : DirEntry) : Prop :=
  e_is_dir entry follow_symlinks = Ok false ∧
  (e_is_file entry follow_symlinks = Ok true ∨
   (e_is_file entry follow_symlinks = Ok false ∧ follow_symlinks = true ∧
    e_is_symlink entry = Ok true)).

(** The entry is a directory whose name is not excluded. *)
Definition entered (entry : DirEntry) : Prop :=
  e_is_dir entry follow_symlinks = Ok true ∧ e_name entry ∉ exclude_dirs.

(** [below n d p]: the file [p] lies [n] directories under [d], each of
    them listable, entered by an entry that is a directory and is not
    excluded. *)
Inductive below : nat → Dir → Path → Prop :=
| below_here (es : list (DirEntry * Dir)) (entry : DirEntry) (sub : Dir) :
    (entry, sub) ∈ es → yielded entry →
    below O (mkDir (Ok es)) (e_path entry)
| below_sub (n : nat) (es : list (DirEntry * Dir)) (entry : DirEntry)
    (sub : Dir) (p : Path) :
    (entry, sub) ∈ es → entered entry → below n sub p →
    below (S n) (mkDir (Ok es)) p.

(** The depth test for a directory met at depth [k] and a file [n]
    directories under it. *)
Definition fits (max_depth : option Z) (k : Z) (n : nat) : Prop :=
  n = O ∨
  match max_depth with
  | None => True
  | Some m => k + Z.of_nat n ≤ m
  end.

End BelowVocabulary.


(** *** The first file of every identity, and the two channels *)

Section OrderVocabulary.
Import Search.

(** The paths of [ps] whose identity is not in [seen] and has not
    occurred earlier in [ps], in the order of [ps]. *)
Fixpoint distinct_from (seen : gset FileIdentity) (ps : list Path)
  : list Path :=
  match ps with
  | [] => []
  | p :: rest =>
      if decide (fid_of p ∈ seen) then distinct_from seen rest
      else p :: distinct_from ({[ fid_of p ]} ∪ seen) rest
  end.

Definition distinct_files (ps : list Path) : list Path := distinct_from ∅ ps.

Definition with_callback (b : bool) (o : Options) : Options :=
  mkOptions (scan_content o) (content_only o) (follow_symlinks o)
            (max_content_size_mb o) (workers o) (limit o) (max_depth o)
            (exclude_dirs o) b (ext_match_or o) (idle_timeout_sec o).

(** The state of a call without a callback that stands where the state
    [c] of a call with a callback stands: what the callback received is
    in the list of results. *)
Definition unstream (c : Coord) : Coord :=
  mkCoord (mkMatchResult <$> delivered c) [] (seen_ids c) (emitted_count c)
          (cur_reason c) (stop_event c) (idle_deadline c) (last_emit_time c)
          (clock c) (drains c).

Definition unstream_outcome (o : Outcome) : Outcome :=
  mkOutcome (mkMatchResult <$> callback_calls o, (returned o).2) [].

(** The clock has been read, and the time of the last emission is one of
    the readings made. *)
Definition read_inv (monotonic : nat → Z) (c : Coord) : Prop :=
  (0 < clock c)%nat ∧
  ∀ t, last_emit_time c = Some t → ∃ k, (k < clock c)%nat ∧ t = monotonic k.

End OrderVocabulary.


(** *** cli.py: the time a pass was at work *)

Section CliVocabulary.
Import Search.

(** [max(0.0, stats.wall_time_sec - stats.idle_time_sec)], the active
    time that [main] prints after each pass. *)
Definition active (stats : SearchStats) : Z :=
  Z.max 0 (wall_time_sec stats - idle_time_sec stats).

End CliVocabulary.


(** *** utils.py and cli.py: the roots of the two passes *)

(** The paths of this part are compared and hashed, joined, tested and
    resolved, never read: they are kept abstract, with the operations of
    [pathlib] the code calls as parameters.  [path_exists] is taken as
    total, as it is for the roots of [iter_files]; [resolve] and [is_dir]
    may raise, and [iterdir] raises before it yields anything. *)
Section Places.

Context {Loc : Type} `{Countable Loc}.

Variable path_of : string → Loc.              (* [Path(s)] *)
Variable joinpath : Loc → string → Loc.       (* [p / name] *)
Variable path_exists : Loc → bool.            (* [p.exists()] *)
Variable resolve : Loc → result Loc.          (* [p.resolve()] *)
Variable iterdir : Loc → result (list Loc).   (* [list(p.iterdir())] *)
Variable is_dir : Loc → result bool.          (* [p.is_dir()] *)
Variable home : Loc.                          (* [Path.home()] *)
Variable on_windows : bool.    (* [sys.platform.startswith] on [win] *)
Variable os_nt : bool.                        (* [os.name] is [nt] *)

Definition COMMON_DIR_NAMES : list string :=
  ["Desktop"; "Documents"; "Downloads"; "Pictures"; "Music"; "Videos";
   "Screenshots"].

Definition CLOUD_VARIANTS : list string :=
  ["OneDrive/Desktop"; "OneDrive/Documents"; "OneDrive/Pictures";
   "iCloud Drive/Desktop"; "iCloud Drive/Documents"].

Definition platform_home : Loc := home.

(** [try: rp = p.resolve()] with [rp = p] in the handler. *)
Definition resolved (p : Loc) : Loc :=
  match resolve p with Ok rp => rp | Raise _ => p end.

(** The loop both functions end with: a path is kept when its resolved
    path has not been seen. *)
Fixpoint uniq_from (seen : gset Loc) (paths : list Loc) : list Loc :=
  match paths with
  | [] => []
  | p :: rest =>
      if decide (resolved p ∈ seen) then uniq_from seen rest
      else p :: uniq_from ({[ resolved p ]} ∪ seen) rest
  end.

(** The children of [base] named by [names] that exist. *)
Definition existing (base : Loc) (names : list string) : list Loc :=
  List.filter path_exists (joinpath base <$> names).

(** The list [paths] of [default_search_paths] before the last loop. *)
Definition common_paths : list Loc :=
  existing platform_home COMMON_DIR_NAMES
  ++ (if on_windows then [platform_home] else [])
  ++ existing platform_home CLOUD_VARIANTS.

Definition default_search_paths : list Loc := uniq_from ∅ common_paths.

Definition ascii_uppercase : list ascii :=
  ["A"; "B"; "C"; "D"; "E"; "F"; "G"; "H"; "I"; "J"; "K"; "L"; "M"; "N";
   "O"; "P"; "Q"; "R"; "S"; "T"; "U"; "V"; "W"; "X"; "Y"; "Z"]%char.

(** The path of a drive: the letter, a colon and a backslash. *)
Definition drive (letter : ascii) : Loc :=
  path_of (String letter (String ":"%char (String "\"%char EmptyString))).

(** The loop over the children of a base, inside its [try]: an exception
    of [is_dir] ends the loop and keeps what was appended. *)
Fixpoint dirs_until_error (children : list Loc) : list Loc :=
  match children with
  | [] => []
  | child :: rest =>
      match is_dir child with
      | Ok true => child :: dirs_until_error rest
      | Ok false => dirs_until_error rest
      | Raise _ => []
      end
  end.

Definition mounted (base : Loc) : list Loc :=
  if path_exists base then
    match iterdir base with
    | Ok children => dirs_until_error children
    | Raise _ => []
    end
  else [].

Definition mount_bases : list Loc :=
  [path_of "/Volumes"; path_of "/mnt"; path_of "/media"].

(** The list [roots] of [drive_roots] before the last loop. *)
Definition all_roots : list Loc :=
  if os_nt then List.filter path_exists (drive <$> ascii_uppercase)
  else path_of "/" :: flat_map mounted mount_bases.

Definition drive_roots : list Loc := uniq_from ∅ all_roots.



Variable expanduser : Loc → Loc.              (* [p.expanduser()] *)


End Places.


(** *** Names without a path in them *)

Section BareVocabulary.
Import PyStr Query.

Definition is_not (x : ascii) (c : ascii) : bool := negb (Ascii.eqb c x).

(** No slash and no backslash. *)
Definition bare (s : string) : Prop :=
  all_chars (is_not "/"%char) s = true ∧ all_chars (is_not "\"%char) s = true.

(** The test [parse_query] makes on a quoted text without separator: a
    dot in it, and not at its start. *)
Definition looks_like_name_ext (s : string) : bool :=
  contains "." s && negb (startswith "." s).

End BareVocabulary.

(** Four paths as strings, for the roots of the second pass. *)
Module SamplePlaces.

Definition present (p : string) : bool := negb (String.eqb p "/Volumes").

Definition listing (base : string) : result (list string) :=
  if String.eqb base "/mnt" then Ok ["/mnt/usb"; "/mnt/notes.txt"; "/mnt/disk"]
  else Raise OSError.

Definition is_directory (p : string) : result bool :=
  Ok (negb (String.eqb p "/mnt/notes.txt")).

(** [/mnt/disk] is a link to the root of the file system. *)
Definition target (p : string) : result string :=
  if String.eqb p "/mnt/disk" then Ok "/" else Ok p.

End SamplePlaces.


(* ===================================================================== *)
(** ** The three calls of a search that sit outside every [try] *)
(* ===================================================================== *)

(** [root.exists()] in [iter_files], the advance of the iterator of an
    open [os.scandir] handle in [_walk_scandir], and the call of the
    [stream_callback] in [maybe_emit] are not guarded: an exception of
    one of them leaves [search].  This module is the traversal and the
    coordinator with these three calls fallible.  [iter_files] is a
    generator: what it yielded before an exception has been handled by
    the loop of [search] before the exception reaches it, so the
    candidates of a call are a list of paths followed, or not, by an
    exception. *)
Module Raising.
Import PyStr Query Utils Search.

(** A directory: [os.scandir] fails, or yields the entries listed and
    then ends, or fails, when the loop asks for the next entry. *)
Inductive LazyDir : Type :=
| mkLazyDir (l_scan : result (list (DirEntry * LazyDir) * option exn)).

Definition l_scan (d : LazyDir)
  : result (list (DirEntry * LazyDir) * option exn) :=
  match d with mkLazyDir s => s end.

Record LazyRoot : Type := mkLazyRoot {
  l_exists : result bool;
  l_dir : LazyDir
}.

(** The body of the loop over the entries, inside its [try], as in
    [Utils.visit_entry]. *)
Definition visit_entry (follow_symlinks : bool) (max_depth : option Z)
  (exclude_dirs : gset string) (depth : Z) (entry : DirEntry) (sub : LazyDir)
  : option (LazyDir * Z) * option Path :=
  let body : result (option (LazyDir * Z) * option Path) :=
    isd ← e_is_dir entry follow_symlinks;
    if isd : bool then
      if bool_decide (e_name entry ∈ exclude_dirs) then Ok (None, None)
      else
        let next_depth := depth + 1 in
        if match max_depth with
           | None => true
           | Some m => next_depth <=? m
           end
        then Ok (Some (sub, next_depth), None)
        else Ok (None, None)
    else
      isf ← e_is_file entry follow_symlinks;
      yes ← (if isf : bool then Ok true
             else if follow_symlinks then e_is_symlink entry else Ok false);
      if yes : bool then Ok (None, Some (e_path entry)) else Ok (None, None)
  in
  match body with
  | Ok r => r
  | Raise _ => (None, None)
  end.

Fixpoint visit_entries (follow_symlinks : bool) (max_depth : option Z)
  (exclude_dirs : gset string) (depth : Z)
  (entries : list (DirEntry * LazyDir)) (stack : list (LazyDir * Z))
  : list (LazyDir * Z) * list Path :=
  match entries with
  | [] => (stack, [])
  | (entry, sub) :: rest =>
      let '(push, yielded) :=
        visit_entry follow_symlinks max_depth exclude_dirs depth entry sub in
      let stack' := match push with Some d => d :: stack | None => stack end in
      let '(stack'', ys) :=
        visit_entries follow_symlinks max_depth exclude_dirs depth rest
                      stack' in
      (stack'', match yielded with Some p => p :: ys | None => ys end)
  end.

(** The [while stack] loop: the paths yielded, and the exception that
    ended the generator, if one did. *)
Fixpoint walk_loop (follow_symlinks : bool) (max_depth : option Z)
  (exclude_dirs : gset string) (fuel : nat) (stack : list (LazyDir * Z))
  : list Path * option exn :=
  match fuel with
  | O => ([], None)
  | S fuel' =>
      match stack with
      | [] => ([], None)
      | (cur, depth) :: stack' =>
          match l_scan cur with
          | Raise _ =>
              walk_loop follow_symlinks max_depth exclude_dirs fuel' stack'
          | Ok (entries, broken) =>
              let '(stack'', ys) :=
                visit_entries follow_symlinks max_depth exclude_dirs depth
                              entries stack' in
              match broken with
              | Some e => (ys, Some e)
              | None =>
                  let '(zs, failure) :=
                    walk_loop follow_symlinks max_depth exclude_dirs fuel'
                              stack'' in
                  (ys ++ zs, failure)
              end
          end
      end
  end.

Fixpoint dir_weight (d : LazyDir) : nat :=
  match d with
  | mkLazyDir (Ok (entries, _)) =>
      S ((fix go (es : list (DirEntry * LazyDir)) : nat :=
            match es with
            | [] => O
            | (_, sub) :: es' => (dir_weight sub + go es')%nat
            end) entries)
  | mkLazyDir (Raise _) => 1%nat
  end.

Definition _walk_scandir (root : LazyDir) (follow_symlinks : bool)
  (max_depth : option Z) (exclude_dirs : gset string)
  : list Path * option exn :=
  walk_loop follow_symlinks max_depth exclude_dirs (dir_weight root)
            [(root, 0)].

Fixpoint iter_files (paths : list LazyRoot) (follow_symlinks : bool)
  (max_depth : option Z) (exclude_dirs : list string)
  : list Path * option exn :=
  let excludes : gset string := list_to_set exclude_dirs in
  match paths with
  | [] => ([], None)
  | root :: paths' =>
      match l_exists root with
      | Raise e => ([], Some e)
      | Ok false => iter_files paths' follow_symlinks max_depth exclude_dirs
      | Ok true =>
          let '(ys, failure) :=
            _walk_scandir (l_dir root) follow_symlinks max_depth excludes in
          match failure with
          | Some e => (ys, Some e)
          | None =>
              let '(zs, failure') :=
                iter_files paths' follow_symlinks max_depth exclude_dirs in
              (ys ++ zs, failure')
          end
      end
  end.

Section WithWorld.

Variable utf8_decode : list Byte.byte → result string.
Variable monotonic : nat → Z.
Variable as_completed : nat → list Future → list Future.
(** The caller's [stream_callback], called when one was supplied. *)
Variable callback : Path → result unit.
Variable query : ParsedQuery.
Variable opts : Options.

Definition maybe_emit (p : Path) (c : Coord) : result (bool * Coord) :=
  fid ← _file_id p;
  if bool_decide (fid ∈ seen_ids c) then Ok (true, c)
  else
    _ ← (if stream_callback opts then callback p else Ok tt);
    let c := record_emission (stream_callback opts) fid p c in
    let c := reset_idle_timer monotonic opts c in
    if Z.max 1 (limit opts) <=? emitted_count c
    then Ok (false, set_stop_event (set_reason limit_reached c))
    else Ok (true, c).

(** The end of a [for] loop over the candidates: the generator has
    ended, or raises. *)
Definition exhausted {A : Type} (failure : option exn) (a : A) : result A :=
  match failure with
  | Some e => Raise e
  | None => Ok a
  end.

Fixpoint inline_loop (cands : list Path) (failure : option exn) (c : Coord)
  : result Coord :=
  match cands with
  | [] => exhausted failure c
  | p :: rest =>
      let '(halt, c) := stop_or_timed_out monotonic c in
      if halt then Ok (note_timeout monotonic c)
      else
        r ← evaluate utf8_decode query opts false p;
        match r with
        | Some m =>
            '(go_on, c) ← maybe_emit (path m) c;
            if go_on : bool then inline_loop rest failure c else Ok c
        | None => inline_loop rest failure c
        end
  end.

Fixpoint drain (in_batch : bool) (futs : list Future) (c : Coord)
  : result Coord :=
  match futs with
  | [] => Ok c
  | fut :: rest =>
      if stop_event c || (in_batch && bool_decide (cur_reason c = idle_timeout))
      then Ok c
      else
        r ← fut;
        match r with
        | Some m =>
            '(go_on, c) ← maybe_emit (path m) c;
            if go_on : bool then drain in_batch rest c else Ok c
        | None => drain in_batch rest c
        end
  end.

Fixpoint submit_loop (cands : list Path) (failure : option exn)
  (futures : list Future) (c : Coord) : result (list Future * Coord) :=
  match cands with
  | [] => exhausted failure (futures, c)
  | p :: rest =>
      let '(halt, c) := stop_or_timed_out monotonic c in
      if halt then Ok (futures, note_timeout monotonic c)
      else
        let futures := futures ++ [evaluate utf8_decode query opts true p] in
        let '(full, c) :=
          if bool_decide (BATCH ≤ length futures)%nat then (true, c)
          else timed_out monotonic c in
        if full then
          let c := note_timeout monotonic c in
          c ← drain true (as_completed (drains c) futures) (next_drain c);
          if stop_event c || bool_decide (cur_reason c = idle_timeout)
          then Ok ([], c)
          else submit_loop rest failure [] c
        else submit_loop rest failure futures c
  end.

Definition search (roots : list LazyRoot) : result Outcome :=
  let start := monotonic O in
  let c := initial opts start in
  let '(cands, failure) :=
    iter_files roots (follow_symlinks opts) (max_depth opts)
               (exclude_dirs opts) in
  if negb (scan_content opts) then
    c ← inline_loop cands failure c;
    let '(stats, c) := make_stats monotonic start c in
    Ok (mkOutcome (results c, stats) (delivered c))
  else
    '(futures, c) ← submit_loop cands failure [] c;
    c ← drain false (as_completed (drains c) futures) (next_drain c);
    let '(stats, c) := make_stats monotonic start c in
    Ok (mkOutcome (results c, stats) (delivered c)).

End WithWorld.

End Raising.

(** *** Inputs on which the three calls return *)

Section CalmVocabulary.

(** The directory [d] with an iteration that never fails. *)
Fixpoint calm_dir (d : Dir) : Raising.LazyDir :=
  match d with
  | mkDir (Ok entries) =>
      Raising.mkLazyDir
        (Ok ((fix go (es : list (DirEntry * Dir))
                : list (DirEntry * Raising.LazyDir) :=
                match es with
                | [] => []
                | (entry, sub) :: es' => (entry, calm_dir sub) :: go es'
                end) entries,
             None))
  | mkDir (Raise e) => Raising.mkLazyDir (Raise e)
  end.

Fixpoint calm_entries (es : list (DirEntry * Dir))
  : list (DirEntry * Raising.LazyDir) :=
  match es with
  | [] => []
  | (entry, sub) :: es' => (entry, calm_dir sub) :: calm_entries es'
  end.

(** The root [r] with an [exists] that returns. *)
Definition calm_root (r : Root) : Raising.LazyRoot :=
  Raising.mkLazyRoot (Ok (root_exists r)) (calm_dir (root_dir r)).

Definition calm_stack (stack : list (Dir * Z)) : list (Raising.LazyDir * Z) :=
  (λ x, (calm_dir x.1, x.2)) <$> stack.

(** A callback that returns, whatever the path. *)
Definition quiet (callback : Path → result unit) : Prop :=
  ∀ p, callback p = Ok tt.

Fixpoint lazy_entries_weight (es : list (DirEntry * Raising.LazyDir)) : nat :=
  match es with
  | [] => O
  | (_, sub) :: es' => (Raising.dir_weight sub + lazy_entries_weight es')%nat
  end.

Fixpoint lazy_stack_weight (stack : list (Raising.LazyDir * Z)) : nat :=
  match stack with
  | [] => O
  | (d, _) :: stack' => (Raising.dir_weight d + lazy_stack_weight stack')%nat
  end.

End CalmVocabulary.

(** Roots and callbacks that raise, for concrete runs. *)
Module SampleRaising.
Import Search Sample Raising.

Definition lazy_file_entry (p : Path) : DirEntry * LazyDir :=
  ((file_entry p).1, mkLazyDir (Raise OSError)).

(** A root whose name is too long for [stat]: [exists] raises. *)
Definition unnameable : LazyRoot :=
  mkLazyRoot (Raise OSError) (mkLazyDir (Raise OSError)).

(** A directory whose listing breaks after its first entry. *)
Definition vanishing : LazyRoot :=
  mkLazyRoot (Ok true)
    (mkLazyDir (Ok ([lazy_file_entry alpha], Some OSError))).

Definition sound : LazyRoot :=
  mkLazyRoot (Ok true)
    (mkLazyDir (Ok ([lazy_file_entry alpha; lazy_file_entry beta], None))).

Definition silent (p : Path) : result unit := Ok tt.

(** A callback that cannot print. *)
Definition broken_pipe (p : Path) : result unit := Raise OSError.

End SampleRaising.


Section LazyWalkVocabulary.

Variable follow_symlinks : bool.
Variable max_depth : option Z.
Variable exclude_dirs : gset string.

(** The traversal of [Raising] from any stack, with the fuel it needs. *)
Definition lazy_walk (stack : list (Raising.LazyDir * Z))
  : list Path * option exn :=
  Raising.walk_loop follow_symlinks max_depth exclude_dirs
                    (lazy_stack_weight stack) stack.

End LazyWalkVocabulary.


Section OriginVocabulary.
Import Search.

(** A future that holds a verdict, on one of the paths [all] if the
    verdict is a match. *)
Definition from_paths (all : list Path) (f : Future) : Prop :=
  returns f ∧ ∀ p, fut_path f = Some p → p ∈ all.

End OriginVocabulary.


(* ===================================================================== *)
(** ** Facts about strings and the parser *)
(* ===================================================================== *)

Section QueryFacts.
Import PyStr Re Query.

Lemma lower_char_idem (c : ascii) : lower_char (lower_char c) = lower_char c.
Proof. destruct c as [[] [] [] [] [] [] [] []]; reflexivity. Qed.

Lemma lower_idem (s : string) : lower (lower s) = lower s.
Proof.
  induction s as [|c s IH]; simpl; [reflexivity|].
  now rewrite lower_char_idem, IH.
Qed.

Lemma _normalize_ext_lower (e : string) :
  lower (_normalize_ext e) = _normalize_ext e.
Proof.
  unfold _normalize_ext.
  destruct (negb (startswith "." (lower (strip e)))).
  - change (String "."%char (lower (lower (strip e)))
            = String "."%char (lower (strip e))).
    now rewrite lower_idem.
  - apply lower_idem.
Qed.

Lemma _normalize_ext_dot (e : string) :
  startswith "." (_normalize_ext e) = true.
Proof.
  unfold _normalize_ext.
  destruct (startswith "." (lower (strip e))) eqn:E; simpl; [exact E|].
  change (startswith "." (String "."%char (lower (strip e))) = true).
  unfold startswith. simpl. now destruct (lower (strip e)).
Qed.

Lemma _norm_false_lower (s : string) : lower (_norm s false) = _norm s false.
Proof. apply lower_idem. Qed.

Lemma _norm_true (s : string) : _norm s true = s.
Proof. reflexivity. Qed.

(** *** [dedup] *)

Lemma dedup_from_elem (seen : gset string) (seq : list string) (x : string) :
  x ∈ dedup_from seen seq ↔ x ∈ seq ∧ x ∉ seen.
Proof.
  revert seen. induction seq as [|z seq IH]; intros seen; simpl.
  - set_solver.
  - destruct (decide (z ∈ seen)) as [Hz|Hz].
    + rewrite IH. set_solver.
    + rewrite elem_of_cons, IH. destruct (decide (x = z)); set_solver.
Qed.

Lemma dedup_from_NoDup (seen : gset string) (seq : list string) :
  NoDup (dedup_from seen seq).
Proof.
  revert seen. induction seq as [|z seq IH]; intros seen; simpl.
  - constructor.
  - destruct (decide (z ∈ seen)); [apply IH|].
    constructor; [|apply IH].
    rewrite dedup_from_elem. set_solver.
Qed.

Lemma dedup_from_first_seen (seen : gset string) (seq : list string)
  (i : nat) (x : string) :
  dedup_from seen seq !! i = Some x →
  ∃ k : nat, seq !! k = Some x ∧ (x ∉ seen) ∧ (x ∉ take k seq) ∧
    ∀ y, y ∈ take i (dedup_from seen seq) ↔ (y ∈ take k seq ∧ y ∉ seen).
Proof.
  revert seen i. induction seq as [|z seq IH]; intros seen i; simpl.
  - intros H; discriminate.
  - destruct (decide (z ∈ seen)) as [Hz|Hz].
    + intros H. destruct (IH _ _ H) as (k & Hk & Hs & Hn & Hy).
      exists (S k). simpl.
      split; [assumption|]. split; [assumption|]. split.
      * rewrite elem_of_cons. intros [->|Hin]; tauto.
      * intros y. rewrite Hy, elem_of_cons. split.
        -- tauto.
        -- intros [[->|Hin] Hns]; tauto.
    + destruct i as [|i]; simpl.
      * intros [= ->]. exists O. simpl.
        split; [reflexivity|]. split; [assumption|]. split.
        -- apply not_elem_of_nil.
        -- intros y. rewrite elem_of_nil. tauto.
      * intros H. destruct (IH _ _ H) as (k & Hk & Hs & Hn & Hy).
        assert (x ≠ z) as Hxz by set_solver.
        assert (x ∉ seen) as Hxs by set_solver.
        exists (S k). simpl.
        split; [assumption|]. split; [assumption|]. split.
        -- rewrite elem_of_cons. tauto.
        -- intros y. rewrite !elem_of_cons, Hy.
           rewrite elem_of_union, elem_of_singleton.
           destruct (decide (y = z)) as [->|Hne]; tauto.
Qed.

Lemma dedup_first_seen (seq : list string) : first_seen seq (dedup seq).
Proof.
  unfold first_seen, dedup. split; [apply dedup_from_NoDup|]. split.
  - intros x. rewrite dedup_from_elem. set_solver.
  - intros i x H. destruct (dedup_from_first_seen _ _ _ _ H)
      as (k & Hk & _ & Hn & Hy).
    exists k. split; [assumption|]. split; [assumption|].
    intros y. rewrite Hy. set_solver.
Qed.


(** *** Invariants of the two parsing loops *)

Lemma acc_inv_acc0 cs qs us : acc_inv cs qs us acc0.
Proof. split; simpl; intros x Hx; set_solver. Qed.

Lemma directive_inv cs qs us s n a a' :
  acc_inv cs qs us a → directive s n a = Some a' → acc_inv cs qs us a'.
Proof.
  intros [He Hf Hs Ht]. unfold directive.
  destruct (or_match (EXT_RE_match s) (EXT_RE_match n)) as [g|].
  - intros [= <-]. split; simpl; try assumption.
    intros e. rewrite elem_of_union, elem_of_singleton.
    intros [->|Hin]; [|auto].
    split; [apply _normalize_ext_lower | apply _normalize_ext_dot].
  - destruct (or_match (TYPE_RE_match s) (TYPE_RE_match n)) as [g|];
      [|discriminate].
    intros [= <-]. split; simpl; try assumption.
    intros e. rewrite elem_of_union, elem_of_map.
    intros [Hin|(y & -> & _)]; [auto|].
    split; [apply _normalize_ext_lower | apply _normalize_ext_dot].
Qed.

Lemma quoted_step_inv cs qs us a raw :
  raw ∈ qs → acc_inv cs qs us a → acc_inv cs qs us (quoted_step cs a raw).
Proof.
  intros Hraw Ha. unfold quoted_step.
  destruct (directive (strip raw) (_norm (strip raw) cs) a) as [a'|] eqn:Hd.
  { eapply directive_inv; eassumption. }
  destruct Ha as [He Hf Hs Ht].
  destruct (has_sep (strip raw));
    [|destruct (contains "." (strip raw) && negb (startswith "." (strip raw)))];
    split; simpl; try assumption; intros x; rewrite elem_of_app;
    (intros [Hin|Hin]; [auto|]); apply list_elem_of_singleton in Hin as ->;
    exists raw; auto.
Qed.

Lemma unquoted_step_inv cs qs us a raw :
  raw ∈ us → acc_inv cs qs us a → acc_inv cs qs us (unquoted_step cs a raw).
Proof.
  intros Hraw Ha. unfold unquoted_step.
  destruct (directive (strip raw) (_norm (strip raw) cs) a) as [a'|] eqn:Hd.
  { eapply directive_inv; eassumption. }
  destruct Ha as [He Hf Hs Ht].
  split; simpl; try assumption; intros x; rewrite elem_of_app;
    (intros [Hin|Hin]; [auto|]); apply list_elem_of_singleton in Hin as ->;
    exists raw; auto.
Qed.

Lemma fold_left_inv {A B : Type} (P : A → Prop) (f : A → B → A)
  (l : list B) (a : A) :
  (∀ a b, b ∈ l → P a → P (f a b)) → P a → P (fold_left f l a).
Proof.
  revert a. induction l as [|b l IH]; intros a Hf Ha; simpl; [assumption|].
  apply IH.
  - intros a' b' Hb'. apply Hf. now right.
  - apply Hf; [now left | assumption].
Qed.

Lemma parse_acc_inv (argv_terms : list string) (cs : bool) :
  acc_inv cs (quoted_items argv_terms) (unquoted_items argv_terms)
    (parse_acc argv_terms cs).
Proof.
  unfold parse_acc.
  apply fold_left_inv; [intros; now apply unquoted_step_inv|].
  apply fold_left_inv; [intros; now apply quoted_step_inv|].
  apply acc_inv_acc0.
Qed.


(** *** What the loops never take back *)

Lemma acc_le_refl a : acc_le a a.
Proof. split; reflexivity. Qed.

Lemma acc_le_trans a b c : acc_le a b → acc_le b c → acc_le a c.
Proof. intros [? ?] [? ?]. split; etransitivity; eassumption. Qed.

Lemma directive_le s n a a' : directive s n a = Some a' → acc_le a a'.
Proof.
  unfold directive.
  destruct (or_match (EXT_RE_match s) (EXT_RE_match n)).
  - intros [= <-]. split; reflexivity.
  - destruct (or_match (TYPE_RE_match s) (TYPE_RE_match n)); [|discriminate].
    intros [= <-]. split; reflexivity.
Qed.

Lemma quoted_step_le cs a raw : acc_le a (quoted_step cs a raw).
Proof.
  unfold quoted_step.
  destruct (directive _ _ a) eqn:Hd; [eapply directive_le; eassumption|].
  destruct (has_sep _); [|destruct (_ && _)]; split; simpl; set_solver.
Qed.

Lemma unquoted_step_le cs a raw : acc_le a (unquoted_step cs a raw).
Proof.
  unfold unquoted_step.
  destruct (directive _ _ a) eqn:Hd; [eapply directive_le; eassumption|].
  split; reflexivity.
Qed.

Lemma fold_left_le {B : Type} (f : acc → B → acc) (l : list B) (a : acc) :
  (∀ a b, acc_le a (f a b)) → acc_le a (fold_left f l a).
Proof.
  intros Hf. revert a. induction l as [|b l IH]; intros a; simpl.
  - apply acc_le_refl.
  - eapply acc_le_trans; [apply Hf | apply IH].
Qed.

Lemma directive_None s n a : is_directive s n = false → directive s n a = None.
Proof.
  unfold is_directive, directive.
  destruct (or_match (EXT_RE_match s) (EXT_RE_match n)); [discriminate|].
  now destruct (or_match (TYPE_RE_match s) (TYPE_RE_match n)).
Qed.

Lemma lands_in_le k x a a' : acc_le a a' → lands_in k x a → lands_in k x a'.
Proof. intros [Hf Hs]. destruct k; simpl; auto. Qed.

Lemma quoted_step_lands cs a raw :
  is_directive (strip raw) (_norm (strip raw) cs) = false →
  lands_in (classify (strip raw)).1 (_norm (classify (strip raw)).2 cs)
    (quoted_step cs a raw).
Proof.
  intros Hd. unfold quoted_step, classify.
  rewrite (directive_None _ _ a Hd).
  destruct (has_sep _); [|destruct (_ && _)]; simpl; set_solver.
Qed.

Lemma parse_acc_lands (argv_terms : list string) (cs : bool) (raw : string) :
  raw ∈ quoted_items argv_terms →
  is_directive (strip raw) (_norm (strip raw) cs) = false →
  lands_in (classify (strip raw)).1 (_norm (classify (strip raw)).2 cs)
    (parse_acc argv_terms cs).
Proof.
  intros Hraw Hd. unfold parse_acc.
  eapply lands_in_le; [apply fold_left_le, unquoted_step_le|].
  apply list_elem_of_split in Hraw as (l1 & l2 & ->).
  rewrite fold_left_app. simpl.
  eapply lands_in_le; [apply fold_left_le, quoted_step_le|].
  now apply quoted_step_lands.
Qed.


(** C7, the rule as worded fails: the quoted text [.a.b] has no path
    separator and has a dot that is not at its start, yet [parse_query]
    makes it an exact stem and not an exact filename, because the text
    itself starts with a dot. *)
Lemma quoted_dotfile_is_a_stem :
  quoted_items [in_quotes ".a.b"] = [".a.b"] ∧
  is_directive ".a.b" (_norm ".a.b" false) = false ∧
  classify_as_worded ".a.b" = (ExactFilename, ".a.b") ∧
  ¬ query_has ExactFilename ".a.b" (parse_query [in_quotes ".a.b"] false) ∧
  exact_filenames (parse_query [in_quotes ".a.b"] false) = [] ∧
  exact_stems (parse_query [in_quotes ".a.b"] false) = [".a.b"].
Proof.
  assert (exact_filenames (parse_query [in_quotes ".a.b"] false) = []) as E
    by (vm_compute; reflexivity).
  split; [vm_compute; reflexivity|].
  split; [vm_compute; reflexivity|].
  split; [vm_compute; reflexivity|].
  split; [unfold query_has; rewrite E; apply not_elem_of_nil|].
  split; [exact E | vm_compute; reflexivity].
Qed.

(** C7 (amended): every quoted item that is not an [ext:] or [type:]
    directive lands as [classify] says: with a path separator its final
    segment is an exact filename; else, when it contains a dot and does not
    start with one, the whole text is an exact filename; else it is an
    exact stem; each normalised by the case flag.  The two examples of the
    claim hold as written. *)
Theorem parse_query_classifies_quoted
  (argv_terms : list string) (cs : bool) (raw : string) :
  raw ∈ quoted_items argv_terms →
  is_directive (strip raw) (_norm (strip raw) cs) = false →
  query_has (classify (strip raw)).1 (_norm (classify (strip raw)).2 cs)
    (parse_query argv_terms cs) ∧
  exact_filenames (parse_query [in_quotes "notes.txt"] false) = ["notes.txt"] ∧
  exact_stems (parse_query [in_quotes "notes"] false) = ["notes"].
Proof.
  intros Hraw Hd. split; [|split; vm_compute; reflexivity].
  pose proof (parse_acc_lands argv_terms cs raw Hraw Hd) as H.
  unfold parse_query, query_has, lands_in in *.
  destruct (classify (strip raw)).1; simpl; unfold dedup;
    rewrite dedup_from_elem; (split; [exact H | apply not_elem_of_empty]).
Qed.

Lemma parse_query_classifies_quoted_witness :
  query_has ExactFilename "x.txt"
    (parse_query [in_quotes "Dir/Sub\X.TXT"; "foo"] false).
Proof.
  apply (parse_query_classifies_quoted
           [in_quotes "Dir/Sub\X.TXT"; "foo"] false "Dir/Sub\X.TXT").
  - vm_compute. left.
  - vm_compute. reflexivity.
Defined.

(** C8: the normal form of every parsed query.  The extensions are lower
    case, start with a dot and are sorted, each listed once; exact filenames, exact stems and
    tokens are lower case when the query is case-insensitive and are the
    text as typed (stripped of surrounding blanks; for a path, its final
    segment) when it is case-sensitive; and each of the three lists keeps
    the first occurrence of every value, in order, without duplicates. *)
Theorem parse_query_normal_form (argv_terms : list string) (cs : bool) :
  let q := parse_query argv_terms cs in
  let a := parse_acc argv_terms cs in
  (Forall ext_ok (and_extensions q) ∧ Sorted str_le (and_extensions q) ∧
   NoDup (and_extensions q)) ∧
  (if cs then
     Forall (λ x, ∃ raw, raw ∈ quoted_items argv_terms ∧
                    (x = strip raw ∨ x = final_segment (strip raw)))
            (exact_filenames q) ∧
     Forall (λ x, ∃ raw, raw ∈ quoted_items argv_terms ∧ x = strip raw)
            (exact_stems q) ∧
     Forall (λ x, ∃ raw, raw ∈ unquoted_items argv_terms ∧ x = strip raw)
            (tokens q)
   else
     Forall is_lower (exact_filenames q) ∧ Forall is_lower (exact_stems q) ∧
     Forall is_lower (tokens q)) ∧
  (first_seen (a_filenames a) (exact_filenames q) ∧
   first_seen (a_stems a) (exact_stems q) ∧
   first_seen (a_tokens a) (tokens q)) ∧
  case_sensitive q = cs.
Proof.
  intros q a.
  destruct (parse_acc_inv argv_terms cs) as [He Hf Hs Ht].
  fold a in He, Hf, Hs, Ht.
  assert (∀ l x, x ∈ dedup l → x ∈ l) as Hdd.
  { intros l x Hx. unfold dedup in Hx. now apply dedup_from_elem in Hx. }
  split; [split; [|split]|split; [|split; [|reflexivity]]].
  - apply Forall_forall. intros e Hin. apply He.
    unfold q, parse_query, sorted in Hin. simpl in Hin.
    rewrite merge_sort_Permutation in Hin. now apply elem_of_elements in Hin.
  - apply Sorted_merge_sort. apply _.
  - unfold q, parse_query, sorted. simpl.
    rewrite merge_sort_Permutation. apply NoDup_elements.
  - subst q. unfold parse_query; simpl. destruct cs.
    + repeat split; apply Forall_forall; intros x Hx; apply Hdd in Hx.
      * apply Hf in Hx. exact Hx.
      * apply Hs in Hx. exact Hx.
      * apply Ht in Hx. exact Hx.
    + repeat split; apply Forall_forall; intros x Hx; apply Hdd in Hx.
      * apply Hf in Hx as (raw & _ & [->| ->]); apply lower_idem.
      * apply Hs in Hx as (raw & _ & ->); apply lower_idem.
      * apply Ht in Hx as (raw & _ & ->); apply lower_idem.
  - repeat split; try apply dedup_first_seen.
Qed.

(** Runs of the parser. *)

Example parse_ext : and_extensions (parse_query ["ext:.JPG"] true) = [".jpg"].
Proof. vm_compute. reflexivity. Qed.

Example parse_type_image :
  and_extensions (parse_query ["type:image"] false)
  = [".bmp"; ".gif"; ".heic"; ".jpeg"; ".jpg"; ".png"; ".svg"; ".tif";
     ".tiff"; ".webp"].
Proof. vm_compute. reflexivity. Qed.

Example parse_unknown_type :
  parse_query ["type:nothing"] false = mkParsedQuery [] [] [] [] false.
Proof. vm_compute. reflexivity. Qed.

Example parse_case_folding :
  parse_query [in_quotes "NOTES"; "NOTES"; "notes"] false
  = mkParsedQuery [] ["notes"] [] ["notes"] false.
Proof. vm_compute. reflexivity. Qed.

(** A quote that is never closed stays in the text, as part of a token. *)
Example parse_open_quote :
  parse_query [String dquote "a b"] false
  = mkParsedQuery [] [] [] [String dquote "a"; "b"] false.
Proof. vm_compute. reflexivity. Qed.

Example parse_path :
  parse_query [in_quotes " Dir/Sub\Report.PDF "; "ext:.pdf"] true
  = mkParsedQuery ["Report.PDF"] [] [".pdf"] [] true.
Proof. vm_compute. reflexivity. Qed.

End QueryFacts.

(* ===================================================================== *)
(** ** The matcher *)
(* ===================================================================== *)

Section MatcherFacts.
Import PyStr Query Utils Search.

Lemma non_empty_true {A : Type} (l : list A) : non_empty l = true ↔ l ≠ [].
Proof. destruct l; simpl; split; intros H; try done. Qed.

Lemma non_empty_elem {A : Type} (l : list A) (x : A) : x ∈ l → non_empty l = true.
Proof. destruct 1; reflexivity. Qed.

Lemma truthy_true (s : string) : truthy s = true ↔ s ≠ "".
Proof. destruct s; simpl; split; intros H; try done. Qed.

Lemma in_list_guarded {A : Type} `{EqDecision A} (l : list A) (x : A) :
  non_empty l && bool_decide (x ∈ l) = bool_decide (x ∈ l).
Proof.
  destruct (bool_decide (x ∈ l)) eqn:E; [|apply andb_false_r].
  apply bool_decide_eq_true in E. now rewrite (non_empty_elem l x E).
Qed.

Lemma some_token_in (fn : string) (toks : list string) :
  existsb (λ tok, truthy tok && contains tok fn) toks = true ↔
  ∃ tok, tok ∈ toks ∧ tok ≠ "" ∧ contains tok fn = true.
Proof.
  rewrite existsb_exists. split.
  - intros (tok & Hin & H). apply andb_true_iff in H as [Ht Hc].
    exists tok. rewrite list_elem_of_In, <- truthy_true. auto.
  - intros (tok & Hin & Ht & Hc). exists tok.
    rewrite <- list_elem_of_In, andb_true_iff, truthy_true. auto.
Qed.

(** C1, the claim fails: with the filter [.txt], the file [notes.md] is
    rejected by the name matcher although its filename is an entry of
    [exact_filenames] and its stem an entry of [exact_stems]. *)
Lemma exact_match_gated_by_extension :
  let q := mkParsedQuery ["notes.md"] ["notes"] [".txt"] [] false in
  and_extensions q ≠ [] ∧
  "notes.md" ∈ exact_filenames q ∧ "notes" ∈ exact_stems q ∧
  (".md" ∉ and_extensions q) ∧
  _name_matches "notes.md" "notes" ".md" q = false.
Proof.
  simpl. split; [discriminate|]. split; [set_solver|]. split; [set_solver|].
  split; [|reflexivity].
  intros H. apply list_elem_of_singleton in H. discriminate.
Qed.

(** C1 (amended): the name matcher accepts a candidate exactly when the
    extension filter is empty or holds the candidate's extension, and then
    the filename is an exact filename, or the stem is an exact stem, or a
    non-empty token occurs in the filename.  The extension filter gates
    the exact checks as it gates the tokens. *)
Theorem name_matches_spec (filename stem ext : string) (q : ParsedQuery) :
  _name_matches filename stem ext q = true ↔
  (and_extensions q = [] ∨ folded q ext ∈ and_extensions q) ∧
  (folded q filename ∈ exact_filenames q ∨
   folded q stem ∈ exact_stems q ∨
   ∃ tok, tok ∈ tokens q ∧ tok ≠ "" ∧ contains tok (folded q filename) = true).
Proof.
  unfold _name_matches. fold (folded q filename) (folded q stem) (folded q ext).
  rewrite !in_list_guarded.
  destruct (non_empty (and_extensions q)) eqn:Hne; simpl.
  - apply non_empty_true in Hne.
    destruct (bool_decide (folded q ext ∈ and_extensions q)) eqn:Hex; simpl.
    + apply bool_decide_eq_true in Hex.
      destruct (bool_decide (folded q filename ∈ exact_filenames q)) eqn:Hf.
      { apply bool_decide_eq_true in Hf. tauto. }
      apply bool_decide_eq_false in Hf.
      destruct (bool_decide (folded q stem ∈ exact_stems q)) eqn:Hs.
      { apply bool_decide_eq_true in Hs. tauto. }
      apply bool_decide_eq_false in Hs.
      rewrite some_token_in. tauto.
    + apply bool_decide_eq_false in Hex. split; [discriminate|tauto].
  - assert (and_extensions q = []) as Hnil
      by (destruct (and_extensions q); [reflexivity|discriminate]).
    destruct (bool_decide (folded q filename ∈ exact_filenames q)) eqn:Hf.
    { apply bool_decide_eq_true in Hf. tauto. }
    apply bool_decide_eq_false in Hf.
    destruct (bool_decide (folded q stem ∈ exact_stems q)) eqn:Hs.
    { apply bool_decide_eq_true in Hs. tauto. }
    apply bool_decide_eq_false in Hs.
    rewrite some_token_in. tauto.
Qed.


Lemma is_probably_text_ok (p : Path) : ∃ b, is_probably_text p = Ok b.
Proof.
  unfold is_probably_text.
  destruct (bool_decide _); [eauto|].
  destruct (p_open_rb p); simpl; eauto.
Qed.

Lemma is_probably_text_true (p : Path) :
  is_probably_text p = Ok true ↔
  lower (p_suffix p) ∈ TEXT_EXTS ∨
  ∃ content, p_open_rb p = Ok content ∧ Byte.x00 ∉ read 1024 content.
Proof.
  unfold is_probably_text.
  destruct (bool_decide (lower (p_suffix p) ∈ TEXT_EXTS)) eqn:E.
  - apply bool_decide_eq_true in E. tauto.
  - apply bool_decide_eq_false in E.
    destruct (p_open_rb p) as [content|e]; simpl.
    + destruct (bool_decide (Byte.x00 ∈ read 1024 content)) eqn:E0; simpl.
      * apply bool_decide_eq_true in E0. split; [discriminate|].
        intros [?|(c & [= <-] & Hc)]; tauto.
      * apply bool_decide_eq_false in E0. split; [|reflexivity].
        intros _. right. eauto.
    + split; [discriminate|]. intros [?|(c & ? & _)]; [tauto|discriminate].
Qed.

Lemma _file_id_ok (p : Path) : ∃ fid, _file_id p = Ok fid.
Proof.
  unfold _file_id.
  destruct (p_stat p); simpl; [eauto|].
  destruct (p_resolved_casefold p); simpl; eauto.
Qed.

Section Matcher.

Variable utf8_decode : list Byte.byte → result string.

Lemma content_phase_Some (p : Path) (q : ParsedQuery) (ext : string)
  (cap : Z) (m : MatchResult) :
  content_phase utf8_decode p q ext cap = Ok (Some m) →
  m = mkMatchResult p ∧ is_probably_text p = Ok true ∧
  ∃ st, p_stat p = Ok st ∧ st_size st ≤ cap.
Proof.
  unfold content_phase.
  destruct (is_probably_text p) as [[|]|e]; simpl; try discriminate.
  destruct (p_stat p) as [st|e] eqn:Hst; simpl; try discriminate.
  destruct (st_size st <=? cap) eqn:Hsz; simpl; try discriminate.
  apply Z.leb_le in Hsz.
  destruct (_read_text utf8_decode p cap) as [text|e]; simpl; try discriminate.
  destruct (_content_matches text q); try discriminate.
  destruct (_ || _); try discriminate.
  intros [= <-]. eauto.
Qed.

(** Without text-likeness, or over the size cap, or when [stat] fails,
    the block under [if scan_content] finds nothing. *)
Lemma content_phase_skipped (p : Path) (q : ParsedQuery) (ext : string)
  (cap : Z) :
  is_probably_text p ≠ Ok true ∨
  (∀ st, p_stat p = Ok st → cap < st_size st) →
  try_except (content_phase utf8_decode p q ext cap) (Ok None) = Ok None.
Proof.
  intros H.
  destruct (content_phase utf8_decode p q ext cap) as [[m|]|e] eqn:E;
    try reflexivity.
  apply content_phase_Some in E as (_ & Ht & st & Hst & Hsz).
  destruct H as [H|H]; [contradiction|]. specialize (H st Hst). lia.
Qed.

(** A text that does not decode as UTF-8 is decoded as Latin-1: reading
    fails only when [stat] or [open] does. *)
Lemma _read_text_ok (p : Path) (cap : Z) (st : stat_result)
  (content : list Byte.byte) :
  p_stat p = Ok st → p_open_rb p = Ok content →
  ∃ text, _read_text utf8_decode p cap = Ok text.
Proof.
  intros Hst Hop. unfold _read_text. rewrite Hst, Hop. simpl.
  destruct (utf8_decode _); simpl; eauto.
Qed.

Lemma _evaluate_path_ok (p : Path) (q : ParsedQuery) (sc co : bool)
  (cap : Z) (eo : bool) :
  ∃ r, _evaluate_path utf8_decode p q sc co cap eo = Ok r.
Proof.
  unfold _evaluate_path.
  destruct (_ && _ && _); [eauto|].
  destruct (_ && _); [eauto|].
  destruct sc; [|eauto].
  destruct (content_phase _ _ _ _ _); simpl; eauto.
Qed.

Lemma _evaluate_path_Some (p : Path) (q : ParsedQuery) (sc co : bool)
  (cap : Z) (eo : bool) (m : MatchResult) :
  _evaluate_path utf8_decode p q sc co cap eo = Ok (Some m) → path m = p.
Proof.
  unfold _evaluate_path.
  destruct (_ && _ && _); [now intros [= <-]|].
  destruct (_ && _); [now intros [= <-]|].
  destruct sc; [|discriminate].
  destruct (content_phase _ _ _ _ _) as [[m'|]|e] eqn:E; simpl;
    try discriminate.
  intros [= <-]. now apply content_phase_Some in E as (-> & _).
Qed.

(** C6: with content scanning on, a file is accepted through its content
    only if it is probably text and its size is at most
    [max_content_size_mb] times 1024 times 1024 bytes; probably text means
    that the extension is on the allowlist or, failing that, that the
    first 1024 bytes hold no null byte; and a file over the cap, a text
    file included, is accepted exactly when it is accepted without content
    scanning. *)
Theorem content_match_needs_text_and_size
  (q : ParsedQuery) (opts : Options) (p : Path) :
  (∀ m, content_phase utf8_decode p q (lower (p_suffix p)) (max_bytes opts)
        = Ok (Some m) →
    is_probably_text p = Ok true ∧
    ∃ st, p_stat p = Ok st ∧
          st_size st ≤ max_content_size_mb opts * 1024 * 1024) ∧
  (is_probably_text p = Ok true ↔
   lower (p_suffix p) ∈ TEXT_EXTS ∨
   ∃ content, p_open_rb p = Ok content ∧ Byte.x00 ∉ read 1024 content) ∧
  (∀ st, p_stat p = Ok st →
     max_content_size_mb opts * 1024 * 1024 < st_size st →
     evaluate utf8_decode q opts true p = evaluate utf8_decode q opts false p).
Proof.
  split; [|split].
  - intros m Hm. apply content_phase_Some in Hm as (_ & Ht & st & Hst & Hsz).
    split; [assumption|]. exists st. split; [assumption|exact Hsz].
  - apply is_probably_text_true.
  - intros st Hst Hsz. unfold evaluate, _evaluate_path.
    destruct (_ && _ && _); [reflexivity|].
    destruct (_ && _); [reflexivity|].
    apply content_phase_skipped. right. intros st' Hst'.
    rewrite Hst in Hst'. injection Hst' as <-. exact Hsz.
Qed.

End Matcher.

(** The extension filter on a token match, and the extension as an
    alternative. *)
Example token_match_needs_extension :
  let q := mkParsedQuery [] [] [".txt"] ["report"] false in
  _name_matches "Report.md" "Report" ".md" q = false ∧
  _name_matches "Report.txt" "Report" ".txt" q = true.
Proof. vm_compute. split; reflexivity. Qed.

End MatcherFacts.

(* ===================================================================== *)
(** ** The traversal *)
(* ===================================================================== *)

Section TraversalFacts.
Import Utils.

Lemma dir_weight_Ok (es : list (DirEntry * Dir)) :
  dir_weight (mkDir (Ok es)) = S (entries_weight es).
Proof.
  reflexivity.
Qed.

Lemma dir_weight_pos (d : Dir) : (0 < dir_weight d)%nat.
Proof. destruct d as [[es|e]]; [rewrite dir_weight_Ok|simpl]; lia. Qed.

Section Walk.

Variable follow_symlinks : bool.
Variable max_depth : option Z.
Variable exclude_dirs : gset string.

Lemma visit_entry_push (depth : Z) (entry : DirEntry) (sub d : Dir) (k : Z) y :
  visit_entry follow_symlinks max_depth exclude_dirs depth entry sub
    = (Some (d, k), y) → d = sub.
Proof.
  unfold visit_entry.
  destruct (e_is_dir entry follow_symlinks) as [[|]|e]; simpl;
    try discriminate.
  - destruct (bool_decide _); [discriminate|].
    destruct (match max_depth with Some m => _ | None => _ end);
      [|discriminate].
    now intros [= <- _ _].
  - destruct (e_is_file entry follow_symlinks) as [[|]|e]; simpl;
      try discriminate.
    destruct follow_symlinks; simpl; [|discriminate].
    destruct (e_is_symlink entry) as [[|]|e]; simpl; discriminate.
Qed.

Lemma visit_entries_weight (depth : Z) (es : list (DirEntry * Dir))
  (stack : list (Dir * Z)) :
  (stack_weight
     (visit_entries follow_symlinks max_depth exclude_dirs depth es stack).1
   ≤ entries_weight es + stack_weight stack)%nat.
Proof.
  revert stack. induction es as [|[entry sub] es IH]; intros stack; simpl.
  - lia.
  - destruct (visit_entry _ _ _ depth entry sub) as [push y] eqn:Hv.
    destruct push as [[d k]|].
    + apply visit_entry_push in Hv as ->.
      specialize (IH ((sub, k) :: stack)).
      destruct (visit_entries _ _ _ depth es ((sub, k) :: stack)).
      simpl in *. lia.
    + specialize (IH stack).
      destruct (visit_entries _ _ _ depth es stack). simpl in *. lia.
Qed.

(** Fuel beyond the weight of the stack changes nothing: the loop has
    ended by then. *)
Lemma walk_loop_fuel (f1 f2 : nat) (stack : list (Dir * Z)) :
  (stack_weight stack ≤ f1)%nat → (stack_weight stack ≤ f2)%nat →
  walk_loop follow_symlinks max_depth exclude_dirs f1 stack
  = walk_loop follow_symlinks max_depth exclude_dirs f2 stack.
Proof.
  revert f2 stack. induction f1 as [|f1 IH]; intros f2 stack H1 H2.
  - destruct stack as [|[d k] stack]; [now destruct f2|].
    pose proof (dir_weight_pos d). simpl in H1. lia.
  - destruct f2 as [|f2].
    + destruct stack as [|[d k] stack]; [reflexivity|].
      pose proof (dir_weight_pos d). simpl in H2. lia.
    + destruct stack as [|[[[es|e]] k] stack]; [reflexivity| |].
      * change (stack_weight ((mkDir (Ok es), k) :: stack))
          with (S (entries_weight es + stack_weight stack)) in H1, H2.
        pose proof (visit_entries_weight k es stack) as Hw.
        simpl walk_loop.
        destruct (visit_entries _ _ _ k es stack) as [stack'' ys].
        simpl in Hw. f_equal. apply IH; lia.
      * simpl in H1, H2. simpl. apply IH; lia.
Qed.

Lemma walk_nil : walk follow_symlinks max_depth exclude_dirs [] = [].
Proof. reflexivity. Qed.

(** A directory that cannot be listed is popped and nothing else changes. *)
Lemma walk_unlistable (e : exn) (depth : Z) (stack : list (Dir * Z)) :
  walk follow_symlinks max_depth exclude_dirs
       ((mkDir (Raise e), depth) :: stack)
  = walk follow_symlinks max_depth exclude_dirs stack.
Proof.
  unfold walk. simpl. reflexivity.
Qed.

(** A directory that is listed yields its files, and its subdirectories
    go on the stack. *)
Lemma walk_listed (es : list (DirEntry * Dir)) (depth : Z)
  (stack : list (Dir * Z)) :
  walk follow_symlinks max_depth exclude_dirs ((mkDir (Ok es), depth) :: stack) =
  (visit_entries follow_symlinks max_depth exclude_dirs depth es stack).2
  ++ walk follow_symlinks max_depth exclude_dirs
       (visit_entries follow_symlinks max_depth exclude_dirs depth es
                      stack).1.
Proof.
  unfold walk.
  change (stack_weight ((mkDir (Ok es), depth) :: stack))
    with (S (entries_weight es + stack_weight stack)).
  pose proof (visit_entries_weight depth es stack) as Hw.
  simpl walk_loop.
  destruct (visit_entries _ _ _ depth es stack) as [stack'' ys].
  simpl in *. f_equal. apply walk_loop_fuel; lia.
Qed.

Lemma _walk_scandir_walk (root : Dir) :
  _walk_scandir root follow_symlinks max_depth exclude_dirs
  = walk follow_symlinks max_depth exclude_dirs [(root, 0)].
Proof.
  unfold _walk_scandir, walk. apply walk_loop_fuel; simpl; lia.
Qed.

End Walk.

Lemma iter_files_missing_root (r : Root) (rs : list Root) fs md ex :
  root_exists r = false →
  iter_files (r :: rs) fs md ex = iter_files rs fs md ex.
Proof. intros H. simpl. now rewrite H. Qed.

(** A walk: the missing root, the excluded directory, the directory that
    cannot be listed and the entry that cannot be examined add nothing;
    the depth limit cuts the second level. *)
Example walk_tree :
  iter_files Sample.tree false None ["node_modules"]
  = [Sample.alpha; Sample.beta; Sample.alias] ∧
  iter_files Sample.tree false (Some 1) ["node_modules"]
  = [Sample.alpha; Sample.beta] ∧
  iter_files Sample.tree false (Some 0) []
  = [Sample.alpha].
Proof. vm_compute. repeat split. Qed.

End TraversalFacts.

(* ===================================================================== *)
(** ** The coordinator *)
(* ===================================================================== *)

Section CoordinatorFacts.
Import PyStr Query Utils Search.

Lemma _file_id_fid_of (p : Path) : _file_id p = Ok (fid_of p).
Proof.
  unfold _file_id, fid_of.
  destruct (p_stat p); simpl; [reflexivity|].
  now destruct (p_resolved_casefold p).
Qed.

Variable utf8_decode : list Byte.byte → result string.
Variable monotonic : nat → Z.
Variable as_completed : nat → list Future → list Future.
Variable query : ParsedQuery.
Variable opts : Options.

Lemma coord_inv_initial (start : Z) : coord_inv opts (initial opts start).
Proof.
  split; unfold emissions; simpl.
  - destruct (stream_callback opts); reflexivity.
  - destruct (stream_callback opts); constructor.
  - destruct (stream_callback opts); reflexivity.
  - destruct (stream_callback opts); reflexivity.
  - discriminate.
  - intros _. unfold cap. lia.
  - discriminate.
  - intros ->. split; [reflexivity|discriminate].
Qed.

(** Reading the clock, and noting a timeout while the search runs, keep
    the invariant. *)
Lemma coord_inv_tick (c : Coord) : coord_inv opts c → coord_inv opts (tick c).
Proof. intros [? ? ? ? ? ? ? ?]. split; assumption. Qed.

Lemma coord_inv_next_drain (c : Coord) :
  coord_inv opts c → coord_inv opts (next_drain c).
Proof. intros [? ? ? ? ? ? ? ?]. split; assumption. Qed.

Lemma timed_out_frame (c : Coord) :
  let c' := (timed_out monotonic c).2 in
  results c' = results c ∧ delivered c' = delivered c ∧
  seen_ids c' = seen_ids c ∧ emitted_count c' = emitted_count c ∧
  cur_reason c' = cur_reason c ∧ stop_event c' = stop_event c ∧
  idle_deadline c' = idle_deadline c ∧ last_emit_time c' = last_emit_time c ∧
  drains c' = drains c.
Proof. unfold timed_out. destruct (idle_deadline c) eqn:E; simpl; auto 10. Qed.

Lemma coord_inv_timed_out (c : Coord) :
  coord_inv opts c → coord_inv opts (timed_out monotonic c).2.
Proof.
  unfold timed_out. destruct (idle_deadline c); simpl; [|auto].
  apply coord_inv_tick.
Qed.

Lemma coord_inv_note_timeout (c : Coord) :
  stop_event c = false → coord_inv opts c →
  coord_inv opts (note_timeout monotonic c) ∧
  stop_event (note_timeout monotonic c) = false ∧
  seen_ids (note_timeout monotonic c) = seen_ids c ∧
  (cur_reason (note_timeout monotonic c) = cur_reason c ∨
   cur_reason (note_timeout monotonic c) = idle_timeout).
Proof.
  intros Hs Hc. unfold note_timeout.
  pose proof (timed_out_frame c) as (_ & _ & Hseen & _ & Hr & Hst & Hd & _).
  pose proof (coord_inv_timed_out c Hc) as Hc'.
  assert ((timed_out monotonic c).1 = true → idle_deadline c ≠ None) as Hlate.
  { unfold timed_out. destruct (idle_deadline c); simpl; congruence. }
  destruct (timed_out monotonic c) as [late c']. simpl in *.
  destruct late; [|rewrite Hst; auto].
  destruct Hc' as [? ? ? ? H5 H6 H7 H8]. rewrite Hs in Hst.
  split; [|simpl; auto].
  split; simpl; try assumption.
  - rewrite Hst. discriminate.
  - discriminate.
  - intros He. destruct (H8 He) as [Hn _]. rewrite Hd in Hn.
    now specialize (Hlate eq_refl).
Qed.


(** *** [maybe_emit] *)

Lemma maybe_emit_seen (p : Path) (c : Coord) :
  fid_of p ∈ seen_ids c → maybe_emit monotonic opts p c = Ok (true, c).
Proof.
  intros H. unfold maybe_emit. rewrite _file_id_fid_of. simpl.
  now rewrite bool_decide_eq_true_2.
Qed.

Lemma maybe_emit_fresh (p : Path) (c : Coord) :
  fid_of p ∉ seen_ids c →
  maybe_emit monotonic opts p c =
  Ok (if cap opts <=? emitted_count c + 1
      then (false, set_stop_event
                     (set_reason limit_reached (emitted_state monotonic opts p c)))
      else (true, emitted_state monotonic opts p c)).
Proof.
  intros H. unfold maybe_emit. rewrite _file_id_fid_of. simpl.
  rewrite bool_decide_eq_false_2 by assumption.
  fold (emitted_state monotonic opts p c). fold (cap opts).
  replace (emitted_count (emitted_state monotonic opts p c))
    with (emitted_count c + 1)
    by reflexivity.
  now destruct (cap opts <=? emitted_count c + 1).
Qed.

Lemma emitted_state_emissions (p : Path) (c : Coord) :
  coord_inv opts c →
  emissions opts (emitted_state monotonic opts p c) = emissions opts c ++ [p].
Proof.
  intros Hc. unfold emissions, emitted_state. simpl.
  destruct (stream_callback opts); [reflexivity|].
  now rewrite fmap_app.
Qed.

Lemma coord_inv_emitted (p : Path) (c : Coord) :
  fid_of p ∉ seen_ids c → coord_inv opts c → stop_event c = false →
  let c1 := emitted_state monotonic opts p c in
  let c' := if cap opts <=? emitted_count c + 1
            then set_stop_event (set_reason limit_reached c1) else c1 in
  coord_inv opts c' ∧
  emissions opts c' = emissions opts c ++ [p] ∧
  seen_ids c' = {[ fid_of p ]} ∪ seen_ids c ∧
  stop_event c' = (cap opts <=? emitted_count c + 1) ∧
  (stop_event c' = false → cur_reason c' = cur_reason c) ∧
  drains c' = drains c.
Proof.
  intros Hfresh Hc Hrun c1 c'.
  pose proof (emitted_state_emissions p c Hc) as Hem. fold c1 in Hem.
  assert (emissions opts c' = emissions opts c ++ [p]) as Hem'.
  { subst c'. destruct (cap opts <=? _); [|exact Hem]. exact Hem. }
  assert (seen_ids c' = {[ fid_of p ]} ∪ seen_ids c) as Hseen.
  { subst c'. destruct (cap opts <=? _); reflexivity. }
  assert (emitted_count c' = emitted_count c + 1) as Hcnt.
  { subst c'. destruct (cap opts <=? _); reflexivity. }
  assert (stop_event c' = (cap opts <=? emitted_count c + 1)) as Hstop.
  { subst c'. destruct (cap opts <=? _); [reflexivity|]. exact Hrun. }
  assert (if stream_callback opts then results c' = [] else delivered c' = [])
    as Hch.
  { pose proof (inv_channel opts c Hc) as H. subst c' c1. unfold emitted_state.
    destruct (cap opts <=? _); simpl; destruct (stream_callback opts); exact H. }
  destruct Hc as [H1 H2 H3 H4 H5 H6 H7 H8]. specialize (H6 Hrun).
  split; [split|].
  - rewrite Hseen, Hem', fmap_app, list_to_set_app_L, H1. simpl. set_solver.
  - rewrite Hem', fmap_app. apply NoDup_app. split; [assumption|]. split.
    + intros x Hx Hx'. apply list_elem_of_singleton in Hx' as ->.
      apply Hfresh. rewrite H1. now apply elem_of_list_to_set.
    + simpl. apply NoDup_singleton.
  - rewrite Hcnt, Hem', length_app, H3. simpl. lia.
  - exact Hch.
  - rewrite Hstop, Hcnt. intros Hle.
    split; [|apply Z.leb_le in Hle; lia]. subst c'. rewrite Hle. reflexivity.
  - rewrite Hstop, Hcnt. intros Hle. apply Z.leb_gt in Hle. lia.
  - subst c'. destruct (cap opts <=? emitted_count c + 1) eqn:E; [reflexivity|].
    subst c1. unfold emitted_state. simpl. intros Hr.
    rewrite (H7 Hr) in Hrun. discriminate.
  - intros He. destruct (H8 He) as [Hn Hr]. subst c' c1.
    unfold emitted_state, reset_idle_timer. simpl. rewrite He.
    destruct (cap opts <=? emitted_count c + 1); simpl;
      (split; [exact Hn|]); [discriminate|exact Hr].
  - repeat split; try assumption.
    + subst c'. destruct (cap opts <=? emitted_count c + 1) eqn:E;
        [discriminate|]. reflexivity.
    + subst c'. destruct (cap opts <=? _); reflexivity.
Qed.


Lemma maybe_emit_spec (p : Path) (c : Coord) :
  coord_inv opts c → stop_event c = false →
  ∃ c', maybe_emit monotonic opts p c = Ok (negb (stop_event c'), c') ∧
    coord_inv opts c' ∧ seen_ids c' = {[ fid_of p ]} ∪ seen_ids c ∧
    (stop_event c' = false → cur_reason c' = cur_reason c) ∧
    drains c' = drains c.
Proof.
  intros Hc Hrun. destruct (decide (fid_of p ∈ seen_ids c)) as [Hin|Hfresh].
  - exists c. rewrite (maybe_emit_seen p c Hin), Hrun. simpl.
    split; [reflexivity|]. split; [assumption|]. split; [set_solver|].
    split; reflexivity.
  - rewrite (maybe_emit_fresh p c Hfresh).
    destruct (coord_inv_emitted p c Hfresh Hc Hrun)
      as (Hc' & _ & Hseen & Hstop & Hr & Hd).
    destruct (cap opts <=? emitted_count c + 1) eqn:E; eexists;
      (split; [rewrite Hstop; reflexivity|]); auto.
Qed.

(** *** The loops *)

Lemma pend_cons (f : Future) (futs : list Future) :
  pend (f :: futs) =
  match fut_id f with Some i => {[ i ]} ∪ pend futs | None => pend futs end.
Proof. unfold pend. simpl. now destruct (fut_id f). Qed.

Lemma pend_app (l1 l2 : list Future) : pend (l1 ++ l2) = pend l1 ∪ pend l2.
Proof. unfold pend. now rewrite omap_app, list_to_set_app_L. Qed.

Lemma pend_perm (l1 l2 : list Future) : l1 ≡ₚ l2 → pend l1 = pend l2.
Proof. intros H. unfold pend. now rewrite H. Qed.

Lemma evaluate_returns (sc : bool) (p : Path) :
  returns (evaluate utf8_decode query opts sc p).
Proof. apply _evaluate_path_ok. Qed.

Lemma drain_spec (in_batch : bool) (futs : list Future) (c : Coord) :
  Forall returns futs → coord_inv opts c →
  ∃ c', drain monotonic opts in_batch futs c = Ok c' ∧ coord_inv opts c' ∧
    seen_ids c ⊆ seen_ids c' ∧ drains c' = drains c ∧
    (stop_event c = true → c' = c) ∧
    (stop_event c' = false →
       cur_reason c' = cur_reason c ∧
       (in_batch = false ∨ cur_reason c ≠ idle_timeout →
        pend futs ⊆ seen_ids c')).
Proof.
  intros Hf. revert c. induction Hf as [|fut futs [r ->] Hf IH]; intros c Hc.
  { exists c. simpl. split_and!; auto. intros _. split; [reflexivity|].
    intros _. apply empty_subseteq. }
  simpl.
  destruct (stop_event c) eqn:Hrun; simpl.
  { exists c. rewrite Hrun. split_and!; auto; discriminate. }
  destruct (in_batch && bool_decide (cur_reason c = idle_timeout)) eqn:Hb.
  { exists c. apply andb_true_iff in Hb as [-> Hb].
    apply bool_decide_eq_true in Hb.
    split_and!; auto; try discriminate. intros _. split; [reflexivity|].
    intros [?|?]; [discriminate|tauto]. }
  assert (in_batch = false ∨ cur_reason c ≠ idle_timeout) as Hgo.
  { destruct in_batch; [right|now left]. simpl in Hb.
    now apply bool_decide_eq_false in Hb. }
  destruct r as [m|].
  - destruct (maybe_emit_spec (path m) c Hc Hrun)
      as (c1 & -> & Hc1 & Hseen1 & Hr1 & Hd1). simpl.
    destruct (stop_event c1) eqn:Hrun1; simpl.
    + exists c1. rewrite Hrun1. split_and!; auto; try discriminate.
      rewrite Hseen1. set_solver.
    + destruct (IH c1 Hc1) as (c' & -> & Hc' & Hsub & Hd & _ & Hpost).
      exists c'. split; [reflexivity|]. split; [assumption|].
      split; [rewrite Hseen1 in Hsub; set_solver|].
      split; [congruence|]. split; [discriminate|].
      intros Hrun'. destruct (Hpost Hrun') as [Hr Hp].
      rewrite (Hr1 eq_refl) in Hr, Hp. split; [assumption|].
      intros Hgo'. specialize (Hp Hgo'). rewrite pend_cons. simpl.
      rewrite Hseen1 in Hsub. set_solver.
  - destruct (IH c Hc) as (c' & -> & Hc' & Hsub & Hd & _ & Hpost).
    exists c'. split_and!; auto; try discriminate; intros Hrun';
      destruct (Hpost Hrun') as [Hr Hp]; auto.
Qed.

Lemma timed_out_again (c : Coord) :
  clock_monotone monotonic → (timed_out monotonic c).1 = true →
  cur_reason (note_timeout monotonic (timed_out monotonic c).2) = idle_timeout.
Proof.
  intros Hm. unfold note_timeout, timed_out.
  destruct (idle_deadline c) as [d|] eqn:Hd; simpl; [|discriminate].
  rewrite Hd. simpl. intros Hlate. apply Z.leb_le in Hlate.
  specialize (Hm (clock c)).
  assert ((d <=? monotonic (S (clock c))) = true) as ->
    by (apply Z.leb_le; lia).
  reflexivity.
Qed.

(** The state at the head of a loop iteration, after the test
    [stop_event.is_set() or timed_out()]. *)
Lemma loop_head (c : Coord) :
  coord_inv opts c → stop_event c = false →
  let '(halt, c1) := stop_or_timed_out monotonic c in
  coord_inv opts c1 ∧ stop_event c1 = false ∧ seen_ids c1 = seen_ids c ∧
  cur_reason c1 = cur_reason c ∧ drains c1 = drains c ∧
  (halt = true → clock_monotone monotonic →
   cur_reason (note_timeout monotonic c1) = idle_timeout).
Proof.
  intros Hc Hrun. unfold stop_or_timed_out. rewrite Hrun.
  pose proof (timed_out_frame c) as (_ & _ & Hseen & _ & Hr & Hst & _ & _ & Hd).
  pose proof (coord_inv_timed_out c Hc) as Hc1.
  pose proof (timed_out_again c) as Hagain.
  destruct (timed_out monotonic c) as [halt c1]. simpl in *.
  split_and!; auto; congruence.
Qed.

Lemma inline_loop_spec (cands : list Path) (c : Coord) :
  coord_inv opts c → stop_event c = false →
  ∃ c', inline_loop utf8_decode monotonic query opts cands c = Ok c' ∧
    coord_inv opts c' ∧ seen_ids c ⊆ seen_ids c' ∧
    (clock_monotone monotonic → stop_event c' = false →
     cur_reason c' ≠ idle_timeout →
     cur_reason c' = cur_reason c ∧
     pend (evaluate utf8_decode query opts false <$> cands) ⊆ seen_ids c').
Proof.
  revert c. induction cands as [|p cands IH]; intros c Hc Hrun.
  { exists c. simpl. split_and!; auto. intros _ _ _. split; [reflexivity|].
    apply empty_subseteq. }
  simpl. pose proof (loop_head c Hc Hrun) as Hhead.
  destruct (stop_or_timed_out monotonic c) as [halt c1].
  destruct Hhead as (Hc1 & Hrun1 & Hseen1 & Hr1 & _ & Hlate).
  destruct halt.
  { destruct (coord_inv_note_timeout c1 Hrun1 Hc1) as (Hn & _ & Hns & _).
    eexists. split; [reflexivity|]. split; [assumption|].
    split; [rewrite Hns, Hseen1; reflexivity|].
    intros Hm _ Hidle. now specialize (Hlate eq_refl Hm). }
  rewrite pend_cons.
  change (list_fmap Path Future (evaluate utf8_decode query opts false) cands)
    with (evaluate utf8_decode query opts false <$> cands).
  destruct (evaluate_returns false p) as [r ->]. simpl.
  destruct r as [m|]; simpl.
  - destruct (maybe_emit_spec (path m) c1 Hc1 Hrun1)
      as (c2 & -> & Hc2 & Hseen2 & Hr2 & _). simpl.
    destruct (stop_event c2) eqn:Hrun2; simpl.
    + exists c2. split; [reflexivity|]. split; [assumption|].
      split; [rewrite Hseen2, Hseen1; set_solver|].
      intros _ Hx. rewrite Hrun2 in Hx. discriminate.
    + destruct (IH c2 Hc2 Hrun2) as (c' & -> & Hc' & Hsub & Hpost).
      exists c'. split; [reflexivity|]. split; [assumption|].
      rewrite Hseen2, Hseen1 in Hsub.
      split; [set_solver|].
      intros Hm Hrun' Hidle. destruct (Hpost Hm Hrun' Hidle) as [Hr Hp].
      split; [rewrite Hr, (Hr2 eq_refl); exact Hr1|]. set_solver.
  - destruct (IH c1 Hc1 Hrun1) as (c' & -> & Hc' & Hsub & Hpost).
    exists c'. split; [reflexivity|]. split; [assumption|].
    rewrite Hseen1 in Hsub. split; [assumption|].
    intros Hm Hrun' Hidle. destruct (Hpost Hm Hrun' Hidle) as [Hr Hp].
    split; [congruence|assumption].
Qed.

Lemma submit_loop_spec (cands : list Path) (futures : list Future) (c : Coord) :
  fair_completion as_completed →
  Forall returns futures → coord_inv opts c → stop_event c = false →
  ∃ futs' c',
    submit_loop utf8_decode monotonic as_completed query opts cands futures c
      = Ok (futs', c') ∧
    Forall returns futs' ∧ coord_inv opts c' ∧ seen_ids c ⊆ seen_ids c' ∧
    (clock_monotone monotonic → stop_event c' = false →
     cur_reason c' ≠ idle_timeout →
     cur_reason c' = cur_reason c ∧
     pend (evaluate utf8_decode query opts true <$> cands) ∪ pend futures
       ⊆ seen_ids c' ∪ pend futs').
Proof.
  intros Hfair. revert futures c.
  induction cands as [|p cands IH]; intros futures c Hfut Hc Hrun.
  { exists futures, c. simpl. split_and!; auto. intros _ _ _.
    split; [reflexivity|]. unfold pend at 1. simpl. set_solver. }
  simpl. pose proof (loop_head c Hc Hrun) as Hhead.
  destruct (stop_or_timed_out monotonic c) as [halt c1].
  destruct Hhead as (Hc1 & Hrun1 & Hseen1 & Hr1 & _ & Hlate).
  destruct halt.
  { destruct (coord_inv_note_timeout c1 Hrun1 Hc1) as (Hn & _ & Hns & _).
    do 2 eexists. split; [reflexivity|]. split; [assumption|].
    split; [assumption|]. split; [rewrite Hns, Hseen1; reflexivity|].
    intros Hm _ Hidle. now specialize (Hlate eq_refl Hm). }
  rewrite pend_cons.
  change (list_fmap Path Future (evaluate utf8_decode query opts true) cands)
    with (evaluate utf8_decode query opts true <$> cands).
  set (fut := evaluate utf8_decode query opts true p).
  assert (Forall returns (futures ++ [fut])) as Hfut1.
  { apply Forall_app. split; [assumption|].
    constructor; [apply evaluate_returns|constructor]. }
  assert (pend (futures ++ [fut]) =
          match fut_id fut with
          | Some i => {[ i ]} ∪ pend futures
          | None => pend futures
          end) as Hpend1.
  { rewrite pend_app, pend_cons. unfold pend at 2 3. simpl.
    destruct (fut_id fut); set_solver. }
  (* the test on the size of the batch and the clock *)
  assert (∃ full c2,
    (if bool_decide (BATCH ≤ length (futures ++ [fut]))%nat then (true, c1)
     else timed_out monotonic c1) = (full, c2) ∧
    coord_inv opts c2 ∧ stop_event c2 = false ∧ seen_ids c2 = seen_ids c1 ∧
    cur_reason c2 = cur_reason c1)
    as (full & c2 & -> & Hc2 & Hrun2 & Hseen2 & Hr2).
  { destruct (bool_decide _); [exists true, c1; auto|].
    pose proof (timed_out_frame c1) as (_ & _ & Hs & _ & Hr & Hst & _).
    pose proof (coord_inv_timed_out c1 Hc1) as Hi.
    destruct (timed_out monotonic c1) as [full c2]. simpl in *.
    exists full, c2. split_and!; auto; congruence. }
  destruct full.
  - destruct (coord_inv_note_timeout c2 Hrun2 Hc2)
      as (Hc3 & Hrun3 & Hseen3 & Hr3).
    set (c3 := note_timeout monotonic c2) in *.
    assert (Forall returns (as_completed (drains c3) (futures ++ [fut])))
      as Hfut2 by (rewrite (Hfair _ _); exact Hfut1).
    destruct (drain_spec true _ (next_drain c3) Hfut2
                (coord_inv_next_drain c3 Hc3))
      as (c4 & -> & Hc4 & Hsub4 & _ & _ & Hpost4). simpl.
    destruct (stop_event c4) eqn:Hrun4; simpl.
    { exists [], c4. split; [reflexivity|]. split; [constructor|].
      split; [assumption|]. split.
      - simpl in Hsub4. rewrite Hseen3, Hseen2, Hseen1 in Hsub4. exact Hsub4.
      - intros _ Hx. rewrite Hrun4 in Hx. discriminate. }
    destruct (bool_decide (cur_reason c4 = idle_timeout)) eqn:Hidle4.
    { apply bool_decide_eq_true in Hidle4.
      exists [], c4. split; [reflexivity|]. split; [constructor|].
      split; [assumption|]. split.
      - simpl in Hsub4. rewrite Hseen3, Hseen2, Hseen1 in Hsub4. exact Hsub4.
      - intros _ _ Hx. contradiction. }
    apply bool_decide_eq_false in Hidle4.
    destruct (Hpost4 eq_refl) as [Hr4 Hp4]. simpl in Hr4, Hsub4.
    rewrite Hr4 in Hidle4. specialize (Hp4 (or_intror Hidle4)).
    rewrite (pend_perm _ _ (Hfair _ _)), Hpend1 in Hp4.
    destruct (IH [] c4 (List.Forall_nil _) Hc4 Hrun4)
      as (futs' & c' & -> & Hfut' & Hc' & Hsub' & Hpost').
    exists futs', c'. split; [reflexivity|]. split; [assumption|].
    split; [assumption|].
    rewrite Hseen3, Hseen2, Hseen1 in Hsub4.
    split; [set_solver|].
    intros Hm Hrun' Hidle'. destruct (Hpost' Hm Hrun' Hidle') as [Hr' Hp'].
    split.
    + rewrite Hr', Hr4. destruct Hr3 as [Hr3|Hr3]; [congruence|contradiction].
    + unfold pend at 2 in Hp'. simpl in Hp'.
      destruct (fut_id fut); set_solver.
  - destruct (IH (futures ++ [fut]) c2 Hfut1 Hc2 Hrun2)
      as (futs' & c' & -> & Hfut' & Hc' & Hsub' & Hpost').
    exists futs', c'. split; [reflexivity|]. split; [assumption|].
    split; [assumption|]. rewrite Hseen2, Hseen1 in Hsub'.
    split; [assumption|].
    intros Hm Hrun' Hidle'. destruct (Hpost' Hm Hrun' Hidle') as [Hr' Hp'].
    split; [congruence|]. rewrite Hpend1 in Hp'.
    destruct (fut_id fut); set_solver.
Qed.

(** *** Where the emitted paths come from *)

Lemma emissions_frame (c c' : Coord) :
  results c' = results c → delivered c' = delivered c →
  emissions opts c' = emissions opts c.
Proof. intros H1 H2. unfold emissions. now rewrite H1, H2. Qed.

Lemma emissions_timed_out (c : Coord) :
  emissions opts (timed_out monotonic c).2 = emissions opts c.
Proof.
  pose proof (timed_out_frame c) as (H1 & H2 & _).
  now apply emissions_frame.
Qed.

Lemma emissions_note_timeout (c : Coord) :
  emissions opts (note_timeout monotonic c) = emissions opts c.
Proof.
  unfold note_timeout. pose proof (emissions_timed_out c) as H.
  destruct (timed_out monotonic c) as [[|] c']; exact H.
Qed.

Lemma emissions_stop_or_timed_out (c : Coord) :
  emissions opts (stop_or_timed_out monotonic c).2 = emissions opts c.
Proof.
  unfold stop_or_timed_out. destruct (stop_event c); [reflexivity|].
  apply emissions_timed_out.
Qed.

Lemma maybe_emit_origin (p : Path) (c c' : Coord) (b : bool) :
  maybe_emit monotonic opts p c = Ok (b, c') →
  ∃ extra, emissions opts c' = emissions opts c ++ extra ∧ extra ⊆ [p].
Proof.
  destruct (decide (fid_of p ∈ seen_ids c)) as [Hin|Hfresh].
  - rewrite (maybe_emit_seen p c Hin). intros [= <- <-].
    exists []. rewrite app_nil_r. split; [reflexivity|set_solver].
  - rewrite (maybe_emit_fresh p c Hfresh).
    assert (emissions opts (emitted_state monotonic opts p c)
            = emissions opts c ++ [p]) as He.
    { unfold emissions, emitted_state. simpl.
      destruct (stream_callback opts); [reflexivity|]. now rewrite fmap_app. }
    destruct (cap opts <=? emitted_count c + 1); intros [= <- <-];
      exists [p]; (split; [exact He|reflexivity]).
Qed.

Lemma drain_origin (in_batch : bool) (futs : list Future) (c c' : Coord) :
  drain monotonic opts in_batch futs c = Ok c' →
  ∃ extra, emissions opts c' = emissions opts c ++ extra ∧
           extra ⊆ omap fut_path futs.
Proof.
  revert c. induction futs as [|fut futs IH]; intros c; simpl.
  { intros [= <-]. exists []. now rewrite app_nil_r. }
  destruct (_ || _).
  { intros [= <-]. exists []. rewrite app_nil_r. split; [reflexivity|].
    apply list_subseteq_nil. }
  destruct fut as [[m|]|e]; simpl; [| |discriminate].
  - destruct (maybe_emit monotonic opts (path m) c) as [[b c1]|e] eqn:E;
      simpl; [|discriminate].
    destruct (maybe_emit_origin _ _ _ _ E) as (x1 & He1 & Hx1).
    destruct b.
    + intros H. destruct (IH _ H) as (x2 & He2 & Hx2).
      exists (x1 ++ x2). rewrite He2, He1, app_assoc.
      split; [reflexivity|]. set_solver.
    + intros [= <-]. exists x1. split; [exact He1|]. set_solver.
  - intros H. destruct (IH _ H) as (x & He & Hx). eauto.
Qed.

Lemma inline_loop_origin (cands : list Path) (c c' : Coord) :
  inline_loop utf8_decode monotonic query opts cands c = Ok c' →
  ∃ extra, emissions opts c' = emissions opts c ++ extra ∧
           extra ⊆ accepted utf8_decode query opts false cands.
Proof.
  revert c. induction cands as [|p cands IH]; intros c; simpl.
  { intros [= <-]. exists []. now rewrite app_nil_r. }
  pose proof (emissions_stop_or_timed_out c) as H0.
  destruct (stop_or_timed_out monotonic c) as [[|] c0]; simpl in H0.
  { intros [= <-]. exists []. rewrite app_nil_r, emissions_note_timeout.
    split; [exact H0|apply list_subseteq_nil]. }
  unfold accepted. rewrite fmap_cons. simpl omap.
  destruct (evaluate utf8_decode query opts false p) as [[m|]|e]; simpl;
    [| |discriminate].
  - destruct (maybe_emit monotonic opts (path m) c0) as [[b c1]|e] eqn:E;
      simpl; [|discriminate].
    destruct (maybe_emit_origin _ _ _ _ E) as (x1 & He1 & Hx1).
    rewrite H0 in He1. destruct b.
    + intros H. destruct (IH _ H) as (x2 & He2 & Hx2).
      exists (x1 ++ x2). rewrite He2, He1, app_assoc.
      split; [reflexivity|]. unfold accepted in Hx2. set_solver.
    + intros [= <-]. exists x1. split; [exact He1|]. set_solver.
  - intros H. destruct (IH _ H) as (x & He & Hx). rewrite H0 in He. eauto.
Qed.

Lemma submit_loop_origin (cands : list Path) (futures futs' : list Future)
  (c c' : Coord) :
  fair_completion as_completed →
  submit_loop utf8_decode monotonic as_completed query opts cands futures c
    = Ok (futs', c') →
  ∃ extra, emissions opts c' = emissions opts c ++ extra ∧
    extra ⊆ omap fut_path futures ++ accepted utf8_decode query opts true cands ∧
    omap fut_path futs'
      ⊆ omap fut_path futures ++ accepted utf8_decode query opts true cands.
Proof.
  intros Hfair. revert futures c.
  induction cands as [|p cands IH]; intros futures c; simpl.
  { intros [= <- <-]. exists []. rewrite app_nil_r.
    split; [reflexivity|]. split; [apply list_subseteq_nil|set_solver]. }
  pose proof (emissions_stop_or_timed_out c) as H0.
  destruct (stop_or_timed_out monotonic c) as [[|] c0]; simpl in H0.
  { intros [= <- <-]. exists []. rewrite app_nil_r, emissions_note_timeout.
    split; [exact H0|]. split; [apply list_subseteq_nil|set_solver]. }
  unfold accepted. rewrite fmap_cons.
  fold (accepted utf8_decode query opts true cands).
  set (fut := evaluate utf8_decode query opts true p).
  assert (omap fut_path (futures ++ [fut]) ++
            accepted utf8_decode query opts true cands
          ⊆ omap fut_path futures ++
            omap fut_path
              (fut :: (evaluate utf8_decode query opts true <$> cands)))
    as Hsub.
  { rewrite omap_app. unfold accepted. simpl.
    destruct (fut_path fut); set_solver. }
  assert (∃ full c1,
    (if bool_decide (BATCH ≤ length (futures ++ [fut]))%nat then (true, c0)
     else timed_out monotonic c0) = (full, c1) ∧
    emissions opts c1 = emissions opts c0) as (full & c1 & -> & H1).
  { destruct (bool_decide _); [eauto|].
    pose proof (emissions_timed_out c0) as H.
    destruct (timed_out monotonic c0) as [full c1]. eauto. }
  destruct full.
  - set (c2 := note_timeout monotonic c1).
    destruct (drain monotonic opts true _ (next_drain c2)) as [c3|e] eqn:E;
      simpl; [|discriminate].
    destruct (drain_origin _ _ _ _ E) as (x1 & He1 & Hx1).
    rewrite (Hfair _ _) in Hx1.
    assert (emissions opts (next_drain c2) = emissions opts c) as H2.
    { transitivity (emissions opts c2); [now apply emissions_frame|].
      unfold c2. rewrite emissions_note_timeout. congruence. }
    rewrite H2 in He1.
    destruct (_ || _).
    + intros [= <- <-]. exists x1. split; [exact He1|].
      split; [|set_solver]. set_solver.
    + intros H. destruct (IH _ _ H) as (x2 & He2 & Hx2 & Hf2).
      exists (x1 ++ x2). rewrite He2, He1, app_assoc.
      split; [reflexivity|]. simpl in Hx2, Hf2. split; set_solver.
  - intros H. destruct (IH _ _ H) as (x & He & Hx & Hf).
    rewrite H1, H0 in He. exists x. split; [exact He|]. split; set_solver.
Qed.

Lemma accepted_elem (sc : bool) (cands : list Path) (p : Path) :
  p ∈ accepted utf8_decode query opts sc cands →
  p ∈ cands ∧
  evaluate utf8_decode query opts sc p = Ok (Some (mkMatchResult p)).
Proof.
  unfold accepted. rewrite list_elem_of_omap.
  intros (fut & Hfut & Hp). apply list_elem_of_fmap in Hfut as (q & -> & Hq).
  destruct (evaluate utf8_decode query opts sc q) as [[[p']|]|e] eqn:E;
    simpl in Hp; try discriminate.
  injection Hp as ->.
  pose proof (_evaluate_path_Some utf8_decode _ _ _ _ _ _ _ E) as Hpath.
  simpl in Hpath. subst q. auto.
Qed.

(** *** The whole call *)

Lemma emissions_initial (start : Z) : emissions opts (initial opts start) = [].
Proof. unfold emissions. simpl. now destruct (stream_callback opts). Qed.

Lemma search_final (roots : list Root) :
  fair_completion as_completed →
  ∃ c, search utf8_decode monotonic as_completed query opts roots
         = Ok (outcome_of monotonic c) ∧
    coord_inv opts c ∧
    (clock_monotone monotonic → stop_event c = false →
     cur_reason c ≠ idle_timeout →
     cur_reason c = complete ∧
     pend (evaluate utf8_decode query opts (scan_content opts)
             <$> candidates opts roots) ⊆ seen_ids c) ∧
    emissions opts c
      ⊆ accepted utf8_decode query opts (scan_content opts)
                 (candidates opts roots).
Proof.
  intros Hfair. unfold search. fold (candidates opts roots).
  pose proof (coord_inv_initial (monotonic O)) as H0.
  pose proof (emissions_initial (monotonic O)) as He0.
  assert (stop_event (initial opts (monotonic O)) = false) as Hrun0
    by reflexivity.
  destruct (scan_content opts) eqn:Hsc; simpl.
  - destruct (submit_loop_spec (candidates opts roots) [] _ Hfair
                (List.Forall_nil _) H0 Hrun0)
      as (futs & c1 & Hloop1 & Hfut & Hc1 & _ & Hpost1).
    destruct (submit_loop_origin _ _ _ _ _ Hfair Hloop1)
      as (x1 & Hx1 & Hsub1 & Hf1).
    rewrite Hloop1. simpl.
    assert (Forall returns (as_completed (drains c1) futs)) as Hfut'
      by (rewrite (Hfair _ _); exact Hfut).
    destruct (drain_spec false _ (next_drain c1) Hfut'
                (coord_inv_next_drain c1 Hc1))
      as (c2 & Hloop2 & Hc2 & Hsub2 & _ & Hstay & Hpost2).
    destruct (drain_origin _ _ _ _ Hloop2) as (x2 & Hx2 & Hs2).
    rewrite (Hfair _ _) in Hs2.
    rewrite Hloop2. simpl.
    exists c2. split; [reflexivity|]. split; [assumption|]. split.
    + intros Hm Hrun2 Hidle2.
      destruct (Hpost2 Hrun2) as [Hr2 Hp2]. simpl in Hr2, Hsub2.
      specialize (Hp2 (or_introl eq_refl)).
      rewrite (pend_perm _ _ (Hfair _ _)) in Hp2.
      assert (stop_event c1 = false) as Hrun1.
      { destruct (stop_event c1) eqn:E; [|reflexivity].
        specialize (Hstay E). subst c2. simpl in Hrun2. congruence. }
      rewrite Hr2 in Hidle2.
      destruct (Hpost1 Hm Hrun1 Hidle2) as [Hr1 Hp1].
      split; [rewrite Hr2, Hr1; reflexivity|].
      unfold pend at 2 in Hp1. simpl in Hp1. set_solver.
    + assert (emissions opts (next_drain c1) = emissions opts c1) as Hnd
        by now apply emissions_frame.
      rewrite Hx2, Hnd, Hx1, He0. simpl in Hsub1, Hf1. set_solver.
  - destruct (inline_loop_spec (candidates opts roots) _ H0 Hrun0)
      as (c1 & Hloop1 & Hc1 & _ & Hpost1).
    destruct (inline_loop_origin _ _ _ Hloop1) as (x1 & Hx1 & Hsub1).
    rewrite Hloop1. simpl.
    exists c1. split; [reflexivity|]. split; [assumption|]. split.
    + intros Hm Hrun1 Hidle1. destruct (Hpost1 Hm Hrun1 Hidle1) as [Hr Hp].
      split; [rewrite Hr; reflexivity|assumption].
    + rewrite Hx1, He0. exact Hsub1.
Qed.

Lemma emitted_paths_outcome (c : Coord) :
  coord_inv opts c → emitted_paths (outcome_of monotonic c) = emissions opts c.
Proof.
  intros Hc. pose proof (inv_channel opts c Hc) as H.
  unfold emitted_paths, outcome_of, emissions. simpl.
  destruct (stream_callback opts); rewrite H; simpl;
    [apply app_nil_r | reflexivity].
Qed.

Lemma seen_size (c : Coord) :
  coord_inv opts c → Z.of_nat (size (seen_ids c)) = emitted_count c.
Proof.
  intros [H1 H2 H3 _ _ _ _ _].
  rewrite H1, size_list_to_set, H3, length_fmap by assumption. reflexivity.
Qed.

(** The statistics of every call: the wall time is the last reading of
    the clock minus the first, and the idle time is zero unless the reason
    is [idle_timeout]. *)
Lemma search_stats_shape (roots : list Root) :
  fair_completion as_completed →
  ∃ o n, search utf8_decode monotonic as_completed query opts roots = Ok o ∧
    wall_time_sec (returned o).2 = monotonic n - monotonic O ∧
    (stopped_reason (returned o).2 ≠ idle_timeout →
     idle_time_sec (returned o).2 = 0).
Proof.
  intros Hfair. destruct (search_final roots Hfair) as (c & -> & _ & _ & _).
  exists (outcome_of monotonic c), (clock c). split; [reflexivity|].
  simpl. split; [reflexivity|].
  intros Hr. now rewrite bool_decide_eq_false_2.
Qed.

(** C3: a path whose identity was seen is discarded by [maybe_emit]
    without any change of state (no call of the callback, no result, no
    count); after the emission of one path, a second path of the same
    identity is discarded; and so the paths one call emits have pairwise
    different identities and are as many as the emitted counter says.  The
    identity is device and inode when [stat] succeeds, else the resolved,
    case-folded path, else the path as a string. *)
Theorem same_identity_emitted_once (roots : list Root) :
  fair_completion as_completed →
  (∀ p, _file_id p = Ok (fid_of p)) ∧
  (∀ p c, fid_of p ∈ seen_ids c →
     maybe_emit monotonic opts p c = Ok (true, c)) ∧
  (∀ p1 p2 c, fid_of p1 = fid_of p2 →
     ∃ b c1, maybe_emit monotonic opts p1 c = Ok (b, c1) ∧
             maybe_emit monotonic opts p2 c1 = Ok (true, c1)) ∧
  ∃ o, search utf8_decode monotonic as_completed query opts roots = Ok o ∧
    NoDup (fid_of <$> emitted_paths o) ∧
    emitted (returned o).2 = Z.of_nat (length (emitted_paths o)).
Proof.
  intros Hfair. split; [apply _file_id_fid_of|].
  split; [apply maybe_emit_seen|]. split.
  - intros p1 p2 c Heq.
    destruct (decide (fid_of p1 ∈ seen_ids c)) as [Hin|Hfresh].
    + exists true, c. rewrite (maybe_emit_seen p1 c Hin).
      split; [reflexivity|]. apply maybe_emit_seen. now rewrite <- Heq.
    + rewrite (maybe_emit_fresh p1 c Hfresh).
      destruct (cap opts <=? emitted_count c + 1); do 2 eexists;
        (split; [reflexivity|]); apply maybe_emit_seen; rewrite <- Heq;
        simpl; set_solver.
  - destruct (search_final roots Hfair) as (c & -> & Hc & _ & _).
    exists (outcome_of monotonic c). split; [reflexivity|].
    rewrite (emitted_paths_outcome c Hc).
    split; [apply Hc|]. simpl. apply Hc.
Qed.

(** C4: an emission goes to the callback when there is one and to the
    result list otherwise, never to both; with a callback the returned
    list is empty and the callback received each emitted match once; with
    none the callback log is empty and the returned list holds each
    emitted match once; every emitted path is a candidate the matcher
    accepts; and when the search runs to completion, every accepted
    candidate has its identity among the emitted ones. *)
Theorem one_channel_per_call (roots : list Root) :
  fair_completion as_completed →
  (∀ p c, fid_of p ∉ seen_ids c →
     ∃ b c', maybe_emit monotonic opts p c = Ok (b, c') ∧
       if stream_callback opts
       then delivered c' = delivered c ++ [p] ∧ results c' = results c
       else results c' = results c ++ [mkMatchResult p] ∧
            delivered c' = delivered c) ∧
  ∃ o, search utf8_decode monotonic as_completed query opts roots = Ok o ∧
    (if stream_callback opts
     then (returned o).1 = [] ∧ emitted_paths o = callback_calls o
     else callback_calls o = [] ∧ emitted_paths o = path <$> (returned o).1) ∧
    NoDup (fid_of <$> emitted_paths o) ∧
    Z.of_nat (length (emitted_paths o)) = emitted (returned o).2 ∧
    (∀ p, p ∈ emitted_paths o →
       p ∈ candidates opts roots ∧
       evaluate utf8_decode query opts (scan_content opts) p
       = Ok (Some (mkMatchResult p))) ∧
    (clock_monotone monotonic → stopped_reason (returned o).2 = complete →
     ∀ i, i ∈ eligible utf8_decode query opts roots →
          i ∈ fid_of <$> emitted_paths o).
Proof.
  intros Hfair. split.
  - intros p c Hfresh. rewrite (maybe_emit_fresh p c Hfresh).
    destruct (cap opts <=? emitted_count c + 1); do 2 eexists;
      (split; [reflexivity|]); simpl; destruct (stream_callback opts); auto.
  - destruct (search_final roots Hfair) as (c & -> & Hc & Hpost & Horigin).
    exists (outcome_of monotonic c). split; [reflexivity|].
    pose proof (emitted_paths_outcome c Hc) as Hem.
    pose proof (inv_channel opts c Hc) as Hch.
    split; [|split; [|split; [|split]]].
    + unfold emitted_paths, outcome_of in *. simpl in *.
      destruct (stream_callback opts); rewrite Hch; simpl; split;
        auto using app_nil_r.
    + rewrite Hem. apply Hc.
    + rewrite Hem. simpl. symmetry. apply Hc.
    + rewrite Hem. intros p Hp. apply accepted_elem. now apply Horigin.
    + simpl. intros Hm Hr i Hi. rewrite Hem.
      assert (stop_event c = false) as Hrun.
      { destruct (stop_event c) eqn:E; [|reflexivity].
        destruct (inv_stopped opts c Hc E) as [Hl _]. congruence. }
      destruct (Hpost Hm Hrun) as [_ Hp]; [congruence|].
      apply Hp in Hi. rewrite (inv_seen opts c Hc) in Hi.
      now apply elem_of_list_to_set in Hi.
Qed.

(** C2 (amended): with a limit of at least 1 and more distinct eligible
    files than the limit, a call that the idle timeout does not stop emits
    exactly [limit] results and reports the reason [limit]; the other
    possible end is the reason [idle_timeout], with fewer results, and
    only when an idle timeout is configured. *)
Theorem limit_stops_search (roots : list Root) :
  fair_completion as_completed → clock_monotone monotonic →
  1 ≤ limit opts →
  limit opts < Z.of_nat (size (eligible utf8_decode query opts roots)) →
  ∃ o, search utf8_decode monotonic as_completed query opts roots = Ok o ∧
    ((stopped_reason (returned o).2 = limit_reached ∧
      emitted (returned o).2 = limit opts ∧
      Z.of_nat (length (emitted_paths o)) = limit opts) ∨
     (stopped_reason (returned o).2 = idle_timeout ∧
      idle_enabled opts = true ∧
      emitted (returned o).2 < limit opts)).
Proof.
  intros Hfair Hm Hlim Hmany.
  destruct (search_final roots Hfair) as (c & -> & Hc & Hpost & Horigin).
  exists (outcome_of monotonic c). split; [reflexivity|].
  rewrite (emitted_paths_outcome c Hc). simpl.
  assert (cap opts = limit opts) as Hcap by (unfold cap; lia).
  destruct (stop_event c) eqn:Hrun.
  - left. destruct (inv_stopped opts c Hc Hrun) as [Hr He].
    rewrite <- (inv_count opts c Hc). split_and!; congruence.
  - pose proof (inv_running opts c Hc Hrun) as Hlt. rewrite Hcap in Hlt.
    destruct (decide (cur_reason c = idle_timeout)) as [Hidle|Hidle].
    + right. split; [assumption|]. split; [|assumption].
      destruct (idle_enabled opts) eqn:E; [reflexivity|].
      destruct (inv_timer opts c Hc E) as [_ Hn]. contradiction.
    + exfalso. destruct (Hpost Hm eq_refl Hidle) as [_ Hp].
      apply subseteq_size in Hp.
      fold (eligible utf8_decode query opts roots) in Hp.
      pose proof (seen_size c Hc). lia.
Qed.

End CoordinatorFacts.

(* ===================================================================== *)
(** ** The idle timer of the inline path *)
(* ===================================================================== *)

Section IdleFacts.
Import Utils Search.

Variable utf8_decode : list Byte.byte → result string.
Variable monotonic : nat → Z.
Variable as_completed : nat → list Future → list Future.
Variable query : Query.ParsedQuery.
Variable opts : Options.
Hypothesis clock_mono : clock_monotone monotonic.

Lemma clock_le (n m : nat) : (n ≤ m)%nat → monotonic n ≤ monotonic m.
Proof.
  induction 1 as [|m _ IH]; [lia|]. specialize (clock_mono m). lia.
Qed.

Lemma timer_inv_initial : timer_inv monotonic opts (initial opts (monotonic O)).
Proof.
  split; unfold idle_base; simpl.
  - now intros ->.
  - exists O. split; [lia|reflexivity].
Qed.

Lemma timer_inv_emitted (p : Path) (c : Coord) (stop : bool) :
  let c1 := emitted_state monotonic opts p c in
  timer_inv monotonic opts
    (if stop then set_stop_event (set_reason limit_reached c1) else c1).
Proof.
  assert (timer_inv monotonic opts (emitted_state monotonic opts p c)) as H.
  { split; unfold idle_base, emitted_state, reset_idle_timer; simpl.
    - now intros ->.
    - exists (clock c). split; [lia|reflexivity]. }
  destruct stop; [|exact H]. destruct H as [H1 H2]. split; assumption.
Qed.

Lemma maybe_emit_timer (p : Path) (c b_c' : Coord) (b : bool) :
  timer_inv monotonic opts c → maybe_emit monotonic opts p c = Ok (b, b_c') →
  timer_inv monotonic opts b_c' ∧ (cur_reason b_c' = cur_reason c ∨
                    cur_reason b_c' = limit_reached).
Proof.
  intros Ht. destruct (decide (fid_of p ∈ seen_ids c)) as [Hin|Hfresh].
  - rewrite (maybe_emit_seen monotonic opts p c Hin). intros [= <- <-]. auto.
  - rewrite (maybe_emit_fresh monotonic opts p c Hfresh).
    pose proof (timer_inv_emitted p c) as Hi.
    destruct (cap opts <=? emitted_count c + 1); intros [= <- <-].
    + split; [apply (Hi true)|]. right. reflexivity.
    + split; [apply (Hi false)|]. left. reflexivity.
Qed.

Lemma timer_inv_tick (c : Coord) :
  timer_inv monotonic opts c → timer_inv monotonic opts (tick c).
Proof.
  intros [Hd (k & Hk & Hb)]. split; [exact Hd|].
  exists k. simpl. split; [lia|exact Hb].
Qed.

Lemma timed_out_timer (c : Coord) :
  timer_inv monotonic opts c →
  timer_inv monotonic opts (timed_out monotonic c).2 ∧
  ((timed_out monotonic c).1 = true → idle_enabled opts = true →
   expired monotonic opts (timed_out monotonic c).2).
Proof.
  intros Ht. pose proof (timer_deadline monotonic opts c Ht) as Hd.
  unfold timed_out.
  destruct (idle_deadline c) as [d|] eqn:E; simpl.
  - split; [now apply timer_inv_tick|].
    intros Hlate He. apply Z.leb_le in Hlate.
    specialize (Hd He). injection Hd as ->.
    exists (clock c). simpl. split; [lia|exact Hlate].
  - split; [assumption|discriminate].
Qed.

Lemma note_timeout_timer (c : Coord) :
  timer_inv monotonic opts c → expired monotonic opts c →
  timer_inv monotonic opts (note_timeout monotonic c) ∧
  expired monotonic opts (note_timeout monotonic c).
Proof.
  intros Ht (k & Hk & He). unfold note_timeout.
  pose proof (timed_out_timer c Ht) as [Ht' _].
  assert (idle_base monotonic (timed_out monotonic c).2 = idle_base monotonic c ∧
          (clock c ≤ clock (timed_out monotonic c).2)%nat) as [Hb Hc].
  { unfold timed_out. destruct (idle_deadline c); simpl; split;
      try reflexivity; lia. }
  destruct (timed_out monotonic c) as [late c']. simpl in *.
  assert (expired monotonic opts c') as He'.
  { exists k. rewrite Hb. split; [lia|exact He]. }
  destruct late; [|auto].
  split.
  - destruct Ht' as [H1 H2]. split; assumption.
  - exact He'.
Qed.

Lemma inline_loop_timer (cands : list Path) (c c' : Coord) :
  timer_inv monotonic opts c → coord_inv opts c → stop_event c = false →
  cur_reason c ≠ idle_timeout →
  inline_loop utf8_decode monotonic query opts cands c = Ok c' →
  timer_inv monotonic opts c' ∧
  (cur_reason c' = idle_timeout → expired monotonic opts c').
Proof.
  revert c. induction cands as [|p cands IH]; intros c Ht Hc Hrun Hr; simpl.
  { intros [= <-]. split; [assumption|]. intros H. contradiction. }
  unfold stop_or_timed_out. rewrite Hrun.
  pose proof (timed_out_timer c Ht) as [Ht1 Hexp].
  pose proof (timed_out_frame monotonic c)
    as (_ & _ & _ & _ & Hr1 & Hst1 & Hd1 & _).
  pose proof (coord_inv_timed_out monotonic opts c Hc) as Hc1.
  assert ((timed_out monotonic c).1 = true → idle_enabled opts = true) as Hen.
  { destruct (idle_enabled opts) eqn:E; [reflexivity|].
    destruct (inv_timer opts c Hc E) as [Hn _]. unfold timed_out.
    now rewrite Hn. }
  destruct (timed_out monotonic c) as [halt c1]. simpl in *.
  rewrite Hrun in Hst1. rewrite <- Hr1 in Hr.
  destruct halt.
  { intros [= <-]. specialize (Hexp eq_refl (Hen eq_refl)).
    destruct (note_timeout_timer c1 Ht1 Hexp). auto. }
  destruct (evaluate utf8_decode query opts false p) as [[m|]|e]; simpl;
    [| apply IH; assumption | discriminate].
  destruct (maybe_emit_spec monotonic opts (path m) c1 Hc1 Hst1)
    as (c2 & Hemit & Hc2 & _ & Hr2 & _).
  rewrite Hemit.
  destruct (maybe_emit_timer (path m) c1 c2 _ Ht1 Hemit) as [Ht2 Hr2'].
  simpl. destruct (stop_event c2) eqn:Hrun2; simpl.
  - intros [= <-]. split; [assumption|]. intros Hidle.
    destruct (inv_stopped opts c2 Hc2 Hrun2) as [Hl _]. congruence.
  - apply IH; try assumption. rewrite (Hr2 eq_refl). exact Hr.
Qed.

(** On the inline path a call that reports [idle_timeout] reports an idle
    time of at least the configured timeout, and no other reason comes
    with an idle time. *)
Lemma inline_idle_gap (roots : list Root) (o : Outcome) :
  scan_content opts = false →
  search utf8_decode monotonic as_completed query opts roots = Ok o →
  (stopped_reason (returned o).2 = idle_timeout →
   0 < timeout_value opts ≤ idle_time_sec (returned o).2) ∧
  (stopped_reason (returned o).2 ≠ idle_timeout →
   idle_time_sec (returned o).2 = 0).
Proof.
  intros Hsc. unfold search. rewrite Hsc. simpl.
  destruct (inline_loop_spec utf8_decode monotonic query opts
              (iter_files roots (follow_symlinks opts) (max_depth opts)
                 (exclude_dirs opts))
              _ (coord_inv_initial opts (monotonic O)) eq_refl)
    as (c & Hloop & Hc & _).
  rewrite Hloop. simpl. intros [= <-]. simpl.
  destruct (inline_loop_timer _ _ c timer_inv_initial
              (coord_inv_initial opts (monotonic O)) eq_refl
              ltac:(discriminate) Hloop) as [[_ (j & Hj & Hbase)] Hexp].
  split.
  - intros Hidle. rewrite bool_decide_eq_true_2 by assumption.
    destruct (Hexp Hidle) as (k & Hk & Hle).
    assert (idle_enabled opts = true) as Hen.
    { destruct (idle_enabled opts) eqn:E; [reflexivity|].
      destruct (inv_timer opts c Hc E) as [_ Hn]. contradiction. }
    assert (0 < timeout_value opts) as Hpos.
    { unfold idle_enabled, timeout_value in *.
      destruct (idle_timeout_sec opts); [|discriminate].
      apply andb_true_iff in Hen as [_ Hen]. now apply Z.ltb_lt in Hen. }
    split; [exact Hpos|].
    pose proof (clock_le k (clock c) ltac:(lia)) as Hend.
    assert (last_emit_or (monotonic O) c ≤ idle_base monotonic c) as Hleo.
    { unfold last_emit_or, idle_base in *.
      destruct (last_emit_time c) as [t|]; [|lia].
      destruct (t =? 0) eqn:E; [|lia].
      pose proof (clock_le O j ltac:(lia)). lia. }
    change (last_emit_or (monotonic O) (tick c))
      with (last_emit_or (monotonic O) c).
    lia.
  - intros Hn. now rewrite bool_decide_eq_false_2 by assumption.
Qed.

End IdleFacts.

(* ===================================================================== *)
(** ** A limit below one *)
(* ===================================================================== *)

Section LimitFacts.
Import Utils Search.

Variable utf8_decode : list Byte.byte → result string.
Variable monotonic : nat → Z.
Variable as_completed : nat → list Future → list Future.
Variable query : Query.ParsedQuery.
Variable opts : Options.
Variable l : Z.
Hypothesis same_cap : Z.max 1 l = Z.max 1 (limit opts).

Lemma maybe_emit_with_limit (p : Path) (c : Coord) :
  maybe_emit monotonic (with_limit l opts) p c = maybe_emit monotonic opts p c.
Proof.
  unfold maybe_emit. destruct (_file_id p) as [i|e]; simpl; [|reflexivity].
  destruct (bool_decide (i ∈ seen_ids c)); [reflexivity|].
  rewrite same_cap. reflexivity.
Qed.

Lemma inline_loop_with_limit (cands : list Path) (c : Coord) :
  inline_loop utf8_decode monotonic query (with_limit l opts) cands c
  = inline_loop utf8_decode monotonic query opts cands c.
Proof.
  revert c. induction cands as [|p cands IH]; intros c; [reflexivity|].
  simpl. destruct (stop_or_timed_out monotonic c) as [[|] c1]; [reflexivity|].
  change (evaluate utf8_decode query (with_limit l opts) false p)
    with (evaluate utf8_decode query opts false p).
  destruct (evaluate utf8_decode query opts false p) as [[m|]|e]; simpl;
    [|apply IH|reflexivity].
  rewrite maybe_emit_with_limit.
  destruct (maybe_emit monotonic opts (path m) c1) as [[[|] c2]|e]; simpl;
    [apply IH|reflexivity|reflexivity].
Qed.

Lemma drain_with_limit (in_batch : bool) (futs : list Future) (c : Coord) :
  drain monotonic (with_limit l opts) in_batch futs c
  = drain monotonic opts in_batch futs c.
Proof.
  revert c. induction futs as [|fut futs IH]; intros c; [reflexivity|].
  simpl. destruct (_ || _); [reflexivity|].
  destruct fut as [[m|]|e]; simpl; [|apply IH|reflexivity].
  rewrite maybe_emit_with_limit.
  destruct (maybe_emit monotonic opts (path m) c) as [[[|] c2]|e]; simpl;
    [apply IH|reflexivity|reflexivity].
Qed.

Lemma submit_loop_with_limit (cands : list Path) (futures : list Future)
  (c : Coord) :
  submit_loop utf8_decode monotonic as_completed query (with_limit l opts)
    cands futures c
  = submit_loop utf8_decode monotonic as_completed query opts cands futures c.
Proof.
  revert futures c.
  induction cands as [|p cands IH]; intros futures c; [reflexivity|].
  simpl. destruct (stop_or_timed_out monotonic c) as [[|] c1]; [reflexivity|].
  change (evaluate utf8_decode query (with_limit l opts) true p)
    with (evaluate utf8_decode query opts true p).
  destruct (if bool_decide _ then _ else _) as [[|] c2]; [|apply IH].
  rewrite drain_with_limit.
  destruct (drain monotonic opts true _ _) as [c3|e]; simpl; [|reflexivity].
  destruct (_ || _); [reflexivity|apply IH].
Qed.

Lemma search_with_limit (roots : list Root) :
  search utf8_decode monotonic as_completed query (with_limit l opts) roots
  = search utf8_decode monotonic as_completed query opts roots.
Proof.
  unfold search.
  change (scan_content (with_limit l opts)) with (scan_content opts).
  change (iter_files roots (follow_symlinks (with_limit l opts))
            (max_depth (with_limit l opts)) (exclude_dirs (with_limit l opts)))
    with (iter_files roots (follow_symlinks opts) (max_depth opts)
            (exclude_dirs opts)).
  change (initial (with_limit l opts) (monotonic O))
    with (initial opts (monotonic O)).
  destruct (scan_content opts); simpl.
  - rewrite submit_loop_with_limit.
    destruct (submit_loop _ _ _ _ _ _ _ _) as [[futs c1]|e]; simpl;
      [|reflexivity].
    now rewrite drain_with_limit.
  - now rewrite inline_loop_with_limit.
Qed.

End LimitFacts.

(** C10: with a limit of zero or less the call is the call with limit 1:
    the two return the same; the first emission sets the stop event and
    the reason [limit]; and the call emits at most one result, exactly one
    precisely when its reason is [limit]. *)
Theorem nonpositive_limit_is_one
  (utf8_decode : list Byte.byte → result string) (monotonic : nat → Z)
  (as_completed : nat → list Search.Future → list Search.Future)
  (query : Query.ParsedQuery) (opts : Search.Options) (roots : list Root) :
  fair_completion as_completed →
  Search.limit opts ≤ 0 →
  Search.search utf8_decode monotonic as_completed query opts roots
  = Search.search utf8_decode monotonic as_completed query
      (with_limit 1 opts) roots ∧
  (∀ p c, coord_inv opts c → Search.stop_event c = false →
     fid_of p ∉ Search.seen_ids c →
     ∃ c', Search.maybe_emit monotonic opts p c = Ok (false, c') ∧
       Search.stop_event c' = true ∧
       Search.cur_reason c' = Search.limit_reached ∧
       Search.emitted_count c' = 1) ∧
  ∃ o, Search.search utf8_decode monotonic as_completed query opts roots
       = Ok o ∧
    0 ≤ Search.emitted (Search.returned o).2 ≤ 1 ∧
    (Search.emitted (Search.returned o).2 = 1 ↔
     Search.stopped_reason (Search.returned o).2 = Search.limit_reached).
Proof.
  intros Hfair Hlim.
  assert (cap opts = 1) as Hcap by (unfold cap; lia).
  split; [|split].
  - symmetry. apply search_with_limit. simpl. lia.
  - intros p c Hc Hrun Hfresh.
    pose proof (inv_running opts c Hc Hrun) as Hlt.
    pose proof (inv_count opts c Hc) as Hcnt.
    rewrite (maybe_emit_fresh monotonic opts p c Hfresh).
    assert ((cap opts <=? Search.emitted_count c + 1) = true) as ->
      by (apply Z.leb_le; lia).
    eexists. split; [reflexivity|]. simpl. split_and!; auto. lia.
  - destruct (search_final utf8_decode monotonic as_completed query opts
                roots Hfair) as (c & -> & Hc & _ & _).
    exists (outcome_of monotonic c). split; [reflexivity|]. simpl.
    pose proof (inv_count opts c Hc) as Hcnt.
    destruct (Search.stop_event c) eqn:Hrun.
    + destruct (inv_stopped opts c Hc Hrun) as [Hr He].
      rewrite Hr, He, Hcap. split; [lia|]. split; auto.
    + pose proof (inv_running opts c Hc Hrun) as Hlt.
      split; [lia|]. split; [lia|].
      intros Hr. apply (inv_limit opts c Hc) in Hr. congruence.
Qed.

(* ===================================================================== *)
(** ** Concrete runs *)
(* ===================================================================== *)


Section SampleFacts.
Import Query Search Sample.

Lemma in_order_fair : fair_completion in_order.
Proof. intros n futs. reflexivity. Qed.

Lemma jumping_clock_monotone : clock_monotone jumping_clock.
Proof. intros [|n]; simpl; lia. Qed.

Lemma late_clock_monotone : clock_monotone late_clock.
Proof.
  intros n. unfold late_clock.
  destruct (Nat.ltb_spec n 3), (Nat.ltb_spec (S n) 3); lia.
Qed.

(** The end-to-end example: the text file and the file with the word in
    its name are found, the image is not. *)
Example end_to_end :
  search ascii_decode steady_clock in_order token_invoice
         (options true 200 false None) invoices
  = Ok (mkOutcome ([mkMatchResult notes_txt; mkMatchResult my_invoice_pdf],
                   mkSearchStats 2 3 0 complete) []).
Proof. vm_compute. reflexivity. Qed.

Example extension_or :
  evaluate ascii_decode (mkParsedQuery [] [] [".jpg"] ["invoice"] false)
           (mkOptions true false false 10 8 200 None [] false true None)
           true a_jpg
  = Ok (Some (mkMatchResult a_jpg)).
Proof. vm_compute. reflexivity. Qed.

(** C2, the claim fails: limit 1, two distinct eligible files and an idle
    timeout of 5 ticks; the clock reads 10 at the first test of the loop,
    so the call ends with no emission and the reason [idle_timeout]. *)
Lemma idle_timeout_preempts_limit :
  let opts := options false 1 false (Some 5) in
  1 ≤ limit opts ∧
  size (eligible ascii_decode token_a opts two_files) = 2%nat ∧
  clock_monotone jumping_clock ∧
  search ascii_decode jumping_clock in_order token_a opts two_files
  = Ok (mkOutcome ([], mkSearchStats 0 10 10 idle_timeout) []).
Proof.
  split; [simpl; lia|]. split; [vm_compute; reflexivity|].
  split; [apply jumping_clock_monotone|]. vm_compute. reflexivity.
Qed.

Lemma limit_stops_search_witness :
  let opts := options true 1 true None in
  ∃ o, search ascii_decode steady_clock in_order token_a opts linked_files
       = Ok o ∧
    ((stopped_reason (returned o).2 = limit_reached ∧
      emitted (returned o).2 = limit opts ∧
      Z.of_nat (length (emitted_paths o)) = limit opts) ∨
     (stopped_reason (returned o).2 = idle_timeout ∧
      idle_enabled opts = true ∧
      emitted (returned o).2 < limit opts)).
Proof.
  apply (limit_stops_search ascii_decode steady_clock in_order token_a
           (options true 1 true None) linked_files).
  - intros n futs. reflexivity.
  - intros n. unfold steady_clock. lia.
  - simpl. lia.
  - vm_compute. reflexivity.
Defined.

Lemma same_identity_emitted_once_witness :
  fid_of alpha = fid_of alias ∧
  ∃ o, search ascii_decode steady_clock in_order token_a
         (options false 200 false None) linked_files = Ok o ∧
    NoDup (fid_of <$> emitted_paths o) ∧
    emitted (returned o).2 = Z.of_nat (length (emitted_paths o)).
Proof.
  split; [reflexivity|].
  apply (same_identity_emitted_once ascii_decode steady_clock in_order token_a
           (options false 200 false None) linked_files).
  intros n futs. reflexivity.
Defined.

Lemma one_channel_per_call_witness :
  let opts := options true 200 true None in
  ∃ o, search ascii_decode steady_clock in_order token_a opts linked_files
       = Ok o ∧
    (if stream_callback opts
     then (returned o).1 = [] ∧ emitted_paths o = callback_calls o
     else callback_calls o = [] ∧ emitted_paths o = path <$> (returned o).1) ∧
    NoDup (fid_of <$> emitted_paths o) ∧
    Z.of_nat (length (emitted_paths o)) = emitted (returned o).2 ∧
    (∀ p, p ∈ emitted_paths o →
       p ∈ candidates opts linked_files ∧
       evaluate ascii_decode token_a opts (scan_content opts) p
       = Ok (Some (mkMatchResult p))) ∧
    (clock_monotone steady_clock →
     stopped_reason (returned o).2 = complete →
     ∀ i, i ∈ eligible ascii_decode token_a opts linked_files →
          i ∈ fid_of <$> emitted_paths o).
Proof.
  apply (one_channel_per_call ascii_decode steady_clock in_order token_a
           (options true 200 true None) linked_files).
  intros n futs. reflexivity.
Defined.

Lemma nonpositive_limit_is_one_witness :
  let opts := options false 0 false None in
  search ascii_decode steady_clock in_order token_a opts two_files
  = search ascii_decode steady_clock in_order token_a (with_limit 1 opts)
      two_files.
Proof.
  apply (nonpositive_limit_is_one ascii_decode steady_clock in_order token_a
           (options false 0 false None) two_files).
  - intros n futs. reflexivity.
  - simpl. lia.
Defined.

Lemma content_match_needs_text_and_size_witness :
  let opts := options true 200 false None in
  p_suffix huge = ".txt" ∧
  evaluate ascii_decode token_invoice opts true huge
  = evaluate ascii_decode token_invoice opts false huge.
Proof.
  split; [reflexivity|].
  apply (content_match_needs_text_and_size ascii_decode token_invoice
           (options true 200 false None) huge)
    with (st := mkStat 1 12 (20 * 1024 * 1024)).
  - reflexivity.
  - simpl. lia.
Defined.

(** C5, the code at a failing input.  Pooled mode, limit 1, idle timeout
    of 5 ticks, two matching files.  The second test of the submission
    loop reads the clock at 10, past the deadline 5, with nothing emitted:
    the loop records [idle_timeout] and leaves one future pending.  The
    loop after it still emits that future: the call returns one result,
    the reason [limit] and an idle time of zero.  With the limit 200 the
    reason stays [idle_timeout], but one result is emitted after the stop
    and the idle time is counted from that emission. *)
Theorem pooled_search_emits_after_idle_stop :
  let opts := options true 1 false (Some 5) in
  clock_monotone late_clock ∧ fair_completion in_order ∧
  late_clock 0 + 5 ≤ late_clock 3 ∧
  (∃ c, submit_loop ascii_decode late_clock in_order token_a opts
          [alpha; beta] [] (initial opts (late_clock 0))
        = Ok ([evaluate ascii_decode token_a opts true alpha], c) ∧
        cur_reason c = idle_timeout ∧ emitted_count c = 0) ∧
  search ascii_decode late_clock in_order token_a opts two_files
  = Ok (mkOutcome ([mkMatchResult alpha], mkSearchStats 1 13 0 limit_reached)
                  []) ∧
  search ascii_decode late_clock in_order token_a
         (options true 200 false (Some 5)) two_files
  = Ok (mkOutcome ([mkMatchResult alpha], mkSearchStats 1 13 1 idle_timeout)
                  []).
Proof.
  split; [apply late_clock_monotone|]. split; [apply in_order_fair|].
  split; [vm_compute; discriminate|]. split.
  - eexists. split; [vm_compute; reflexivity|]. split; reflexivity.
  - split; vm_compute; reflexivity.
Qed.

(** The inline loop on the same clock and files: the call stops on the
    idle timeout and emits nothing after it. *)
Lemma inline_search_stops_on_idle :
  search ascii_decode late_clock in_order token_a
         (options false 200 false (Some 5)) two_files
  = Ok (mkOutcome ([mkMatchResult alpha], mkSearchStats 1 12 10 idle_timeout)
                  []).
Proof. vm_compute. reflexivity. Qed.

End SampleFacts.

(* ===================================================================== *)
(** ** The matcher under its switches *)
(* ===================================================================== *)

Section SwitchFacts.
Import PyStr Query Utils Search Sample.

Variable utf8_decode : list Byte.byte → result string.

Lemma folded_lower (q : ParsedQuery) (s : string) :
  folded q (lower s) = lower s.
Proof.
  unfold folded. destruct (case_sensitive q); [reflexivity|apply lower_idem].
Qed.

Lemma filter_passed (q : ParsedQuery) (ext : string) :
  negb (non_empty (and_extensions q)) || bool_decide (ext ∈ and_extensions q)
  = true ↔
  and_extensions q = [] ∨ ext ∈ and_extensions q.
Proof.
  rewrite orb_true_iff, bool_decide_eq_true, negb_true_iff.
  destruct (and_extensions q); simpl; split; intros [H|H]; auto; discriminate.
Qed.

Lemma _name_matches_filter (filename stem ext : string) (q : ParsedQuery) :
  _name_matches filename stem ext q = true →
  and_extensions q = [] ∨ folded q ext ∈ and_extensions q.
Proof.
  unfold _name_matches. fold (folded q ext). intros H.
  apply filter_passed.
  destruct (non_empty (and_extensions q)); [|reflexivity].
  destruct (bool_decide (folded q ext ∈ and_extensions q));
    [reflexivity|discriminate].
Qed.

Lemma _name_matches_needs_a_term (filename stem ext : string)
  (q : ParsedQuery) :
  exact_filenames q = [] → exact_stems q = [] → tokens q = [] →
  _name_matches filename stem ext q = false.
Proof.
  intros Hf Hs Ht. unfold _name_matches. rewrite Hf, Hs, Ht. simpl.
  now destruct (_ && _).
Qed.

Lemma _content_matches_true (text : string) (q : ParsedQuery) :
  _content_matches text q = true ↔
  ∃ tok, tok ∈ tokens q ∧ tok ≠ "" ∧ contains tok (folded q text) = true.
Proof.
  unfold _content_matches. fold (folded q text).
  destruct (tokens q) as [|t ts] eqn:Ht.
  - simpl. split; [discriminate|]. intros (tok & Hin & _). inversion Hin.
  - change (negb (non_empty (t :: ts))) with false. cbv iota.
    apply some_token_in.
Qed.

Lemma content_phase_match (p : Path) (q : ParsedQuery) (ext : string)
  (cap : Z) (m : MatchResult) :
  content_phase utf8_decode p q ext cap = Ok (Some m) →
  (and_extensions q = [] ∨ ext ∈ and_extensions q) ∧
  ∃ text, _read_text utf8_decode p cap = Ok text ∧
          _content_matches text q = true.
Proof.
  unfold content_phase.
  destruct (is_probably_text p) as [[|]|e]; simpl; try discriminate.
  destruct (p_stat p) as [st|e] eqn:Hst; simpl; try discriminate.
  destruct (st_size st <=? cap); simpl; try discriminate.
  destruct (_read_text utf8_decode p cap) as [text|e]; simpl; try discriminate.
  destruct (_content_matches text q) eqn:Hm; try discriminate.
  destruct (_ || _) eqn:Hf; try discriminate.
  intros _. split; [now apply filter_passed|eauto].
Qed.

Lemma content_phase_without_tokens (p : Path) (q : ParsedQuery) (ext : string)
  (cap : Z) :
  tokens q = [] →
  try_except (content_phase utf8_decode p q ext cap) (Ok None) = Ok None.
Proof.
  intros Ht.
  destruct (content_phase utf8_decode p q ext cap) as [[m|]|e] eqn:E;
    try reflexivity.
  apply content_phase_match in E as (_ & text & _ & Hm).
  apply _content_matches_true in Hm as (tok & Hin & _).
  rewrite Ht in Hin. inversion Hin.
Qed.

(** X1: whatever the switches, an accepted file passes the extension
    filter: the filter is empty, or it holds the lower-cased suffix of the
    file.  This holds for a match by name, by content and by
    [ext_match_or] alike. *)
Theorem accepted_file_passes_extension_filter
  (p : Path) (q : ParsedQuery) (sc co : bool) (cap : Z) (eo : bool)
  (m : MatchResult) :
  _evaluate_path utf8_decode p q sc co cap eo = Ok (Some m) →
  and_extensions q = [] ∨ lower (p_suffix p) ∈ and_extensions q.
Proof.
  unfold _evaluate_path.
  destruct (_ && _ && _) eqn:H1.
  { intros _. apply andb_true_iff in H1 as [_ H1].
    apply bool_decide_eq_true in H1. now right. }
  destruct (negb co && _) eqn:H2.
  { intros _. apply andb_true_iff in H2 as [_ H2].
    apply _name_matches_filter in H2. now rewrite folded_lower in H2. }
  destruct sc; [|discriminate].
  destruct (content_phase _ _ _ _ _) as [[m'|]|e] eqn:E; simpl;
    try discriminate.
  intros _. now apply content_phase_match in E as [E _].
Qed.

(** X2: with [ext_match_or] set and a non-empty extension filter, the
    matcher is the extension test and nothing else: a file is accepted
    exactly when its lower-cased suffix is in the filter, whatever its
    name, its content, the tokens and the other switches. *)
Theorem ext_match_or_is_the_extension_test
  (p : Path) (q : ParsedQuery) (sc co : bool) (cap : Z) :
  and_extensions q ≠ [] →
  _evaluate_path utf8_decode p q sc co cap true
  = Ok (if bool_decide (lower (p_suffix p) ∈ and_extensions q)
        then Some (mkMatchResult p) else None).
Proof.
  intros Hne. apply non_empty_true in Hne.
  unfold _evaluate_path. rewrite Hne. simpl.
  destruct (bool_decide (lower (p_suffix p) ∈ and_extensions q)) eqn:Hx;
    [reflexivity|].
  apply bool_decide_eq_false in Hx.
  destruct (negb co && _) eqn:H2.
  { apply andb_true_iff in H2 as [_ H2].
    apply _name_matches_filter in H2. rewrite folded_lower in H2.
    destruct H2 as [H2|H2]; [|contradiction].
    rewrite H2 in Hne. discriminate. }
  destruct sc; [|reflexivity].
  destruct (content_phase _ _ _ _ _) as [[m'|]|e] eqn:E; simpl;
    try reflexivity.
  apply content_phase_match in E as [[E|E] _]; [|contradiction].
  rewrite E in Hne. discriminate.
Qed.

(** X3: a query that holds extensions only (no exact filename, no exact
    stem, no token) selects no file at all unless [ext_match_or] is set:
    the extension filter narrows matches, it does not make any. *)
Theorem extension_filter_alone_selects_nothing
  (p : Path) (q : ParsedQuery) (sc co : bool) (cap : Z) :
  exact_filenames q = [] → exact_stems q = [] → tokens q = [] →
  _evaluate_path utf8_decode p q sc co cap false = Ok None.
Proof.
  intros Hf Hs Ht. unfold _evaluate_path. simpl.
  rewrite (_name_matches_needs_a_term _ _ _ q Hf Hs Ht), andb_false_r.
  destruct sc; [|reflexivity].
  now apply content_phase_without_tokens.
Qed.


(** X5: a query without tokens gains nothing from content scanning: the
    verdict with [scan_content] equals the verdict without it, so exact
    names and extensions are never looked for inside files. *)
Theorem content_scan_needs_tokens
  (p : Path) (q : ParsedQuery) (co : bool) (cap : Z) (eo : bool) :
  tokens q = [] →
  _evaluate_path utf8_decode p q true co cap eo
  = _evaluate_path utf8_decode p q false co cap eo.
Proof.
  intros Ht. unfold _evaluate_path.
  destruct (_ && _ && _); [reflexivity|].
  destruct (_ && _); [reflexivity|].
  now apply content_phase_without_tokens.
Qed.

End SwitchFacts.

Section SwitchSamples.
Import PyStr Query Utils Search Sample.

Lemma accepted_file_passes_extension_filter_witness :
  and_extensions notes_in_txt = [] ∨
  lower (p_suffix notes_txt) ∈ and_extensions notes_in_txt.
Proof.
  apply (accepted_file_passes_extension_filter ascii_decode notes_txt
           notes_in_txt false false 0 false (mkMatchResult notes_txt)).
  vm_compute. reflexivity.
Defined.

Lemma ext_match_or_is_the_extension_test_witness :
  _evaluate_path ascii_decode my_invoice_pdf
    (mkParsedQuery [] [] [".jpg"] ["invoice"] false) true false 1024 true
  = Ok (if bool_decide (lower (p_suffix my_invoice_pdf) ∈ [".jpg"])
        then Some (mkMatchResult my_invoice_pdf) else None).
Proof.
  apply (ext_match_or_is_the_extension_test ascii_decode my_invoice_pdf
           (mkParsedQuery [] [] [".jpg"] ["invoice"] false) true false 1024).
  simpl. discriminate.
Defined.

Lemma extension_filter_alone_selects_nothing_witness :
  _evaluate_path ascii_decode a_jpg only_jpg true false 1024 false = Ok None.
Proof.
  apply (extension_filter_alone_selects_nothing ascii_decode a_jpg only_jpg
           true false 1024); reflexivity.
Defined.


Lemma content_scan_needs_tokens_witness :
  _evaluate_path ascii_decode notes_txt only_jpg true false 1024 true
  = _evaluate_path ascii_decode notes_txt only_jpg false false 1024 true.
Proof.
  apply (content_scan_needs_tokens ascii_decode notes_txt only_jpg false 1024
           true).
  reflexivity.
Defined.

End SwitchSamples.

(* ===================================================================== *)
(** ** The parser on arguments without quotes, and on quoted text *)
(* ===================================================================== *)

Section WordFacts.
Import PyStr Re Query.

Lemma append_cons (c : ascii) (a b : string) :
  String c a +:+ b = String c (a +:+ b).
Proof. reflexivity. Qed.

Lemma append_nil_r (a : string) : a +:+ "" = a.
Proof. induction a as [|c a IH]; [reflexivity|]. now rewrite append_cons, IH. Qed.

Lemma append_assoc (a b c : string) : (a +:+ b) +:+ c = a +:+ (b +:+ c).
Proof.
  induction a as [|x a IH]; [reflexivity|]. now rewrite !append_cons, IH.
Qed.

Lemma append_empty (a b : string) : a +:+ b = "" → a = "" ∧ b = "".
Proof.
  destruct a; [|rewrite append_cons; discriminate].
  intros H. change (b = "") in H. now subst.
Qed.

Lemma all_chars_app (p : ascii → bool) (a b : string) :
  all_chars p (a +:+ b) = all_chars p a && all_chars p b.
Proof.
  induction a as [|c a IH]; [reflexivity|].
  rewrite append_cons. simpl. now rewrite IH, andb_assoc.
Qed.

Lemma all_chars_impl (p q : ascii → bool) (s : string) :
  (∀ c, p c = true → q c = true) →
  all_chars p s = true → all_chars q s = true.
Proof.
  intros Hpq. induction s as [|c s IH]; simpl; [reflexivity|].
  rewrite !andb_true_iff. intros [Hc Hs]. auto.
Qed.

Lemma plain_no_space (t : string) :
  all_chars plain_char t = true → all_chars no_space t = true.
Proof.
  apply all_chars_impl. unfold plain_char. intros c.
  rewrite andb_true_iff. tauto.
Qed.

Lemma plain_no_dquote (t : string) :
  all_chars plain_char t = true → all_chars no_dquote t = true.
Proof.
  apply all_chars_impl. unfold plain_char. intros c.
  rewrite andb_true_iff. tauto.
Qed.

(** *** [strip] and [lower] on strings without white space *)

Lemma rstrip_no_space (t : string) :
  all_chars no_space t = true → rstrip t = t.
Proof.
  induction t as [|c t IH]; simpl; [reflexivity|].
  rewrite andb_true_iff. unfold no_space at 1. rewrite negb_true_iff.
  intros [-> Ht]. simpl. now rewrite IH.
Qed.

Lemma strip_no_space (t : string) :
  all_chars no_space t = true → strip t = t.
Proof.
  intros Ht. unfold strip.
  assert (lstrip t = t) as ->; [|now apply rstrip_no_space].
  destruct t as [|c t]; simpl in *; [reflexivity|].
  apply andb_true_iff in Ht as [Hc _]. unfold no_space in Hc.
  apply negb_true_iff in Hc. now rewrite Hc.
Qed.

Lemma isspace_lower_char (c : ascii) : isspace (lower_char c) = isspace c.
Proof. destruct c as [[] [] [] [] [] [] [] []]; reflexivity. Qed.

Lemma is_dquote_lower_char (c : ascii) :
  is_dquote (lower_char c) = is_dquote c.
Proof. destruct c as [[] [] [] [] [] [] [] []]; reflexivity. Qed.

Lemma lower_no_space (t : string) :
  all_chars no_space (lower t) = all_chars no_space t.
Proof.
  induction t as [|c t IH]; simpl; [reflexivity|].
  unfold no_space at 1 3. now rewrite isspace_lower_char, IH.
Qed.

Lemma lower_empty (t : string) : lower t = "" ↔ t = "".
Proof. destruct t; simpl; split; intros H; try done. Qed.

Lemma _norm_no_space (t : string) (cs : bool) :
  all_chars no_space (_norm t cs) = all_chars no_space t.
Proof. destruct cs; [reflexivity|apply lower_no_space]. Qed.

Lemma _norm_empty (t : string) (cs : bool) : _norm t cs = "" ↔ t = "".
Proof. destruct cs; [reflexivity|apply lower_empty]. Qed.

(** *** The pieces [re.split] returns *)

Lemma split_ws_no_space (b : bool) (cur s : string) :
  all_chars no_space cur = true →
  Forall (λ t, all_chars no_space t = true) (split_ws b cur s).
Proof.
  revert b cur. induction s as [|c s IH]; intros b cur Hcur; simpl.
  - now constructor.
  - destruct (isspace c) eqn:Hc.
    + destruct b; [now apply IH|]. constructor; [assumption|now apply IH].
    + apply IH. rewrite all_chars_app, Hcur. simpl.
      unfold no_space. now rewrite Hc.
Qed.

Lemma unquoted_items_words (argv_terms : list string) (raw : string) :
  raw ∈ unquoted_items argv_terms →
  raw ≠ "" ∧ all_chars no_space raw = true.
Proof.
  unfold unquoted_items. rewrite list_elem_of_In, filter_In.
  intros [Hin Hne]. split.
  - intros ->. discriminate.
  - pose proof (split_ws_no_space false ""
      (strip (QUOTED_RE_sub_space (join " " argv_terms))) eq_refl) as H.
    rewrite Forall_forall in H. apply H. now apply list_elem_of_In.
Qed.

Lemma or_match_None (a b : option string) :
  or_match a b = None → a = None ∧ b = None.
Proof. destruct a; [discriminate|]. simpl. now intros ->. Qed.

Lemma directive_is_None (s n : string) (a : acc) :
  directive s n a = None →
  EXT_RE_match n = None ∧ TYPE_RE_match n = None.
Proof.
  unfold directive.
  destruct (or_match (EXT_RE_match s) (EXT_RE_match n)) eqn:He;
    [discriminate|].
  destruct (or_match (TYPE_RE_match s) (TYPE_RE_match n)) eqn:Ht;
    [discriminate|].
  intros _. apply or_match_None in He as [_ He].
  apply or_match_None in Ht as [_ Ht]. now split.
Qed.

Lemma directive_tokens (s n : string) (a a' : acc) :
  directive s n a = Some a' →
  a_tokens a' = a_tokens a ∧ a_filenames a' = a_filenames a ∧
  a_stems a' = a_stems a.
Proof.
  unfold directive.
  destruct (or_match (EXT_RE_match s) (EXT_RE_match n)).
  - now intros [= <-].
  - destruct (or_match (TYPE_RE_match s) (TYPE_RE_match n)); [|discriminate].
    now intros [= <-].
Qed.

Lemma unquoted_step_words (cs : bool) (a : acc) (raw : string) :
  raw ≠ "" → all_chars no_space raw = true →
  Forall word (a_tokens a) → Forall word (a_tokens (unquoted_step cs a raw)).
Proof.
  intros Hne Hsp Ha. unfold unquoted_step. rewrite (strip_no_space raw Hsp).
  destruct (directive raw (_norm raw cs) a) as [a'|] eqn:Hd.
  - apply directive_tokens in Hd as (-> & _). assumption.
  - simpl. apply Forall_app. split; [assumption|].
    apply directive_is_None in Hd as [He Ht].
    constructor; [|constructor]. split; [|split; [|split]]; try assumption.
    + now rewrite _norm_empty.
    + now rewrite _norm_no_space.
Qed.

Lemma quoted_step_tokens (cs : bool) (a : acc) (raw : string) :
  a_tokens (quoted_step cs a raw) = a_tokens a.
Proof.
  unfold quoted_step.
  destruct (directive _ _ a) as [a'|] eqn:Hd.
  - now apply directive_tokens in Hd as (-> & _).
  - destruct (has_sep _); [|destruct (_ && _)]; reflexivity.
Qed.

(** X6: every token of a parsed query is a word: it is not empty, it
    holds no white space, and it is not an [ext:] or [type:] directive.
    So the guard on empty tokens in the matchers never fires for a query
    that [parse_query] built, and a directive never doubles as a token. *)
Theorem tokens_are_words (argv_terms : list string) (cs : bool) :
  Forall word (tokens (parse_query argv_terms cs)).
Proof.
  unfold parse_query. simpl.
  assert (Forall word (a_tokens (parse_acc argv_terms cs))) as H.
  { unfold parse_acc.
    apply (fold_left_inv (λ a, Forall word (a_tokens a))).
    - intros a raw Hraw Ha.
      apply unquoted_items_words in Hraw as [Hne Hsp].
      now apply unquoted_step_words.
    - apply (fold_left_inv (λ a, Forall word (a_tokens a))).
      + intros a raw _ Ha. now rewrite quoted_step_tokens.
      + constructor. }
  rewrite Forall_forall in *. intros t Ht. apply H.
  unfold dedup in Ht. apply dedup_from_elem in Ht. apply Ht.
Qed.

(** *** The extension filter, item by item *)

Lemma directive_exts_Some (s n : string) (a a' : acc) :
  directive s n a = Some a' → a_exts a' = a_exts a ∪ directive_exts s n.
Proof.
  unfold directive, directive_exts.
  destruct (or_match (EXT_RE_match s) (EXT_RE_match n)).
  - intros [= <-]. simpl. set_solver.
  - destruct (or_match (TYPE_RE_match s) (TYPE_RE_match n)); [|discriminate].
    now intros [= <-].
Qed.

Lemma directive_exts_None (s n : string) (a : acc) :
  directive s n a = None → directive_exts s n = ∅.
Proof.
  unfold directive, directive_exts.
  destruct (or_match (EXT_RE_match s) (EXT_RE_match n)); [discriminate|].
  now destruct (or_match (TYPE_RE_match s) (TYPE_RE_match n)).
Qed.

Lemma quoted_step_exts (cs : bool) (a : acc) (raw : string) :
  a_exts (quoted_step cs a raw) = a_exts a ∪ item_exts cs raw.
Proof.
  unfold quoted_step, item_exts.
  destruct (directive _ _ a) as [a'|] eqn:Hd.
  - now apply directive_exts_Some.
  - rewrite (directive_exts_None _ _ _ Hd).
    destruct (has_sep _); [|destruct (_ && _)]; simpl; set_solver.
Qed.

Lemma unquoted_step_exts (cs : bool) (a : acc) (raw : string) :
  a_exts (unquoted_step cs a raw) = a_exts a ∪ item_exts cs raw.
Proof.
  unfold unquoted_step, item_exts.
  destruct (directive _ _ a) as [a'|] eqn:Hd.
  - now apply directive_exts_Some.
  - rewrite (directive_exts_None _ _ _ Hd). simpl. set_solver.
Qed.

Lemma fold_left_exts (cs : bool) (f : acc → string → acc) (l : list string)
  (a : acc) :
  (∀ a b, a_exts (f a b) = a_exts a ∪ item_exts cs b) →
  a_exts (fold_left f l a) = a_exts a ∪ ⋃ (item_exts cs <$> l).
Proof.
  intros Hf. revert a. induction l as [|b l IH]; intros a; simpl.
  - set_solver.
  - rewrite IH, Hf. set_solver.
Qed.

Lemma sorted_elem (xs : gset string) (e : string) : e ∈ sorted xs ↔ e ∈ xs.
Proof. unfold sorted. now rewrite merge_sort_Permutation, elem_of_elements. Qed.

(** X7: the extension filter of a parsed query is the union of what the
    items contribute, quoted and unquoted alike: an extension is in
    [and_extensions] exactly when some item is an [ext:] directive for it
    or a [type:] directive whose group holds it.  In particular a
    directive inside double quotes filters as one outside does. *)
Theorem and_extensions_are_the_directives
  (argv_terms : list string) (cs : bool) (e : string) :
  e ∈ and_extensions (parse_query argv_terms cs) ↔
  ∃ raw, (raw ∈ quoted_items argv_terms ∨ raw ∈ unquoted_items argv_terms) ∧
         e ∈ item_exts cs raw.
Proof.
  unfold parse_query. simpl. rewrite sorted_elem. unfold parse_acc.
  rewrite (fold_left_exts cs _ _ _ (unquoted_step_exts cs)).
  rewrite (fold_left_exts cs _ _ _ (quoted_step_exts cs)).
  simpl. rewrite !elem_of_union, !elem_of_union_list. split.
  - intros [[H|(X & HX & He)]|(X & HX & He)]; [set_solver| |];
      apply list_elem_of_fmap in HX as (raw & -> & Hraw); eauto.
  - intros (raw & [Hraw|Hraw] & He); [left; right|right];
      exists (item_exts cs raw); (split; [|assumption]);
      apply list_elem_of_fmap; eauto.
Qed.

(** *** Text without double quotes *)

Lemma QUOTED_RE_scan_no_dquote (s : string) :
  all_chars no_dquote s = true →
  QUOTED_RE_scan O s = Lit <$> list_ascii_of_string s.
Proof.
  induction s as [|c s IH]; [reflexivity|].
  simpl. rewrite andb_true_iff. unfold no_dquote at 1.
  rewrite negb_true_iff. intros [-> Hs]. now rewrite IH.
Qed.

Lemma QUOTED_RE_findall_no_dquote (s : string) :
  all_chars no_dquote s = true → QUOTED_RE_findall s = [].
Proof.
  intros Hs. unfold QUOTED_RE_findall. rewrite (QUOTED_RE_scan_no_dquote s Hs).
  induction (list_ascii_of_string s) as [|c l IH]; [reflexivity|exact IH].
Qed.

Lemma QUOTED_RE_sub_space_no_dquote (s : string) :
  all_chars no_dquote s = true → QUOTED_RE_sub_space s = s.
Proof.
  intros Hs. unfold QUOTED_RE_sub_space.
  rewrite (QUOTED_RE_scan_no_dquote s Hs).
  rewrite <- (string_of_list_ascii_of_string s) at 2. f_equal.
  induction (list_ascii_of_string s) as [|c l IH]; [reflexivity|].
  simpl. f_equal. exact IH.
Qed.

Lemma join_cons (sep x y : string) (l : list string) :
  join sep (x :: y :: l) = x +:+ sep +:+ join sep (y :: l).
Proof. reflexivity. Qed.

Lemma all_chars_join (p : ascii → bool) (l : list string) :
  p " "%char = true →
  Forall (λ t, all_chars p t = true) l → all_chars p (join " " l) = true.
Proof.
  intros Hp. induction 1 as [|x l Hx Hl IH]; [reflexivity|].
  destruct l as [|y l]; [exact Hx|].
  rewrite join_cons, !all_chars_app, Hx, IH. simpl. now rewrite Hp.
Qed.

(** *** Joining plain arguments and splitting them again *)

Lemma rstrip_app (a b : string) :
  is_empty (rstrip b) = false → rstrip (a +:+ b) = a +:+ rstrip b.
Proof.
  intros Hb. induction a as [|c a IH]; [reflexivity|].
  rewrite !append_cons. simpl. rewrite IH.
  destruct a; [|now rewrite append_cons, andb_false_r].
  change ("" +:+ rstrip b) with (rstrip b). now rewrite Hb, andb_false_r.
Qed.

Lemma rstrip_join (t : string) (ts : list string) :
  Forall plain (t :: ts) →
  rstrip (join " " (t :: ts)) = join " " (t :: ts) ∧
  is_empty (join " " (t :: ts)) = false.
Proof.
  revert t. induction ts as [|t' ts IH]; intros t Hall.
  - apply Forall_cons in Hall as [[Hne Ht] _].
    split; [now apply rstrip_no_space, plain_no_space|].
    now destruct t.
  - apply Forall_cons in Hall as [[Hne Ht] Hall].
    destruct (IH t' Hall) as [IH1 IH2].
    rewrite join_cons. set (J := join " " (t' :: ts)) in *.
    assert (rstrip (" " +:+ J) = " " +:+ J) as Hsp.
    { change (" " +:+ J) with (String " "%char J). simpl.
      now rewrite IH1, IH2. }
    split; [|now destruct t].
    rewrite rstrip_app; rewrite Hsp; reflexivity.
Qed.

Lemma strip_join (ts : list string) :
  Forall plain ts → strip (join " " ts) = join " " ts.
Proof.
  destruct ts as [|t ts]; [reflexivity|]. intros Hall.
  unfold strip.
  assert (lstrip (join " " (t :: ts)) = join " " (t :: ts)) as ->;
    [|now apply rstrip_join].
  apply Forall_cons in Hall as [[Hne Ht] _].
  destruct t as [|c t]; [contradiction|].
  assert (isspace c = false) as Hc.
  { simpl in Ht. apply andb_true_iff in Ht as [Hc _].
    unfold plain_char, no_space in Hc.
    apply andb_true_iff in Hc as [Hc _]. now apply negb_true_iff. }
  destruct ts as [|t' ts]; [simpl; now rewrite Hc|].
  rewrite join_cons, append_cons. simpl. now rewrite Hc.
Qed.

Lemma split_ws_word (b : bool) (cur t rest : string) :
  all_chars no_space t = true → (b = true → t ≠ "") →
  split_ws b cur (t +:+ rest) = split_ws false (cur +:+ t) rest.
Proof.
  revert b cur. induction t as [|c t IH]; intros b cur Ht Hb.
  - destruct b; [now destruct Hb|]. now rewrite append_nil_r.
  - simpl in Ht. apply andb_true_iff in Ht as [Hc Ht].
    unfold no_space in Hc. apply negb_true_iff in Hc.
    rewrite append_cons. simpl. rewrite Hc.
    rewrite (IH false); [|assumption|discriminate].
    now rewrite append_assoc.
Qed.

Lemma split_ws_join (b : bool) (t : string) (ts : list string) :
  Forall plain (t :: ts) → split_ws b "" (join " " (t :: ts)) = t :: ts.
Proof.
  revert b t. induction ts as [|t' ts IH]; intros b t Hall;
    apply Forall_cons in Hall as [[Hne Ht] Hall];
    apply plain_no_space in Ht.
  - change (join " " [t]) with t. rewrite <- (append_nil_r t) at 1.
    now rewrite split_ws_word.
  - rewrite join_cons, split_ws_word; [|assumption|auto].
    change (split_ws false ("" +:+ t) (" " +:+ join " " (t' :: ts)))
      with (t :: split_ws true "" (join " " (t' :: ts))).
    now rewrite IH.
Qed.

Lemma plain_items (ts : list string) :
  Forall plain ts → quoted_items ts = [] ∧ unquoted_items ts = ts.
Proof.
  intros Hall.
  assert (all_chars no_dquote (join " " ts) = true) as Hq.
  { apply all_chars_join; [reflexivity|].
    eapply Forall_impl; [exact Hall|]. intros t [_ Ht].
    now apply plain_no_dquote. }
  split; [now apply QUOTED_RE_findall_no_dquote|].
  unfold unquoted_items.
  rewrite (QUOTED_RE_sub_space_no_dquote _ Hq), (strip_join ts Hall).
  destruct ts as [|t ts]; [reflexivity|].
  unfold re_split_ws. rewrite (split_ws_join false t ts Hall).
  clear Hq. induction Hall as [|x l [Hx _] Hl IH]; [reflexivity|].
  simpl. rewrite IH. now destruct x.
Qed.

Lemma directive_Some (s n : string) (a a' : acc) :
  directive s n a = Some a' → is_directive s n = true.
Proof.
  unfold directive, is_directive.
  destruct (or_match (EXT_RE_match s) (EXT_RE_match n)); [reflexivity|].
  now destruct (or_match (TYPE_RE_match s) (TYPE_RE_match n)).
Qed.

Lemma fold_unquoted_tokens (cs : bool) (l : list string) (a : acc) :
  Forall (λ t, all_chars no_space t = true) l →
  let a' := fold_left (unquoted_step cs) l a in
  a_filenames a' = a_filenames a ∧ a_stems a' = a_stems a ∧
  a_tokens a' =
    a_tokens a ++
    ((λ t, _norm t cs) <$>
       List.filter (λ t, negb (is_directive t (_norm t cs))) l).
Proof.
  intros Hall. revert a.
  induction Hall as [|t l Ht Hl IH]; intros a; simpl.
  - now rewrite app_nil_r.
  - destruct (IH (unquoted_step cs a t)) as (-> & -> & ->).
    unfold unquoted_step. rewrite (strip_no_space t Ht).
    destruct (directive t (_norm t cs) a) as [a'|] eqn:Hd.
    + rewrite (directive_Some _ _ _ _ Hd). simpl.
      now apply directive_tokens in Hd as (-> & -> & ->).
    + assert (is_directive t (_norm t cs) = false) as ->.
      { destruct (is_directive t (_norm t cs)) eqn:E; [|reflexivity].
        unfold is_directive in E. unfold directive in Hd.
        destruct (or_match (EXT_RE_match t) _); [discriminate|].
        destruct (or_match (TYPE_RE_match t) _); discriminate. }
      simpl. now rewrite <- app_assoc.
Qed.

(** X8: arguments without white space and without double quotes come
    back from the join and the split as they were given, none of them
    is a quoted item, and the parsed query holds no exact filename and no
    exact stem; its tokens are the arguments that are not directives, in
    order, normalised by the case flag, each kept once. *)
Theorem plain_arguments_become_tokens (argv_terms : list string) (cs : bool) :
  Forall plain argv_terms →
  quoted_items argv_terms = [] ∧ unquoted_items argv_terms = argv_terms ∧
  exact_filenames (parse_query argv_terms cs) = [] ∧
  exact_stems (parse_query argv_terms cs) = [] ∧
  tokens (parse_query argv_terms cs)
  = dedup ((λ t, _norm t cs) <$>
             List.filter (λ t, negb (is_directive t (_norm t cs))) argv_terms).
Proof.
  intros Hall. destruct (plain_items argv_terms Hall) as [Hq Hu].
  split; [assumption|]. split; [assumption|].
  unfold parse_query, parse_acc. rewrite Hq, Hu. simpl.
  destruct (fold_unquoted_tokens cs argv_terms acc0) as (-> & -> & ->).
  { eapply Forall_impl; [exact Hall|]. intros t [_ Ht].
    now apply plain_no_space. }
  now split.
Qed.

(** *** One quoted text *)

Lemma span_until (p : ascii → bool) (s : string) (c : ascii) (r : string) :
  all_chars p s = true → p c = false →
  span p (s +:+ String c r) = (s, String c r).
Proof.
  intros Hs Hc. induction s as [|x s IH].
  - change (span p (String c r) = ("", String c r)). simpl. now rewrite Hc.
  - simpl in Hs. apply andb_true_iff in Hs as [Hx Hs].
    rewrite append_cons. simpl. now rewrite Hx, (IH Hs).
Qed.

Lemma span_all (p : ascii → bool) (s : string) :
  all_chars p s = true → span p s = (s, "").
Proof.
  induction s as [|x s IH]; [reflexivity|]. simpl.
  rewrite andb_true_iff. intros [-> Hs]. now rewrite (IH Hs).
Qed.

Lemma QUOTED_RE_scan_skip (t r : string) (k : nat) :
  QUOTED_RE_scan (String.length t + k) (t +:+ r) = QUOTED_RE_scan k r.
Proof. induction t as [|c t IH]; [reflexivity|exact IH]. Qed.

Lemma QUOTED_RE_scan_in_quotes (s : string) :
  s ≠ "" → all_chars no_dquote s = true →
  QUOTED_RE_scan O (in_quotes s) = [Quoted s].
Proof.
  intros Hne Hs. unfold in_quotes.
  change (QUOTED_RE_scan O (String dquote (s +:+ String dquote "")))
    with (match QUOTED_RE_match_at (String dquote (s +:+ String dquote "")) with
          | Some body =>
              Quoted body
              :: QUOTED_RE_scan (S (String.length body))
                   (s +:+ String dquote "")
          | None => Lit dquote :: QUOTED_RE_scan O (s +:+ String dquote "")
          end).
  assert (QUOTED_RE_match_at (String dquote (s +:+ String dquote ""))
          = Some s) as ->.
  { unfold QUOTED_RE_match_at.
    change (is_dquote dquote) with true. cbv iota.
    change (λ x, negb (is_dquote x)) with no_dquote.
    rewrite (span_until no_dquote s dquote "" Hs eq_refl).
    now destruct s. }
  f_equal.
  replace (S (String.length s)) with (String.length s + 1)%nat by lia.
  now rewrite QUOTED_RE_scan_skip.
Qed.

Lemma dedup_singleton (x : string) : dedup [x] = [x].
Proof.
  unfold dedup. simpl. destruct (decide (x ∈ (∅ : gset string))) as [H|H];
    [|reflexivity].
  now apply not_elem_of_empty in H.
Qed.

Lemma in_quotes_items (s : string) :
  s ≠ "" → all_chars no_dquote s = true →
  quoted_items [in_quotes s] = [s] ∧ unquoted_items [in_quotes s] = [].
Proof.
  intros Hne Hs. split.
  - unfold quoted_items, QUOTED_RE_findall.
    change (join " " [in_quotes s]) with (in_quotes s).
    now rewrite QUOTED_RE_scan_in_quotes.
  - unfold unquoted_items, QUOTED_RE_sub_space.
    change (join " " [in_quotes s]) with (in_quotes s).
    now rewrite QUOTED_RE_scan_in_quotes.
Qed.

Lemma parse_query_in_quotes (s : string) (cs : bool) :
  s ≠ "" → all_chars no_dquote s = true →
  is_directive (strip s) (_norm (strip s) cs) = false →
  parse_query [in_quotes s] cs
  = match classify (strip s) with
    | (ExactFilename, x) => mkParsedQuery [_norm x cs] [] [] [] cs
    | (ExactStem, x) => mkParsedQuery [] [_norm x cs] [] [] cs
    end.
Proof.
  intros Hne Hs Hd. destruct (in_quotes_items s Hne Hs) as [Hq Hu].
  unfold parse_query, parse_acc. rewrite Hq, Hu. simpl.
  unfold quoted_step, classify. rewrite (directive_None _ _ acc0 Hd).
  destruct (has_sep (strip s));
    [|destruct (contains "." (strip s) && negb (startswith "." (strip s)))];
    simpl; now rewrite dedup_singleton.
Qed.

Lemma parse_query_plain_token (t : string) (cs : bool) :
  plain t → is_directive t (_norm t cs) = false →
  parse_query [t] cs = mkParsedQuery [] [] [] [_norm t cs] cs.
Proof.
  intros Hp Hd.
  destruct (plain_items [t]) as [Hq Hu]; [now constructor|].
  unfold parse_query, parse_acc. rewrite Hq, Hu. simpl.
  unfold unquoted_step.
  rewrite (strip_no_space _ (plain_no_space _ (proj2 Hp))).
  rewrite (directive_None _ _ acc0 Hd). simpl.
  now rewrite dedup_singleton.
Qed.

(** X9: a text put between double quotes comes back from the parser as
    the one quoted item, with nothing left outside the quotes, provided
    it is not empty and holds no double quote itself; when it is not a
    directive the parsed query is exactly the one exact filename, or the
    one exact stem, that the text is classified as. *)
Theorem quoted_text_round_trip (s : string) (cs : bool) :
  s ≠ "" → all_chars no_dquote s = true →
  quoted_items [in_quotes s] = [s] ∧
  unquoted_items [in_quotes s] = [] ∧
  (is_directive (strip s) (_norm (strip s) cs) = false →
   parse_query [in_quotes s] cs
   = match classify (strip s) with
     | (ExactFilename, x) => mkParsedQuery [_norm x cs] [] [] [] cs
     | (ExactStem, x) => mkParsedQuery [] [_norm x cs] [] [] cs
     end).
Proof.
  intros Hne Hs. destruct (in_quotes_items s Hne Hs) as [Hq Hu].
  split; [assumption|]. split; [assumption|].
  now apply parse_query_in_quotes.
Qed.

(** *** Blank arguments *)

Lemma isspace_no_dquote (c : ascii) : isspace c = true → no_dquote c = true.
Proof.
  destruct c as [[] [] [] [] [] [] [] []]; intros H; try reflexivity;
    discriminate.
Qed.

Lemma lstrip_blank (s : string) : all_chars isspace s = true → lstrip s = "".
Proof.
  induction s as [|c s IH]; [reflexivity|]. simpl.
  rewrite andb_true_iff. intros [-> Hs]. auto.
Qed.

(** X10: arguments made of white space only (no argument at all, or
    empty ones, included) parse to the empty query: no exact name, no
    extension, no token. *)
Theorem blank_arguments_parse_to_nothing
  (argv_terms : list string) (cs : bool) :
  Forall blank argv_terms → parse_query argv_terms cs = empty_query cs.
Proof.
  intros Hall.
  assert (all_chars isspace (join " " argv_terms) = true) as Hj
    by (now apply all_chars_join).
  assert (all_chars no_dquote (join " " argv_terms) = true) as Hq
    by (revert Hj; apply all_chars_impl, isspace_no_dquote).
  unfold parse_query, parse_acc, quoted_items, unquoted_items.
  rewrite (QUOTED_RE_findall_no_dquote _ Hq).
  rewrite (QUOTED_RE_sub_space_no_dquote _ Hq).
  unfold strip. rewrite (lstrip_blank _ Hj). reflexivity.
Qed.

(** *** A [type:] directive for a group that does not exist *)

Lemma is_word_plain (c : ascii) : is_word c = true → plain_char c = true.
Proof.
  destruct c as [[] [] [] [] [] [] [] []]; intros H; try reflexivity;
    discriminate.
Qed.

Lemma is_word_lower_char (c : ascii) : is_word (lower_char c) = is_word c.
Proof. destruct c as [[] [] [] [] [] [] [] []]; reflexivity. Qed.

(** X11: a [type:] directive that names no group of [TYPE_GROUPS] is
    dropped without a trace: the argument is not kept as a token and adds
    no extension, so the query parses as if it had not been given. *)
Theorem unknown_type_is_dropped (w : string) (cs : bool) :
  w ≠ "" → all_chars is_word w = true →
  TYPE_GROUPS !! lower w = None →
  parse_query ["type:" +:+ w] cs = empty_query cs.
Proof.
  intros Hne Hw Hkey.
  assert (plain ("type:" +:+ w)) as Hp.
  { split; [discriminate|]. rewrite all_chars_app.
    apply andb_true_iff. split; [reflexivity|].
    revert Hw. apply all_chars_impl, is_word_plain. }
  destruct (plain_items ["type:" +:+ w]) as [Hq Hu];
    [now constructor|].
  unfold parse_query, parse_acc. rewrite Hq, Hu. simpl.
  unfold unquoted_step.
  rewrite (strip_no_space _ (plain_no_space _ (proj2 Hp))).
  assert (directive ("type:" +:+ w) (_norm ("type:" +:+ w) cs) acc0
          = Some (mkAcc [] [] (∅ ∪ set_map _normalize_ext
                                     (_expand_type_to_exts w)) [])) as ->.
  { unfold directive.
    assert (EXT_RE_match ("type:" +:+ w) = None) as -> by reflexivity.
    assert (EXT_RE_match (_norm ("type:" +:+ w) cs) = None) as ->
      by (destruct cs; reflexivity).
    assert (TYPE_RE_match ("type:" +:+ w) = Some w) as ->; [|reflexivity].
    unfold TYPE_RE_match.
    change (match_literal_ci "type:" ("type:" +:+ w)) with (Some w).
    cbv iota. rewrite (span_all is_word w Hw). now destruct w. }
  simpl. unfold _expand_type_to_exts. rewrite Hkey. simpl.
  assert (∅ ∪ set_map _normalize_ext (∅ : gset string) = (∅ : gset string))
    as -> by set_solver.
  reflexivity.
Qed.

End WordFacts.

(* ===================================================================== *)
(** ** Case folding and the parser *)
(* ===================================================================== *)

Section FoldFacts.
Import PyStr Re Query.

Lemma lower_app (a b : string) : lower (a +:+ b) = lower a +:+ lower b.
Proof.
  induction a as [|c a IH]; [reflexivity|].
  rewrite append_cons. simpl. now rewrite IH.
Qed.

Lemma lower_join (l : list string) :
  join " " (lower <$> l) = lower (join " " l).
Proof.
  induction l as [|x l IH]; [reflexivity|].
  destruct l as [|y l]; [reflexivity|].
  change (lower <$> x :: y :: l) with (lower x :: lower y :: (lower <$> l)).
  rewrite !join_cons, !lower_app.
  change (lower y :: (lower <$> l)) with (lower <$> y :: l).
  now rewrite IH.
Qed.

Lemma lower_length (s : string) : String.length (lower s) = String.length s.
Proof. induction s as [|c s IH]; simpl; congruence. Qed.

Lemma lower_is_empty (s : string) : is_empty (lower s) = is_empty s.
Proof. now destruct s. Qed.

Lemma span_lower (p : ascii → bool) (s : string) :
  (∀ c, p (lower_char c) = p c) →
  span p (lower s) = (lower (span p s).1, lower (span p s).2).
Proof.
  intros Hp. induction s as [|c s IH]; [reflexivity|].
  simpl. rewrite Hp. destruct (p c); [|reflexivity].
  rewrite IH. now destruct (span p s).
Qed.

Lemma no_dquote_lower_char (c : ascii) :
  negb (is_dquote (lower_char c)) = negb (is_dquote c).
Proof. now rewrite is_dquote_lower_char. Qed.

Lemma QUOTED_RE_match_at_lower (s : string) :
  QUOTED_RE_match_at (lower s) = lower <$> QUOTED_RE_match_at s.
Proof.
  destruct s as [|c t]; [reflexivity|].
  simpl. rewrite is_dquote_lower_char.
  destruct (is_dquote c); [|reflexivity].
  rewrite (span_lower _ t no_dquote_lower_char).
  destruct (span (λ x, negb (is_dquote x)) t) as [[|x body] [|y rest]];
    reflexivity.
Qed.

Lemma QUOTED_RE_scan_lower (k : nat) (s : string) :
  QUOTED_RE_scan k (lower s) = lower_piece <$> QUOTED_RE_scan k s.
Proof.
  revert k. induction s as [|c s IH]; intros k; [reflexivity|].
  destruct k as [|k]; [|apply IH].
  change (QUOTED_RE_scan O (lower (String c s)))
    with (match QUOTED_RE_match_at (lower (String c s)) with
          | Some body =>
              Quoted body :: QUOTED_RE_scan (S (String.length body)) (lower s)
          | None => Lit (lower_char c) :: QUOTED_RE_scan O (lower s)
          end).
  change (QUOTED_RE_scan O (String c s))
    with (match QUOTED_RE_match_at (String c s) with
          | Some body =>
              Quoted body :: QUOTED_RE_scan (S (String.length body)) s
          | None => Lit c :: QUOTED_RE_scan O s
          end).
  rewrite QUOTED_RE_match_at_lower.
  destruct (QUOTED_RE_match_at (String c s)) as [body|]; simpl.
  - now rewrite lower_length, IH.
  - now rewrite IH.
Qed.

Lemma QUOTED_RE_findall_lower (s : string) :
  QUOTED_RE_findall (lower s) = lower <$> QUOTED_RE_findall s.
Proof.
  unfold QUOTED_RE_findall. rewrite QUOTED_RE_scan_lower.
  induction (QUOTED_RE_scan O s) as [|[c|body] l IH]; [reflexivity| |].
  - exact IH.
  - simpl. f_equal. exact IH.
Qed.

Lemma lower_string_of_list_ascii (l : list ascii) :
  lower (string_of_list_ascii l) = string_of_list_ascii (List.map lower_char l).
Proof. induction l as [|c l IH]; simpl; congruence. Qed.

Lemma QUOTED_RE_sub_space_lower (s : string) :
  QUOTED_RE_sub_space (lower s) = lower (QUOTED_RE_sub_space s).
Proof.
  unfold QUOTED_RE_sub_space.
  rewrite QUOTED_RE_scan_lower, lower_string_of_list_ascii. f_equal.
  induction (QUOTED_RE_scan O s) as [|[c|body] l IH]; [reflexivity| |];
    simpl; f_equal; exact IH.
Qed.

Lemma lstrip_lower (s : string) : lstrip (lower s) = lower (lstrip s).
Proof.
  induction s as [|c s IH]; [reflexivity|].
  simpl. rewrite isspace_lower_char. now destruct (isspace c).
Qed.

Lemma rstrip_lower (s : string) : rstrip (lower s) = lower (rstrip s).
Proof.
  induction s as [|c s IH]; [reflexivity|].
  simpl. rewrite isspace_lower_char, IH, lower_is_empty.
  now destruct (isspace c && is_empty (rstrip s)).
Qed.

Lemma strip_lower (s : string) : strip (lower s) = lower (strip s).
Proof. unfold strip. now rewrite lstrip_lower, rstrip_lower. Qed.

Lemma split_ws_lower (b : bool) (cur s : string) :
  split_ws b (lower cur) (lower s) = lower <$> split_ws b cur s.
Proof.
  revert b cur. induction s as [|c s IH]; intros b cur; [reflexivity|].
  simpl. rewrite isspace_lower_char.
  destruct (isspace c).
  - destruct b; [apply IH|]. simpl. f_equal. apply (IH true "").
  - rewrite <- IH, lower_app. reflexivity.
Qed.

Lemma filter_lower (l : list string) :
  List.filter (λ t, negb (is_empty t)) (lower <$> l)
  = lower <$> List.filter (λ t, negb (is_empty t)) l.
Proof.
  induction l as [|x l IH]; [reflexivity|].
  simpl. rewrite lower_is_empty.
  destruct (is_empty x); simpl; [exact IH|]. f_equal. exact IH.
Qed.

Lemma quoted_items_lower (argv_terms : list string) :
  quoted_items (lower <$> argv_terms) = lower <$> quoted_items argv_terms.
Proof.
  unfold quoted_items. now rewrite lower_join, QUOTED_RE_findall_lower.
Qed.

Lemma unquoted_items_lower (argv_terms : list string) :
  unquoted_items (lower <$> argv_terms) = lower <$> unquoted_items argv_terms.
Proof.
  unfold unquoted_items, re_split_ws.
  rewrite lower_join, QUOTED_RE_sub_space_lower, strip_lower.
  rewrite (split_ws_lower false ""). apply filter_lower.
Qed.

(** *** The two directive patterns ignore case *)

Lemma eqb_dot_lower (c : ascii) :
  Ascii.eqb (lower_char c) "."%char = Ascii.eqb c "."%char.
Proof. destruct c as [[] [] [] [] [] [] [] []]; reflexivity. Qed.

Lemma eqb_newline_lower (c : ascii) :
  Ascii.eqb (lower_char c) newline = Ascii.eqb c newline.
Proof. destruct c as [[] [] [] [] [] [] [] []]; reflexivity. Qed.

Lemma eqb_slash_lower (c : ascii) :
  Ascii.eqb (lower_char c) "/"%char = Ascii.eqb c "/"%char.
Proof. destruct c as [[] [] [] [] [] [] [] []]; reflexivity. Qed.

Lemma eqb_backslash_lower (c : ascii) :
  Ascii.eqb (lower_char c) "\"%char = Ascii.eqb c "\"%char.
Proof. destruct c as [[] [] [] [] [] [] [] []]; reflexivity. Qed.

Lemma is_alnum_lower_char (c : ascii) : is_alnum (lower_char c) = is_alnum c.
Proof. destruct c as [[] [] [] [] [] [] [] []]; reflexivity. Qed.

Lemma match_literal_ci_lower (lit s : string) :
  match_literal_ci lit (lower s) = lower <$> match_literal_ci lit s.
Proof.
  revert s. induction lit as [|a lit IH]; intros s; [now destruct s|].
  destruct s as [|c s]; [reflexivity|].
  simpl. rewrite lower_char_idem.
  destruct (Ascii.eqb (lower_char c) a); [apply IH|reflexivity].
Qed.

Lemma at_dollar_lower (r : string) : at_dollar (lower r) = at_dollar r.
Proof.
  destruct r as [|c [|d r]]; try reflexivity.
  simpl. apply eqb_newline_lower.
Qed.

Lemma EXT_RE_match_lower (s : string) :
  EXT_RE_match (lower s) = lower <$> EXT_RE_match s.
Proof.
  unfold EXT_RE_match. rewrite match_literal_ci_lower.
  destruct (match_literal_ci "ext:" s) as [[|c t]|]; try reflexivity.
  simpl. rewrite eqb_dot_lower.
  destruct (Ascii.eqb c "."%char); [|reflexivity].
  rewrite (span_lower is_alnum t is_alnum_lower_char).
  destruct (span is_alnum t) as [body rest]. simpl.
  rewrite lower_is_empty, at_dollar_lower.
  now destruct (negb (is_empty body) && at_dollar rest).
Qed.

Lemma TYPE_RE_match_lower (s : string) :
  TYPE_RE_match (lower s) = lower <$> TYPE_RE_match s.
Proof.
  unfold TYPE_RE_match. rewrite match_literal_ci_lower.
  destruct (match_literal_ci "type:" s) as [t|]; [|reflexivity].
  simpl. rewrite (span_lower is_word t is_word_lower_char).
  destruct (span is_word t) as [body rest]. simpl.
  rewrite lower_is_empty, at_dollar_lower.
  now destruct (negb (is_empty body) && at_dollar rest).
Qed.

Lemma _normalize_ext_of_lower (g : string) :
  _normalize_ext (lower g) = _normalize_ext g.
Proof. unfold _normalize_ext. now rewrite strip_lower, lower_idem. Qed.

Lemma _expand_type_to_exts_of_lower (g : string) :
  _expand_type_to_exts (lower g) = _expand_type_to_exts g.
Proof. unfold _expand_type_to_exts. now rewrite lower_idem. Qed.

Lemma directive_lower (s : string) (a : acc) :
  directive (lower s) (lower s) a = directive s (lower s) a.
Proof.
  unfold directive. rewrite EXT_RE_match_lower, TYPE_RE_match_lower.
  destruct (EXT_RE_match s) as [g|]; simpl.
  { now rewrite _normalize_ext_of_lower. }
  destruct (TYPE_RE_match s) as [g|]; simpl; [|reflexivity].
  now rewrite _expand_type_to_exts_of_lower.
Qed.

(** *** The tests on a quoted text ignore case *)

Lemma prefix_char_lower (x : ascii) (s : string) :
  (∀ c, Ascii.eqb (lower_char c) x = Ascii.eqb c x) →
  String.prefix (String x "") (lower s) = String.prefix (String x "") s.
Proof.
  intros Hx. destruct s as [|c s]; [reflexivity|]. simpl.
  specialize (Hx c).
  destruct (ascii_dec x (lower_char c)) as [E1|E1],
           (ascii_dec x c) as [E2|E2]; try reflexivity.
  - now destruct s.
  - rewrite <- E1, Ascii.eqb_refl in Hx. symmetry in Hx.
    apply Ascii.eqb_eq in Hx. congruence.
  - rewrite <- E2, Ascii.eqb_refl in Hx.
    apply Ascii.eqb_eq in Hx. congruence.
Qed.

Lemma contains_char_lower (x : ascii) (s : string) :
  (∀ c, Ascii.eqb (lower_char c) x = Ascii.eqb c x) →
  contains (String x "") (lower s) = contains (String x "") s.
Proof.
  intros Hx. induction s as [|c s IH]; [reflexivity|].
  change (contains (String x "") (lower (String c s)))
    with (String.prefix (String x "") (lower (String c s))
          || contains (String x "") (lower s)).
  change (contains (String x "") (String c s))
    with (String.prefix (String x "") (String c s)
          || contains (String x "") s).
  now rewrite IH, (prefix_char_lower x (String c s) Hx).
Qed.

Lemma has_sep_lower (s : string) : has_sep (lower s) = has_sep s.
Proof.
  unfold has_sep.
  now rewrite (contains_char_lower _ s eqb_slash_lower),
              (contains_char_lower _ s eqb_backslash_lower).
Qed.

Lemma split_on_lower (sep : ascii) (cur s : string) :
  (∀ c, Ascii.eqb (lower_char c) sep = Ascii.eqb c sep) →
  split_on sep (lower cur) (lower s) = lower <$> split_on sep cur s.
Proof.
  intros Hsep. revert cur. induction s as [|c s IH]; intros cur;
    [reflexivity|].
  simpl. rewrite Hsep. destruct (Ascii.eqb c sep).
  - simpl. f_equal. apply (IH "").
  - rewrite <- IH, lower_app. reflexivity.
Qed.

Lemma last_lower (l : list string) (d : string) :
  List.last (lower <$> l) (lower d) = lower (List.last l d).
Proof.
  induction l as [|x l IH]; [reflexivity|].
  destruct l as [|y l]; [reflexivity|]. exact IH.
Qed.

Lemma split_lower (sep : ascii) (s : string) :
  (∀ c, Ascii.eqb (lower_char c) sep = Ascii.eqb c sep) →
  split sep (lower s) = lower <$> split sep s.
Proof. intros Hsep. apply (split_on_lower sep "" s Hsep). Qed.

Lemma last_lower_empty (l : list string) :
  List.last (lower <$> l) "" = lower (List.last l "").
Proof. apply (last_lower l ""). Qed.

Lemma final_segment_lower (s : string) :
  final_segment (lower s) = lower (final_segment s).
Proof.
  unfold final_segment.
  rewrite (split_lower _ s eqb_slash_lower), last_lower_empty.
  now rewrite (split_lower _ _ eqb_backslash_lower), last_lower_empty.
Qed.

Lemma quoted_step_lower (a : acc) (raw : string) :
  quoted_step false a (lower raw) = quoted_step false a raw.
Proof.
  unfold quoted_step, _norm. rewrite strip_lower, lower_idem, directive_lower.
  destruct (directive (strip raw) (lower (strip raw)) a); [reflexivity|].
  rewrite has_sep_lower, final_segment_lower, lower_idem.
  rewrite (contains_char_lower _ _ eqb_dot_lower).
  unfold startswith. now rewrite (prefix_char_lower _ _ eqb_dot_lower).
Qed.

Lemma unquoted_step_lower (a : acc) (raw : string) :
  unquoted_step false a (lower raw) = unquoted_step false a raw.
Proof.
  unfold unquoted_step, _norm.
  now rewrite strip_lower, lower_idem, directive_lower.
Qed.

Lemma fold_left_lower (f : acc → string → acc) (l : list string) (a : acc) :
  (∀ a x, f a (lower x) = f a x) →
  fold_left f (lower <$> l) a = fold_left f l a.
Proof.
  intros Hf. revert a. induction l as [|x l IH]; intros a; [reflexivity|].
  simpl. now rewrite Hf, <- IH.
Qed.

(** X12: on arguments whose characters are code points 0..255, and
    without the case-sensitive flag, the parser does not see the case of
    its arguments: the arguments in lower case are parsed to the same
    query as the arguments as typed, quoted text, directives and tokens
    alike.  Nothing is said of arguments with characters beyond that
    range. *)
Theorem parse_query_ignores_case (argv_terms : list string) :
  Forall latin1 argv_terms →
  parse_query (lower <$> argv_terms) false = parse_query argv_terms false.
Proof.
  intros _.
  unfold parse_query, parse_acc.
  rewrite quoted_items_lower, unquoted_items_lower.
  rewrite (fold_left_lower _ (unquoted_items argv_terms) _ unquoted_step_lower).
  rewrite (fold_left_lower _ (quoted_items argv_terms) _ quoted_step_lower).
  reflexivity.
Qed.

End FoldFacts.

Section WordSamples.
Import PyStr Re Query.

Lemma parse_query_ignores_case_witness :
  let argv_terms :=
    ["Budget"; "EXT:.PDF"; "Type:Image"; in_quotes "Final Report.DOCX";
     String (ascii_of_N 201) "T" +:+ String (ascii_of_N 201) ".Txt"] in
  Forall latin1 argv_terms ∧
  and_extensions (parse_query argv_terms false) ≠ [] ∧
  parse_query (lower <$> argv_terms) false = parse_query argv_terms false.
Proof.
  assert (Forall latin1
            ["Budget"; "EXT:.PDF"; "Type:Image"; in_quotes "Final Report.DOCX";
             String (ascii_of_N 201) "T" +:+ String (ascii_of_N 201) ".Txt"])
    as Hdomain by (repeat (constructor; [reflexivity|]); constructor).
  split; [exact Hdomain|]. split; [vm_compute; discriminate|].
  exact (parse_query_ignores_case _ Hdomain).
Defined.

Lemma plain_arguments_become_tokens_witness :
  let argv_terms := ["Report"; "ext:.PDF"; "report"; "2024"] in
  quoted_items argv_terms = [] ∧ unquoted_items argv_terms = argv_terms ∧
  exact_filenames (parse_query argv_terms false) = [] ∧
  exact_stems (parse_query argv_terms false) = [] ∧
  tokens (parse_query argv_terms false)
  = dedup ((λ t, _norm t false) <$>
             List.filter (λ t, negb (is_directive t (_norm t false)))
                         argv_terms).
Proof.
  apply (plain_arguments_become_tokens
           ["Report"; "ext:.PDF"; "report"; "2024"] false).
  repeat (constructor; [split; [discriminate|reflexivity]|]). constructor.
Defined.

Lemma quoted_text_round_trip_witness :
  quoted_items [in_quotes "My Notes.txt"] = ["My Notes.txt"] ∧
  unquoted_items [in_quotes "My Notes.txt"] = [] ∧
  (is_directive (strip "My Notes.txt") (_norm (strip "My Notes.txt") false)
   = false →
   parse_query [in_quotes "My Notes.txt"] false
   = match classify (strip "My Notes.txt") with
     | (ExactFilename, x) => mkParsedQuery [_norm x false] [] [] [] false
     | (ExactStem, x) => mkParsedQuery [] [_norm x false] [] [] false
     end).
Proof.
  apply (quoted_text_round_trip "My Notes.txt" false);
    [discriminate|reflexivity].
Defined.

Lemma blank_arguments_parse_to_nothing_witness :
  parse_query [""; "  "; String newline ""] true = empty_query true.
Proof.
  apply (blank_arguments_parse_to_nothing [""; "  "; String newline ""] true).
  repeat (constructor; [reflexivity|]). constructor.
Defined.

Lemma unknown_type_is_dropped_witness :
  parse_query ["type:" +:+ "movie"] false = empty_query false.
Proof.
  apply (unknown_type_is_dropped "movie" false);
    [discriminate|reflexivity|vm_compute; reflexivity].
Defined.

End WordSamples.

(* ===================================================================== *)
(** ** What the traversal yields *)
(* ===================================================================== *)

Section BelowFacts.
Import Utils.

Variable follow_symlinks : bool.
Variable max_depth : option Z.
Variable exclude_dirs : gset string.

Lemma visit_entry_yield (depth : Z) (entry : DirEntry) (sub : Dir) (p : Path) :
  (visit_entry follow_symlinks max_depth exclude_dirs depth entry sub).2
  = Some p ↔
  yielded follow_symlinks entry ∧ p = e_path entry.
Proof.
  unfold visit_entry, yielded.
  destruct (e_is_dir entry follow_symlinks) as [[|]|e]; simpl.
  - destruct (bool_decide _);
      [|destruct max_depth as [m|]; [destruct (depth + 1 <=? m)|]];
      simpl; (split; [discriminate|intros [[? _] _]; discriminate]).
  - destruct (e_is_file entry follow_symlinks) as [[|]|e]; simpl.
    + split; [intros [= <-]; auto|]. now intros [_ ->].
    + destruct follow_symlinks; simpl.
      * destruct (e_is_symlink entry) as [[|]|e]; simpl.
        -- split; [intros [= <-]; auto 6|]. now intros [_ ->].
        -- split; [discriminate|].
           intros [[_ [?|(_ & _ & ?)]] _]; discriminate.
        -- split; [discriminate|].
           intros [[_ [?|(_ & _ & ?)]] _]; discriminate.
      * split; [discriminate|].
        intros [[_ [?|(_ & ? & _)]] _]; discriminate.
    + split; [discriminate|]. intros [[_ [?|(? & _)]] _]; discriminate.
  - split; [discriminate|]. intros [[? _] _]; discriminate.
Qed.

Lemma visit_entry_descend (depth : Z) (entry : DirEntry) (sub : Dir)
  (x : Dir * Z) :
  (visit_entry follow_symlinks max_depth exclude_dirs depth entry sub).1
  = Some x ↔
  entered follow_symlinks exclude_dirs entry ∧
  match max_depth with None => True | Some m => depth + 1 ≤ m end ∧
  x = (sub, depth + 1).
Proof.
  unfold visit_entry, entered.
  destruct (e_is_dir entry follow_symlinks) as [[|]|e]; simpl.
  - destruct (bool_decide (e_name entry ∈ exclude_dirs)) eqn:Hex.
    + apply bool_decide_eq_true in Hex. simpl.
      split; [discriminate|]. intros [[_ ?] _]. contradiction.
    + apply bool_decide_eq_false in Hex.
      destruct max_depth as [m|]; simpl.
      * destruct (depth + 1 <=? m) eqn:Hm; simpl.
        -- apply Z.leb_le in Hm. split; [intros [= <-]; auto|].
           now intros (_ & _ & ->).
        -- apply Z.leb_gt in Hm. split; [discriminate|].
           intros (_ & ? & _). lia.
      * split; [intros [= <-]; auto|]. now intros (_ & _ & ->).
  - assert (∀ r : result (option (Dir * Z) * option Path),
              (∀ v, r = Ok v → v.1 = None) →
              match r with Ok v => v | Raise _ => (None, None) end.1
              = Some x ↔
              (Ok false = Ok true ∧ e_name entry ∉ exclude_dirs) ∧
              match max_depth with None => True | Some m => depth + 1 ≤ m end ∧
              x = (sub, depth + 1)) as Hnone.
    { intros r Hr. split.
      - destruct r as [v|e]; simpl; [|discriminate].
        rewrite (Hr v eq_refl). discriminate.
      - intros [[? _] _]. discriminate. }
    apply Hnone. intros v.
    destruct (e_is_file entry follow_symlinks) as [[|]|e]; simpl;
      [now intros [= <-]| |discriminate].
    destruct follow_symlinks; simpl; [|now intros [= <-]].
    destruct (e_is_symlink entry) as [[|]|e]; simpl;
      [now intros [= <-]|now intros [= <-]|discriminate].
  - split; [discriminate|]. intros [[? _] _]; discriminate.
Qed.

Lemma visit_entries_spec (depth : Z) (es : list (DirEntry * Dir))
  (stack : list (Dir * Z)) :
  (∀ p,
     p ∈ (visit_entries follow_symlinks max_depth exclude_dirs depth es
            stack).2 ↔
     ∃ entry sub, (entry, sub) ∈ es ∧
       (visit_entry follow_symlinks max_depth exclude_dirs depth entry sub).2
       = Some p) ∧
  (∀ x,
     x ∈ (visit_entries follow_symlinks max_depth exclude_dirs depth es
            stack).1 ↔
     x ∈ stack ∨
     ∃ entry sub, (entry, sub) ∈ es ∧
       (visit_entry follow_symlinks max_depth exclude_dirs depth entry sub).1
       = Some x).
Proof.
  revert stack. induction es as [|[entry sub] es IH]; intros stack.
  - simpl. split; intros x; split.
    + intros H. inversion H.
    + intros (? & ? & H & _). inversion H.
    + auto.
    + intros [H|(? & ? & H & _)]; [assumption|inversion H].
  - simpl.
    destruct (visit_entry follow_symlinks max_depth exclude_dirs depth entry
                sub) as [push y] eqn:Hv.
    set (stack' := match push with Some d => d :: stack | None => stack end).
    destruct (IH stack') as [IHy IHs].
    destruct (visit_entries follow_symlinks max_depth exclude_dirs depth es
                stack') as [stack'' ys].
    simpl in *.
    split.
    + intros p. split.
      * intros Hp.
        assert (y = Some p ∨ p ∈ ys) as [->|Hin].
        { destruct y as [p'|]; [|now right].
          apply elem_of_cons in Hp as [->|Hp]; auto. }
        -- exists entry, sub. rewrite Hv. split; [left|reflexivity].
        -- apply IHy in Hin as (e' & s' & Hin & Hy).
           exists e', s'. split; [now right|assumption].
      * intros (e' & s' & Hin & Hy).
        apply elem_of_cons in Hin as [[= -> ->]|Hin].
        -- rewrite Hv in Hy. simpl in Hy. subst y. left.
        -- assert (p ∈ ys) as Hp by (apply IHy; eauto).
           destruct y; [now right|assumption].
    + intros x. rewrite IHs. split.
      * intros [Hx|(e' & s' & Hin & Hx)].
        -- subst stack'. destruct push as [d|]; [|now left].
           apply elem_of_cons in Hx as [->|Hx]; [|now left].
           right. exists entry, sub. rewrite Hv. split; [left|reflexivity].
        -- right. exists e', s'. split; [now right|assumption].
      * intros [Hx|(e' & s' & Hin & Hx)].
        -- left. subst stack'. destruct push; [now right|assumption].
        -- apply elem_of_cons in Hin as [[= -> ->]|Hin].
           ++ rewrite Hv in Hx. simpl in Hx. subst push. left. left.
           ++ right. eauto.
Qed.

Lemma below_listed (n : nat) (es : list (DirEntry * Dir)) (p : Path) :
  below follow_symlinks exclude_dirs n (mkDir (Ok es)) p ↔
  (n = O ∧ ∃ entry sub, (entry, sub) ∈ es ∧
     yielded follow_symlinks entry ∧ p = e_path entry) ∨
  (∃ j entry sub, n = S j ∧ (entry, sub) ∈ es ∧
     entered follow_symlinks exclude_dirs entry ∧
     below follow_symlinks exclude_dirs j sub p).
Proof.
  split.
  - inversion 1; subst; [left|right]; eauto 10.
  - intros [(-> & entry & sub & Hin & Hy & ->)
           |(j & entry & sub & -> & Hin & He & Hb)].
    + eapply below_here; eassumption.
    + eapply below_sub; eassumption.
Qed.

Lemma walk_below (w : nat) (stack : list (Dir * Z)) (p : Path) :
  (stack_weight stack ≤ w)%nat →
  p ∈ walk follow_symlinks max_depth exclude_dirs stack ↔
  ∃ d k n, (d, k) ∈ stack ∧ below follow_symlinks exclude_dirs n d p ∧
           fits max_depth k n.
Proof.
  revert stack. induction w as [|w IH]; intros stack Hw.
  { destruct stack as [|[d k] stack].
    - rewrite walk_nil. split; [intros H; inversion H|].
      intros (? & ? & ? & H & _). inversion H.
    - pose proof (dir_weight_pos d). simpl in Hw. lia. }
  destruct stack as [|[[[es|e]] k] stack].
  - rewrite walk_nil. split; [intros H; inversion H|].
    intros (? & ? & ? & H & _). inversion H.
  - change (stack_weight ((mkDir (Ok es), k) :: stack))
      with (S (entries_weight es + stack_weight stack)) in Hw.
    pose proof (visit_entries_weight follow_symlinks max_depth exclude_dirs
                  k es stack) as Hvw.
    destruct (visit_entries_spec k es stack) as [Hys Hst].
    rewrite walk_listed, elem_of_app, Hys, IH by lia. split.
    + intros [(entry & sub & Hin & Hy)|(d & k' & n & Hd & Hb & Hf)].
      * apply visit_entry_yield in Hy as [Hy ->].
        exists (mkDir (Ok es)), k, O.
        split; [left|]. split; [|now left].
        eapply below_here; eassumption.
      * apply Hst in Hd as [Hd|(entry & sub & Hin & Hd)].
        -- exists d, k', n. split; [now right|now split].
        -- apply visit_entry_descend in Hd as (He & Hm & [= -> ->]).
           exists (mkDir (Ok es)), k, (S n).
           split; [left|]. split; [eapply below_sub; eassumption|].
           right. destruct max_depth as [m|]; [|exact I].
           destruct Hf as [->|Hf]; lia.
    + intros (d & k' & n & Hd & Hb & Hf).
      apply elem_of_cons in Hd as [[= -> ->]|Hd].
      * apply below_listed in Hb
          as [(-> & entry & sub & Hin & Hy & ->)
             |(j & entry & sub & -> & Hin & He & Hb)].
        -- left. exists entry, sub. split; [assumption|].
           now apply visit_entry_yield.
        -- right. exists sub, (k + 1), j.
           assert (match max_depth with
                   | None => True | Some m => k + Z.of_nat (S j) ≤ m end)
             as Hm by (destruct Hf as [?|?]; [discriminate|assumption]).
           split; [|split; [assumption|]].
           ++ apply Hst. right. exists entry, sub. split; [assumption|].
              apply visit_entry_descend. split; [assumption|].
              split; [|reflexivity].
              destruct max_depth; [lia|exact I].
           ++ right. destruct max_depth; [lia|exact I].
      * right. exists d, k', n. split; [|now split].
        apply Hst. now left.
  - rewrite walk_unlistable. simpl in Hw. rewrite IH by lia. split.
    + intros (d & k' & n & Hd & Hb & Hf).
      exists d, k', n. split; [now right|now split].
    + intros (d & k' & n & Hd & Hb & Hf).
      apply elem_of_cons in Hd as [[= -> ->]|Hd]; [inversion Hb|].
      exists d, k', n. now split.
Qed.

Lemma _walk_scandir_below (root : Dir) (p : Path) :
  p ∈ _walk_scandir root follow_symlinks max_depth exclude_dirs ↔
  ∃ n, below follow_symlinks exclude_dirs n root p ∧ fits max_depth 0 n.
Proof.
  rewrite _walk_scandir_walk, (walk_below (stack_weight [(root, 0)])) by lia.
  split.
  - intros (d & k & n & Hd & Hb & Hf).
    apply list_elem_of_singleton in Hd as [= -> ->]. eauto.
  - intros (n & Hb & Hf). exists root, 0, n. split; [left|now split].
Qed.

(** With a depth limit of zero or less no directory is entered. *)
Lemma visit_entries_shallow (m depth : Z) (es : list (DirEntry * Dir))
  (stack : list (Dir * Z)) :
  m ≤ 0 → 0 ≤ depth →
  visit_entries follow_symlinks (Some m) exclude_dirs depth es stack
  = (stack,
     (visit_entries follow_symlinks (Some 0) exclude_dirs depth es stack).2) ∧
  (visit_entries follow_symlinks (Some 0) exclude_dirs depth es stack).1
  = stack.
Proof.
  intros Hm Hd. induction es as [|[entry sub] es IH]; [now split|].
  simpl.
  assert (visit_entry follow_symlinks (Some m) exclude_dirs depth entry sub
          = visit_entry follow_symlinks (Some 0) exclude_dirs depth entry sub
          ∧ (visit_entry follow_symlinks (Some 0) exclude_dirs depth entry
               sub).1 = None) as [-> Hnone].
  { unfold visit_entry.
    assert (depth + 1 <=? m = false) as -> by (apply Z.leb_gt; lia).
    assert (depth + 1 <=? 0 = false) as -> by (apply Z.leb_gt; lia).
    split; [reflexivity|].
    destruct (e_is_dir entry follow_symlinks) as [[|]|e]; simpl;
      [now destruct (bool_decide _)| |reflexivity].
    destruct (e_is_file entry follow_symlinks) as [[|]|e]; simpl;
      try reflexivity.
    destruct follow_symlinks; simpl; [|reflexivity].
    now destruct (e_is_symlink entry) as [[|]|e]. }
  destruct (visit_entry follow_symlinks (Some 0) exclude_dirs depth entry sub)
    as [push y].
  simpl in Hnone. subst push. destruct IH as [-> IH2].
  destruct (visit_entries follow_symlinks (Some 0) exclude_dirs depth es stack)
    as [stack0 ys].
  simpl in *. now subst stack0.
Qed.

Lemma walk_loop_shallow (m : Z) (fuel : nat) (stack : list (Dir * Z)) :
  m ≤ 0 → Forall (λ x, 0 ≤ x.2) stack →
  walk_loop follow_symlinks (Some m) exclude_dirs fuel stack
  = walk_loop follow_symlinks (Some 0) exclude_dirs fuel stack.
Proof.
  intros Hm. revert stack.
  induction fuel as [|fuel IH]; intros stack Hall; [reflexivity|].
  destruct stack as [|[[[es|e]] k] stack]; [reflexivity| |].
  - apply Forall_cons in Hall as [Hk Hall]. simpl in Hk. simpl.
    destruct (visit_entries_shallow m k es stack Hm Hk) as [-> Hst].
    destruct (visit_entries follow_symlinks (Some 0) exclude_dirs k es stack)
      as [stack0 ys].
    simpl in *. subst stack0. now rewrite IH.
  - apply Forall_cons in Hall as [_ Hall]. simpl. now apply IH.
Qed.

End BelowFacts.

Section IterFilesFacts.
Import Utils.

(** X13: what [iter_files] yields, as a set: the files that lie some
    number [n] of directories under a root that exists, every directory
    on the way listable, entered through an entry that [is_dir] accepts
    and whose name is not excluded, with [n] at most [max_depth] when one
    is given.  The files directly in a root are yielded whatever the
    depth limit, a negative one included; an entry is a file when
    [is_dir] denies it and [is_file] accepts it (or [is_symlink] does
    while links are followed); the root itself and the files are never
    tested against the excluded names. *)
Theorem iter_files_yields_the_files_below
  (roots : list Root) (fs : bool) (md : option Z) (ex : list string)
  (p : Path) :
  p ∈ iter_files roots fs md ex ↔
  ∃ r n, r ∈ roots ∧ root_exists r = true ∧
         below fs (list_to_set ex) n (root_dir r) p ∧ fits md 0 n.
Proof.
  induction roots as [|r rs IH]; simpl.
  - split; [intros H; inversion H|]. intros (? & ? & H & _). inversion H.
  - rewrite elem_of_app, IH. split.
    + intros [Hp|(r' & n & Hr & He & Hb & Hf)].
      * destruct (root_exists r) eqn:He; [|inversion Hp].
        apply _walk_scandir_below in Hp as (n & Hb & Hf).
        exists r, n. split; [left|]. now split.
      * exists r', n. split; [now right|]. now split.
    + intros (r' & n & Hr & He & Hb & Hf).
      apply elem_of_cons in Hr as [->|Hr].
      * left. rewrite He. apply _walk_scandir_below. eauto.
      * right. eauto 10.
Qed.

(** X14: the roots are walked one after the other: the files of a list
    of roots are the files of its first part followed by the files of
    the rest. *)
Theorem iter_files_app
  (roots1 roots2 : list Root) (fs : bool) (md : option Z) (ex : list string) :
  iter_files (roots1 ++ roots2) fs md ex
  = iter_files roots1 fs md ex ++ iter_files roots2 fs md ex.
Proof.
  induction roots1 as [|r rs IH]; [reflexivity|].
  simpl. now rewrite IH, app_assoc.
Qed.

(** X15: a depth limit below zero is a depth limit of zero: the files
    directly in each root are yielded, in the same order, and no
    directory is entered. *)
Theorem negative_max_depth_is_zero
  (roots : list Root) (fs : bool) (m : Z) (ex : list string) :
  m ≤ 0 →
  iter_files roots fs (Some m) ex = iter_files roots fs (Some 0) ex.
Proof.
  intros Hm. induction roots as [|r rs IH]; [reflexivity|].
  simpl. rewrite IH. f_equal.
  destruct (root_exists r); [|reflexivity].
  unfold _walk_scandir. apply walk_loop_shallow; [assumption|].
  constructor; [simpl; lia|constructor].
Qed.

End IterFilesFacts.

(* ===================================================================== *)
(** ** What every call of the search keeps to *)
(* ===================================================================== *)

Section BudgetFacts.
Import PyStr Query Utils Search.

Variable utf8_decode : list Byte.byte → result string.
Variable monotonic : nat → Z.
Variable as_completed : nat → list Future → list Future.
Variable query : ParsedQuery.
Variable opts : Options.

Lemma accepted_pend (sc : bool) (cands : list Path) (p : Path) :
  p ∈ accepted utf8_decode query opts sc cands →
  fid_of p ∈ pend (evaluate utf8_decode query opts sc <$> cands).
Proof.
  unfold accepted, pend. rewrite !list_elem_of_omap, elem_of_list_to_set.
  intros (f & Hf & Hp). apply list_elem_of_omap.
  exists f. split; [assumption|].
  destruct f as [[m|]|e]; try discriminate.
  simpl in *. now injection Hp as ->.
Qed.

Lemma idle_enabled_false :
  match idle_timeout_sec opts with Some t => t ≤ 0 | None => True end →
  idle_enabled opts = false.
Proof.
  unfold idle_enabled. destruct (idle_timeout_sec opts) as [t|]; [|reflexivity].
  intros Ht. apply andb_false_iff. right. apply Z.ltb_ge. exact Ht.
Qed.

(** X16: no call emits more than [max(1, limit)] results, the emitted
    counter is never negative, and the reason of the stop is [limit]
    exactly when the counter has reached [max(1, limit)]. *)
Theorem emitted_is_bounded_by_the_limit (roots : list Root) :
  fair_completion as_completed →
  ∃ o, search utf8_decode monotonic as_completed query opts roots = Ok o ∧
    0 ≤ emitted (returned o).2 ≤ Z.max 1 (limit opts) ∧
    (length (returned o).1 ≤ Z.to_nat (Z.max 1 (limit opts)))%nat ∧
    (stopped_reason (returned o).2 = limit_reached ↔
     emitted (returned o).2 = Z.max 1 (limit opts)).
Proof.
  intros Hfair. destruct (search_final utf8_decode monotonic as_completed
                            query opts roots Hfair) as (c & -> & Hc & _ & _).
  exists (outcome_of monotonic c). split; [reflexivity|]. simpl.
  pose proof (inv_count opts c Hc) as Hn.
  pose proof (inv_stopped opts c Hc) as Hs.
  pose proof (inv_running opts c Hc) as Hr.
  pose proof (inv_limit opts c Hc) as Hl.
  pose proof (inv_channel opts c Hc) as Hch.
  fold (cap opts).
  assert (emitted_count c ≤ cap opts) as Hle.
  { destruct (stop_event c); [destruct Hs as [_ Hs]; [reflexivity|lia]|].
    specialize (Hr eq_refl). lia. }
  split; [lia|]. split.
  - unfold emissions in Hn.
    destruct (stream_callback opts); [rewrite Hch; simpl; lia|].
    rewrite length_fmap in Hn. lia.
  - split.
    + intros Hlim. now destruct (Hs (Hl Hlim)).
    + intros Hcap. destruct (stop_event c); [now destruct Hs|].
      specialize (Hr eq_refl). lia.
Qed.

(** X17: an idle timeout that is absent, zero or negative switches the
    timer off: the call never stops with the reason [idle_timeout] and
    reports an idle time of zero. *)
Theorem idle_timer_off_never_times_out (roots : list Root) :
  fair_completion as_completed →
  match idle_timeout_sec opts with Some t => t ≤ 0 | None => True end →
  ∃ o, search utf8_decode monotonic as_completed query opts roots = Ok o ∧
    stopped_reason (returned o).2 ≠ idle_timeout ∧
    idle_time_sec (returned o).2 = 0.
Proof.
  intros Hfair Hoff. apply idle_enabled_false in Hoff.
  destruct (search_final utf8_decode monotonic as_completed
              query opts roots Hfair) as (c & -> & Hc & _ & _).
  exists (outcome_of monotonic c). split; [reflexivity|]. simpl.
  destruct (inv_timer opts c Hc Hoff) as [_ Hr].
  split; [assumption|]. now rewrite bool_decide_eq_false_2.
Qed.

(** X18: with the timer off and fewer distinct eligible files than
    [max(1, limit)], the call runs to completion and emits every eligible
    identity, once: the set of identities emitted is the set of eligible
    identities whatever the order in which the futures complete. *)
Theorem unhurried_search_finds_every_identity (roots : list Root) :
  fair_completion as_completed → clock_monotone monotonic →
  match idle_timeout_sec opts with Some t => t ≤ 0 | None => True end →
  Z.of_nat (size (eligible utf8_decode query opts roots))
    < Z.max 1 (limit opts) →
  ∃ o, search utf8_decode monotonic as_completed query opts roots = Ok o ∧
    stopped_reason (returned o).2 = complete ∧
    list_to_set (fid_of <$> emitted_paths o)
      = eligible utf8_decode query opts roots ∧
    emitted (returned o).2
      = Z.of_nat (size (eligible utf8_decode query opts roots)).
Proof.
  intros Hfair Hmono Hoff Hfew. apply idle_enabled_false in Hoff.
  destruct (search_final utf8_decode monotonic as_completed
              query opts roots Hfair) as (c & -> & Hc & Hdone & Hsub).
  exists (outcome_of monotonic c). split; [reflexivity|].
  rewrite (emitted_paths_outcome monotonic opts c Hc). simpl.
  pose proof (inv_seen opts c Hc) as Hseen.
  pose proof (seen_size opts c Hc) as Hsize.
  destruct (inv_timer opts c Hc Hoff) as [_ Hr].
  assert (seen_ids c ⊆ eligible utf8_decode query opts roots) as Hin.
  { rewrite Hseen. intros i Hi.
    apply elem_of_list_to_set, list_elem_of_fmap in Hi as (p & -> & Hp).
    apply accepted_pend, Hsub, Hp. }
  assert (stop_event c = false) as Hrun.
  { destruct (stop_event c) eqn:E; [|reflexivity].
    destruct (inv_stopped opts c Hc E) as [_ Hcap].
    apply subseteq_size in Hin. unfold cap in Hcap. lia. }
  destruct (Hdone Hmono Hrun Hr) as [Hcomplete Hall].
  assert (seen_ids c = eligible utf8_decode query opts roots) as Heq
    by (apply set_eq; intros i; split; [apply Hin|apply Hall]).
  split; [assumption|]. split; [now rewrite <- Hseen|].
  now rewrite <- Hsize, Heq.
Qed.

(** X19: a call with no candidate at all (no root, roots that do not
    exist, directories without files) returns at once: no result, no
    call of the callback, the reason [complete], an idle time of zero and
    as wall time the gap between the two readings of the clock it
    makes. *)
Theorem search_without_candidates (roots : list Root) :
  fair_completion as_completed →
  candidates opts roots = [] →
  search utf8_decode monotonic as_completed query opts roots
  = Ok (mkOutcome
          ([], mkSearchStats 0 (monotonic 1%nat - monotonic O) 0 complete) []).
Proof.
  intros Hfair Hnone. unfold search.
  fold (candidates opts roots). rewrite Hnone.
  destruct (scan_content opts); simpl; [|reflexivity].
  assert (as_completed O [] = []) as ->
    by (apply Permutation_nil_r; exact (Hfair O [])).
  reflexivity.
Qed.

End BudgetFacts.

(* ===================================================================== *)
(** ** The fast path, result by result *)
(* ===================================================================== *)

Section InlineFacts.
Import PyStr Query Utils Search.

Variable utf8_decode : list Byte.byte → result string.
Variable monotonic : nat → Z.
Variable as_completed : nat → list Future → list Future.
Variable query : ParsedQuery.
Variable opts : Options.

Lemma accepted_cons (sc : bool) (p : Path) (cands : list Path) :
  accepted utf8_decode query opts sc (p :: cands)
  = match evaluate utf8_decode query opts sc p with
    | Ok (Some _) => p :: accepted utf8_decode query opts sc cands
    | _ => accepted utf8_decode query opts sc cands
    end.
Proof.
  unfold accepted. rewrite fmap_cons. simpl omap.
  destruct (evaluate utf8_decode query opts sc p) as [[m|]|e] eqn:E;
    try reflexivity.
  simpl. apply _evaluate_path_Some in E. now rewrite E.
Qed.

Lemma accepted_sublist (sc : bool) (cands : list Path) :
  accepted utf8_decode query opts sc cands `sublist_of` cands.
Proof.
  induction cands as [|p cands IH]; [constructor|].
  rewrite accepted_cons.
  destruct (evaluate utf8_decode query opts sc p) as [[m|]|e];
    now constructor.
Qed.

Lemma maybe_emit_step (p : Path) (c c' : Coord) (b : bool) :
  maybe_emit monotonic opts p c = Ok (b, c') →
  emissions opts c' = emissions opts c ∨
  emissions opts c' = emissions opts c ++ [p].
Proof.
  destruct (decide (fid_of p ∈ seen_ids c)) as [Hin|Hfresh].
  - rewrite (maybe_emit_seen monotonic opts p c Hin). intros [= <- <-].
    now left.
  - rewrite (maybe_emit_fresh monotonic opts p c Hfresh).
    assert (emissions opts (emitted_state monotonic opts p c)
            = emissions opts c ++ [p]) as He.
    { unfold emissions, emitted_state. simpl.
      destruct (stream_callback opts); [reflexivity|]. now rewrite fmap_app. }
    destruct (cap opts <=? emitted_count c + 1); intros [= <- <-];
      right; exact He.
Qed.

Lemma inline_loop_order (cands : list Path) (c c' : Coord) :
  inline_loop utf8_decode monotonic query opts cands c = Ok c' →
  ∃ extra, emissions opts c' = emissions opts c ++ extra ∧
           extra `sublist_of` accepted utf8_decode query opts false cands.
Proof.
  revert c. induction cands as [|p cands IH]; intros c; simpl.
  { intros [= <-]. exists []. rewrite app_nil_r. split; [reflexivity|].
    constructor. }
  pose proof (emissions_stop_or_timed_out monotonic opts c) as H0.
  destruct (stop_or_timed_out monotonic c) as [[|] c0]; simpl in H0.
  { intros [= <-]. exists [].
    rewrite app_nil_r, emissions_note_timeout.
    split; [exact H0|apply sublist_nil_l]. }
  rewrite accepted_cons.
  destruct (evaluate utf8_decode query opts false p) as [[m|]|e] eqn:Ev;
    simpl; [| |discriminate].
  - apply _evaluate_path_Some in Ev. rewrite Ev.
    destruct (maybe_emit monotonic opts p c0) as [[b c1]|e] eqn:E;
      simpl; [|discriminate].
    apply maybe_emit_step in E. rewrite H0 in E.
    assert (∃ x1, emissions opts c1 = emissions opts c ++ x1 ∧
                  (x1 = [] ∨ x1 = [p])) as (x1 & He1 & Hx1).
    { destruct E as [E|E]; [exists []|exists [p]]; rewrite E;
        [rewrite app_nil_r|]; auto. }
    destruct b.
    + intros H. destruct (IH _ H) as (x2 & He2 & Hx2).
      exists (x1 ++ x2). rewrite He2, He1, app_assoc.
      split; [reflexivity|].
      destruct Hx1 as [->| ->]; simpl; now constructor.
    + intros [= <-]. exists x1. split; [exact He1|].
      destruct Hx1 as [->| ->]; [apply sublist_nil_l|].
      constructor. apply sublist_nil_l.
  - intros H. destruct (IH _ H) as (x & He & Hx). rewrite H0 in He. eauto.
Qed.

(** X20: without content scanning the results come in the order of the
    traversal: the paths a call emits are a subsequence of the accepted
    candidates, which are a subsequence of the candidates as
    [iter_files] yields them. *)
Theorem inline_search_keeps_traversal_order (roots : list Root) :
  scan_content opts = false →
  ∃ o, search utf8_decode monotonic as_completed query opts roots = Ok o ∧
    emitted_paths o
      `sublist_of` accepted utf8_decode query opts false
                            (candidates opts roots) ∧
    accepted utf8_decode query opts false (candidates opts roots)
      `sublist_of` candidates opts roots.
Proof.
  intros Hsc. unfold search. fold (candidates opts roots). rewrite Hsc. simpl.
  destruct (inline_loop_spec utf8_decode monotonic query opts
              (candidates opts roots) _ (coord_inv_initial opts (monotonic O))
              eq_refl) as (c & Hloop & Hc & _).
  rewrite Hloop. simpl. eexists. split; [reflexivity|].
  destruct (inline_loop_order _ _ _ Hloop) as (x & He & Hx).
  rewrite emissions_initial in He. simpl in He.
  split; [|apply accepted_sublist].
  unfold emitted_paths. simpl.
  pose proof (inv_channel opts c Hc) as Hch. unfold emissions in He.
  destruct (stream_callback opts); rewrite Hch; simpl;
    [rewrite app_nil_r|]; now rewrite He.
Qed.

Lemma idle_off_head (c : Coord) :
  coord_inv opts c → stop_event c = false → idle_enabled opts = false →
  stop_or_timed_out monotonic c = (false, c).
Proof.
  intros Hc Hrun Hoff. unfold stop_or_timed_out, timed_out. rewrite Hrun.
  destruct (inv_timer opts c Hc Hoff) as [-> _]. reflexivity.
Qed.

Lemma inline_loop_first (cands : list Path) (c : Coord) :
  coord_inv opts c → stop_event c = false → idle_enabled opts = false →
  let rest :=
    distinct_from (seen_ids c) (accepted utf8_decode query opts false cands) in
  let room := Z.to_nat (cap opts - emitted_count c) in
  ∃ c', inline_loop utf8_decode monotonic query opts cands c = Ok c' ∧
    emissions opts c' = emissions opts c ++ take room rest ∧
    cur_reason c'
    = if (room <=? length rest)%nat then limit_reached else cur_reason c.
Proof.
  intros Hc Hrun Hoff. revert c Hc Hrun.
  induction cands as [|p cands IH]; intros c Hc Hrun rest room.
  { exists c. subst rest room. simpl.
    pose proof (inv_running opts c Hc Hrun) as Hlt.
    rewrite take_nil, app_nil_r. split; [reflexivity|]. split; [reflexivity|].
    destruct (Nat.leb_spec (Z.to_nat (cap opts - emitted_count c)) 0);
      [lia|reflexivity]. }
  simpl. rewrite (idle_off_head c Hc Hrun Hoff).
  subst rest. rewrite accepted_cons.
  destruct (evaluate_returns utf8_decode query opts false p) as [r Hr].
  rewrite Hr. simpl. destruct r as [m|]; simpl; [|apply (IH c Hc Hrun)].
  pose proof Hr as Hm. apply _evaluate_path_Some in Hm. rewrite Hm.
  destruct (decide (fid_of p ∈ seen_ids c)) as [Hin|Hfresh].
  { rewrite (maybe_emit_seen monotonic opts p c Hin). simpl.
    apply (IH c Hc Hrun). }
  rewrite (maybe_emit_fresh monotonic opts p c Hfresh).
  destruct (coord_inv_emitted monotonic opts p c Hfresh Hc Hrun)
    as (Hc' & He' & Hs' & Hstop' & Hr' & _).
  pose proof (inv_running opts c Hc Hrun) as Hlt.
  pose proof (inv_count opts c Hc) as Hn.
  destruct (cap opts <=? emitted_count c + 1) eqn:Hcap; simpl.
  - apply Z.leb_le in Hcap.
    eexists. split; [reflexivity|].
    assert (room = 1%nat) as -> by (subst room; lia).
    split; [exact He'|].
    destruct (inv_stopped opts _ Hc' Hstop') as [-> _]. reflexivity.
  - apply Z.leb_gt in Hcap.
    set (c1 := emitted_state monotonic opts p c) in *.
    assert (emitted_count c1 = emitted_count c + 1) as Hn1 by reflexivity.
    destruct (IH c1 Hc' Hstop') as (c' & Hloop & He & Hreason).
    exists c'. split; [exact Hloop|].
    rewrite Hs', Hn1, He' in *.
    assert (room = S (Z.to_nat (cap opts - (emitted_count c + 1)))) as ->
      by (subst room; lia).
    split.
    + rewrite He, <- app_assoc. reflexivity.
    + rewrite Hreason, (Hr' Hstop'). reflexivity.
Qed.

(** X21: without content scanning and with the timer off, the call
    returns the first [max(1, limit)] distinct matches of the traversal:
    the accepted candidates in the order [iter_files] yields them, a
    file already emitted under another name left out.  The reason is
    [limit] when there are that many, [complete] otherwise. *)
Theorem inline_search_returns_first_matches (roots : list Root) :
  scan_content opts = false →
  match idle_timeout_sec opts with Some t => t ≤ 0 | None => True end →
  let found :=
    distinct_files
      (accepted utf8_decode query opts false (candidates opts roots)) in
  let n := Z.to_nat (Z.max 1 (limit opts)) in
  ∃ o, search utf8_decode monotonic as_completed query opts roots = Ok o ∧
    emitted_paths o = take n found ∧
    stopped_reason (returned o).2
    = if (n <=? length found)%nat then limit_reached else complete.
Proof.
  intros Hsc Hoff found n.
  apply (idle_enabled_false opts) in Hoff.
  unfold search. fold (candidates opts roots). rewrite Hsc. simpl.
  destruct (inline_loop_first (candidates opts roots) _
              (coord_inv_initial opts (monotonic O)) eq_refl Hoff)
    as (c & Hloop & He & Hreason).
  destruct (inline_loop_spec utf8_decode monotonic query opts
              (candidates opts roots) _ (coord_inv_initial opts (monotonic O))
              eq_refl) as (c0 & Hloop0 & Hc & _).
  rewrite Hloop in Hloop0. injection Hloop0 as <-.
  rewrite Hloop. simpl. eexists. split; [reflexivity|].
  rewrite emissions_initial in He. simpl in He, Hreason.
  replace (Z.to_nat (cap opts - 0)) with n in He, Hreason
    by (subst n; unfold cap; lia).
  split; [|exact Hreason].
  unfold emitted_paths. simpl.
  pose proof (inv_channel opts c Hc) as Hch. unfold emissions in He.
  destruct (stream_callback opts); rewrite Hch; simpl;
    [rewrite app_nil_r|]; exact He.
Qed.

End InlineFacts.

(* ===================================================================== *)
(** ** The callback and the list of results *)
(* ===================================================================== *)

Section ChannelFacts.
Import PyStr Query Utils Search.

Variable utf8_decode : list Byte.byte → result string.
Variable monotonic : nat → Z.
Variable as_completed : nat → list Future → list Future.
Variable query : ParsedQuery.
Variable opts : Options.

Lemma timed_out_unstream (c : Coord) :
  timed_out monotonic (unstream c)
  = ((timed_out monotonic c).1, unstream (timed_out monotonic c).2).
Proof. unfold timed_out. simpl. now destruct (idle_deadline c). Qed.

Lemma note_timeout_unstream (c : Coord) :
  note_timeout monotonic (unstream c) = unstream (note_timeout monotonic c).
Proof.
  unfold note_timeout. rewrite timed_out_unstream.
  destruct (timed_out monotonic c) as [[|] c']; reflexivity.
Qed.

Lemma stop_or_timed_out_unstream (c : Coord) :
  stop_or_timed_out monotonic (unstream c)
  = ((stop_or_timed_out monotonic c).1,
     unstream (stop_or_timed_out monotonic c).2).
Proof.
  unfold stop_or_timed_out. simpl.
  destruct (stop_event c); [reflexivity|apply timed_out_unstream].
Qed.

Lemma maybe_emit_unstream (p : Path) (c : Coord) :
  maybe_emit monotonic (with_callback false opts) p (unstream c)
  = '(b, c') ← maybe_emit monotonic (with_callback true opts) p c;
    Ok (b, unstream c').
Proof.
  unfold maybe_emit. destruct (_file_id p) as [fid|e]; simpl; [|reflexivity].
  destruct (bool_decide (fid ∈ seen_ids c)); simpl; [reflexivity|].
  destruct (Z.max 1 (limit opts) <=? emitted_count c + 1); simpl;
    unfold unstream, reset_idle_timer, set_timer, set_stop_event, set_reason;
    simpl; now rewrite fmap_app.
Qed.

Lemma drain_unstream (in_batch : bool) (futs : list Future) (c : Coord) :
  drain monotonic (with_callback false opts) in_batch futs (unstream c)
  = c' ← drain monotonic (with_callback true opts) in_batch futs c;
    Ok (unstream c').
Proof.
  revert c. induction futs as [|fut futs IH]; intros c; [reflexivity|].
  simpl. destruct (_ || _); [reflexivity|].
  destruct fut as [[m|]|e]; simpl; [|apply IH|reflexivity].
  rewrite maybe_emit_unstream.
  destruct (maybe_emit monotonic (with_callback true opts) (path m) c)
    as [[[|] c1]|e];
    simpl; [apply IH|reflexivity|reflexivity].
Qed.

Lemma inline_loop_unstream (cands : list Path) (c : Coord) :
  inline_loop utf8_decode monotonic query (with_callback false opts) cands
    (unstream c)
  = c' ← inline_loop utf8_decode monotonic query (with_callback true opts)
           cands c;
    Ok (unstream c').
Proof.
  revert c. induction cands as [|p cands IH]; intros c; [reflexivity|].
  simpl. rewrite stop_or_timed_out_unstream.
  destruct (stop_or_timed_out monotonic c) as [[|] c0]; simpl.
  { now rewrite note_timeout_unstream. }
  change (evaluate utf8_decode query (with_callback false opts) false p)
    with (evaluate utf8_decode query (with_callback true opts) false p).
  destruct (evaluate utf8_decode query (with_callback true opts) false p)
    as [[m|]|e];
    simpl; [|apply IH|reflexivity].
  rewrite maybe_emit_unstream.
  destruct (maybe_emit monotonic (with_callback true opts) (path m) c0)
    as [[[|] c1]|e];
    simpl; [apply IH|reflexivity|reflexivity].
Qed.

Lemma submit_loop_unstream (cands : list Path) (futures : list Future)
  (c : Coord) :
  submit_loop utf8_decode monotonic as_completed query
    (with_callback false opts) cands futures (unstream c)
  = '(futs, c') ← submit_loop utf8_decode monotonic as_completed query
                    (with_callback true opts) cands futures c;
    Ok (futs, unstream c').
Proof.
  revert futures c. induction cands as [|p cands IH]; intros futures c;
    [reflexivity|].
  simpl. rewrite stop_or_timed_out_unstream.
  destruct (stop_or_timed_out monotonic c) as [[|] c0]; simpl.
  { now rewrite note_timeout_unstream. }
  change (evaluate utf8_decode query (with_callback false opts) true p)
    with (evaluate utf8_decode query (with_callback true opts) true p).
  set (futures' :=
         futures ++ [evaluate utf8_decode query (with_callback true opts)
                       true p]).
  assert (∀ c1 : Coord,
            (c2 ← drain monotonic (with_callback false opts) true
                    (as_completed (drains (note_timeout monotonic
                                             (unstream c1))) futures')
                    (next_drain (note_timeout monotonic (unstream c1)));
             if stop_event c2 || bool_decide (cur_reason c2 = idle_timeout)
             then Ok ([], c2)
             else submit_loop utf8_decode monotonic as_completed query
                    (with_callback false opts) cands [] c2)
            = '(futs, c') ←
                (c2 ← drain monotonic (with_callback true opts) true
                        (as_completed (drains (note_timeout monotonic c1))
                                      futures')
                        (next_drain (note_timeout monotonic c1));
                 if stop_event c2 || bool_decide (cur_reason c2 = idle_timeout)
                 then Ok ([], c2)
                 else submit_loop utf8_decode monotonic as_completed query
                        (with_callback true opts) cands [] c2);
              Ok (futs, unstream c')) as Hfull.
  { intros c1. rewrite note_timeout_unstream.
    change (next_drain (unstream (note_timeout monotonic c1)))
      with (unstream (next_drain (note_timeout monotonic c1))).
    change (drains (unstream (note_timeout monotonic c1)))
      with (drains (note_timeout monotonic c1)).
    rewrite drain_unstream.
    destruct (drain monotonic (with_callback true opts) true _ _) as [c2|e];
      simpl;
      [|reflexivity].
    destruct (_ || _); [reflexivity|apply IH]. }
  destruct (bool_decide (BATCH ≤ length futures')%nat).
  { apply Hfull. }
  rewrite timed_out_unstream.
  destruct (timed_out monotonic c0) as [[|] c1]; simpl;
    [apply Hfull|apply IH].
Qed.

Lemma search_unstream (roots : list Root) :
  search utf8_decode monotonic as_completed query (with_callback false opts)
         roots
  = o ← search utf8_decode monotonic as_completed query
          (with_callback true opts) roots;
    Ok (unstream_outcome o).
Proof.
  unfold search. simpl.
  change (initial (with_callback false opts) (monotonic O))
    with (unstream (initial (with_callback true opts) (monotonic O))).
  destruct (scan_content opts); simpl.
  - rewrite submit_loop_unstream.
    destruct (submit_loop utf8_decode monotonic as_completed query
                (with_callback true opts) _ _ _) as [[futs c1]|e]; simpl;
      [|reflexivity].
    change (next_drain (unstream c1)) with (unstream (next_drain c1)).
    rewrite drain_unstream.
    destruct (drain monotonic (with_callback true opts) false _ _) as [c2|e];
      reflexivity.
  - rewrite inline_loop_unstream.
    destruct (inline_loop utf8_decode monotonic query
                (with_callback true opts) _ _) as [c1|e]; reflexivity.
Qed.

(** X22: the callback changes the channel and nothing else.  The call
    with a callback and the call without one, on the same files, clock and
    completion order, emit the same paths in the same order and return the
    same statistics; what the callback received in the one is the list
    of results of the other. *)
Theorem streaming_changes_only_the_channel (roots : list Root) :
  fair_completion as_completed →
  ∃ o1 o0,
    search utf8_decode monotonic as_completed query (with_callback true opts)
           roots = Ok o1 ∧
    search utf8_decode monotonic as_completed query (with_callback false opts)
           roots = Ok o0 ∧
    (returned o0).2 = (returned o1).2 ∧
    (returned o0).1 = mkMatchResult <$> callback_calls o1 ∧
    (returned o1).1 = [] ∧ callback_calls o0 = [] ∧
    emitted_paths o0 = emitted_paths o1.
Proof.
  intros Hfair.
  destruct (search_final utf8_decode monotonic as_completed query
              (with_callback true opts) roots Hfair) as (c & Hs & Hc & _).
  exists (outcome_of monotonic c), (unstream_outcome (outcome_of monotonic c)).
  split; [exact Hs|]. split; [now rewrite search_unstream, Hs|].
  pose proof (inv_channel (with_callback true opts) c Hc) as Hch. simpl in Hch.
  unfold emitted_paths. simpl. rewrite Hch. simpl.
  split_and!; try reflexivity.
  rewrite app_nil_r, <- list_fmap_compose.
  induction (delivered c) as [|p l IH]; [reflexivity|].
  rewrite fmap_cons, IH. reflexivity.
Qed.

End ChannelFacts.

(* ===================================================================== *)
(** ** The two times of the statistics *)
(* ===================================================================== *)

Section TimeFacts.
Import PyStr Query Utils Search.

Variable utf8_decode : list Byte.byte → result string.
Variable monotonic : nat → Z.
Variable as_completed : nat → list Future → list Future.
Variable query : ParsedQuery.
Variable opts : Options.

Lemma read_inv_frame (c c' : Coord) :
  (clock c ≤ clock c')%nat → last_emit_time c' = last_emit_time c →
  read_inv monotonic c → read_inv monotonic c'.
Proof.
  intros Hle Heq [Hpos Hlast]. split; [lia|].
  intros t Ht. rewrite Heq in Ht.
  destruct (Hlast t Ht) as (k & Hk & ->). exists k. split; [lia|reflexivity].
Qed.

Lemma read_inv_timed_out (c : Coord) :
  read_inv monotonic c → read_inv monotonic (timed_out monotonic c).2.
Proof.
  apply read_inv_frame; unfold timed_out;
    destruct (idle_deadline c); simpl; lia || reflexivity.
Qed.

Lemma read_inv_note_timeout (c : Coord) :
  read_inv monotonic c → read_inv monotonic (note_timeout monotonic c).
Proof.
  apply read_inv_frame; unfold note_timeout, timed_out;
    destruct (idle_deadline c) as [d|]; simpl;
    try destruct (d <=? monotonic (clock c)); simpl; lia || reflexivity.
Qed.

Lemma read_inv_stop_or_timed_out (c : Coord) :
  read_inv monotonic c → read_inv monotonic (stop_or_timed_out monotonic c).2.
Proof.
  unfold stop_or_timed_out. destruct (stop_event c); [auto|].
  apply read_inv_timed_out.
Qed.

Lemma read_inv_maybe_emit (p : Path) (c c' : Coord) (b : bool) :
  maybe_emit monotonic opts p c = Ok (b, c') →
  read_inv monotonic c → read_inv monotonic c'.
Proof.
  destruct (decide (fid_of p ∈ seen_ids c)) as [Hin|Hfresh].
  - rewrite (maybe_emit_seen monotonic opts p c Hin). now intros [= <- <-].
  - rewrite (maybe_emit_fresh monotonic opts p c Hfresh).
    intros H [Hpos _].
    assert (read_inv monotonic (emitted_state monotonic opts p c)) as Hr.
    { split; simpl; [lia|]. intros t [= <-]. exists (clock c).
      split; [lia|reflexivity]. }
    destruct (cap opts <=? emitted_count c + 1); injection H as <- <-;
      [|exact Hr].
    revert Hr. now apply read_inv_frame.
Qed.

Lemma read_inv_drain (in_batch : bool) (futs : list Future) (c c' : Coord) :
  drain monotonic opts in_batch futs c = Ok c' →
  read_inv monotonic c → read_inv monotonic c'.
Proof.
  revert c. induction futs as [|fut futs IH]; intros c; simpl.
  { now intros [= <-]. }
  destruct (_ || _); [now intros [= <-]|].
  destruct fut as [[m|]|e]; simpl; [|apply IH|discriminate].
  destruct (maybe_emit monotonic opts (path m) c) as [[b c1]|e] eqn:E;
    simpl; [|discriminate].
  intros H Hc. pose proof (read_inv_maybe_emit _ _ _ _ E Hc) as Hc1.
  destruct b; [now apply (IH c1)|now injection H as <-].
Qed.

Lemma read_inv_inline_loop (cands : list Path) (c c' : Coord) :
  inline_loop utf8_decode monotonic query opts cands c = Ok c' →
  read_inv monotonic c → read_inv monotonic c'.
Proof.
  revert c. induction cands as [|p cands IH]; intros c; simpl.
  { now intros [= <-]. }
  intros H Hc. pose proof (read_inv_stop_or_timed_out c Hc) as Hc0.
  destruct (stop_or_timed_out monotonic c) as [[|] c0]; simpl in Hc0.
  { injection H as <-. now apply read_inv_note_timeout. }
  destruct (evaluate utf8_decode query opts false p) as [[m|]|e];
    simpl in H; [|now apply (IH c0)|discriminate].
  destruct (maybe_emit monotonic opts (path m) c0) as [[b c1]|e] eqn:E;
    simpl in H; [|discriminate].
  pose proof (read_inv_maybe_emit _ _ _ _ E Hc0) as Hc1.
  destruct b; [now apply (IH c1)|now injection H as <-].
Qed.

Lemma read_inv_submit_loop (cands : list Path) (futures futs' : list Future)
  (c c' : Coord) :
  submit_loop utf8_decode monotonic as_completed query opts cands futures c
    = Ok (futs', c') →
  read_inv monotonic c → read_inv monotonic c'.
Proof.
  revert futures c. induction cands as [|p cands IH]; intros futures c; simpl.
  { now intros [= <- <-]. }
  intros H Hc. pose proof (read_inv_stop_or_timed_out c Hc) as Hc0.
  destruct (stop_or_timed_out monotonic c) as [[|] c0]; simpl in Hc0.
  { injection H as <- <-. now apply read_inv_note_timeout. }
  set (futures' := futures ++ [evaluate utf8_decode query opts true p]) in *.
  assert (∀ c1, read_inv monotonic c1 →
            (c2 ← drain monotonic opts true
                    (as_completed (drains (note_timeout monotonic c1))
                                  futures')
                    (next_drain (note_timeout monotonic c1));
             if stop_event c2 || bool_decide (cur_reason c2 = idle_timeout)
             then Ok ([], c2)
             else submit_loop utf8_decode monotonic as_completed query opts
                    cands [] c2) = Ok (futs', c') →
            read_inv monotonic c') as Hfull.
  { intros c1 Hc1 Hd.
    destruct (drain monotonic opts true _ _) as [c2|e] eqn:E; simpl in Hd;
      [|discriminate].
    assert (read_inv monotonic c2) as Hc2.
    { apply (read_inv_drain _ _ _ _ E).
      apply (read_inv_frame (note_timeout monotonic c1));
        [simpl; lia|reflexivity|].
      now apply read_inv_note_timeout. }
    destruct (_ || _); [now injection Hd as <- <-|].
    now apply (IH [] c2). }
  destruct (bool_decide (BATCH ≤ length futures')%nat).
  { now apply (Hfull c0). }
  pose proof (read_inv_timed_out c0 Hc0) as Hc1.
  destruct (timed_out monotonic c0) as [[|] c1]; simpl in Hc1;
    [now apply (Hfull c1)|now apply (IH futures' c1)].
Qed.

Lemma clock_from_start (n : nat) :
  clock_monotone monotonic → monotonic O ≤ monotonic n.
Proof.
  intros Hm. induction n as [|n IH]; [lia|].
  specialize (Hm n). lia.
Qed.

Lemma stats_times (c : Coord) :
  clock_monotone monotonic → read_inv monotonic c →
  let stats := (returned (outcome_of monotonic c)).2 in
  0 ≤ idle_time_sec stats ≤ wall_time_sec stats.
Proof.
  intros Hm [Hpos Hlast]. simpl.
  pose proof (clock_from_start (clock c) Hm) as Hwall.
  destruct (bool_decide (cur_reason c = idle_timeout)); [|lia].
  assert (monotonic O ≤ last_emit_or (monotonic O) c) as Hbase.
  { unfold last_emit_or. destruct (last_emit_time c) as [t|]; [|lia].
    destruct (t =? 0); [lia|].
    destruct (Hlast t eq_refl) as (k & _ & ->).
    now apply clock_from_start. }
  lia.
Qed.

(** X23: on a clock that never goes backwards the two times of the
    statistics are ordered: the idle time is not negative and not more
    than the wall time, for every call, so the active time that the
    command line prints (wall time minus idle time, cut at zero) is the
    plain difference. *)
Theorem idle_time_within_wall_time (roots : list Root) :
  fair_completion as_completed → clock_monotone monotonic →
  ∃ o, search utf8_decode monotonic as_completed query opts roots = Ok o ∧
    0 ≤ idle_time_sec (returned o).2 ≤ wall_time_sec (returned o).2 ∧
    active (returned o).2
    = wall_time_sec (returned o).2 - idle_time_sec (returned o).2.
Proof.
  intros Hfair Hm.
  assert (read_inv monotonic (initial opts (monotonic O))) as H0.
  { split; simpl; [lia|discriminate]. }
  assert (∃ c, search utf8_decode monotonic as_completed query opts roots
               = Ok (outcome_of monotonic c) ∧ read_inv monotonic c)
    as (c & Hs & Hc).
  { unfold search. fold (candidates opts roots).
    destruct (scan_content opts); simpl.
    - destruct (submit_loop_spec utf8_decode monotonic as_completed query opts
                  (candidates opts roots) [] _ Hfair (List.Forall_nil _)
                  (coord_inv_initial opts (monotonic O)) eq_refl)
        as (futs & c1 & Hloop1 & Hfut & Hc1 & _).
      rewrite Hloop1. simpl.
      assert (Forall returns (as_completed (drains c1) futs)) as Hfut'
        by (rewrite (Hfair _ _); exact Hfut).
      destruct (drain_spec monotonic opts false _ (next_drain c1) Hfut'
                  (coord_inv_next_drain opts c1 Hc1))
        as (c2 & Hloop2 & _).
      rewrite Hloop2. simpl. exists c2. split; [reflexivity|].
      apply (read_inv_drain _ _ _ _ Hloop2).
      apply (read_inv_frame c1); [simpl; lia|reflexivity|].
      apply (read_inv_submit_loop _ _ _ _ _ Hloop1 H0).
    - destruct (inline_loop_spec utf8_decode monotonic query opts
                  (candidates opts roots) _
                  (coord_inv_initial opts (monotonic O)) eq_refl)
        as (c1 & Hloop1 & _).
      rewrite Hloop1. simpl. exists c1. split; [reflexivity|].
      apply (read_inv_inline_loop _ _ _ Hloop1 H0). }
  exists (outcome_of monotonic c). split; [exact Hs|].
  pose proof (stats_times c Hm Hc) as Ht. unfold active. simpl in Ht. simpl.
  split; [exact Ht|lia].
Qed.

End TimeFacts.

Section SearchSamples.
Import Query Utils Search Sample.

Lemma negative_max_depth_is_zero_witness :
  iter_files tree false (Some (-3)) ["node_modules"]
  = iter_files tree false (Some 0) ["node_modules"].
Proof.
  apply (negative_max_depth_is_zero tree false (-3) ["node_modules"]). lia.
Defined.

Lemma emitted_is_bounded_by_the_limit_witness :
  let opts := options true 2 false None in
  ∃ o, search ascii_decode steady_clock in_order token_a opts linked_files
       = Ok o ∧
    0 ≤ emitted (returned o).2 ≤ Z.max 1 (limit opts) ∧
    (length (returned o).1 ≤ Z.to_nat (Z.max 1 (limit opts)))%nat ∧
    (stopped_reason (returned o).2 = limit_reached ↔
     emitted (returned o).2 = Z.max 1 (limit opts)).
Proof.
  apply (emitted_is_bounded_by_the_limit ascii_decode steady_clock in_order
           token_a (options true 2 false None) linked_files).
  intros n futs. reflexivity.
Defined.

Lemma idle_timer_off_never_times_out_witness :
  ∃ o, search ascii_decode late_clock in_order token_a
         (options true 200 false (Some 0)) two_files = Ok o ∧
    stopped_reason (returned o).2 ≠ idle_timeout ∧
    idle_time_sec (returned o).2 = 0.
Proof.
  apply (idle_timer_off_never_times_out ascii_decode late_clock in_order
           token_a (options true 200 false (Some 0)) two_files).
  - intros n futs. reflexivity.
  - simpl. lia.
Defined.

Lemma unhurried_search_finds_every_identity_witness :
  let opts := options true 200 true None in
  ∃ o, search ascii_decode steady_clock in_order token_a opts linked_files
       = Ok o ∧
    stopped_reason (returned o).2 = complete ∧
    list_to_set (fid_of <$> emitted_paths o)
      = eligible ascii_decode token_a opts linked_files ∧
    emitted (returned o).2
      = Z.of_nat (size (eligible ascii_decode token_a opts linked_files)).
Proof.
  apply (unhurried_search_finds_every_identity ascii_decode steady_clock
           in_order token_a (options true 200 true None) linked_files).
  - intros n futs. reflexivity.
  - intros n. unfold steady_clock. lia.
  - simpl. exact I.
  - vm_compute. reflexivity.
Defined.

Lemma search_without_candidates_witness :
  let roots := [mkRoot false (mkDir (Ok [file_entry alpha])); folder []] in
  search ascii_decode steady_clock in_order token_a
         (options true 200 false (Some 5)) roots
  = Ok (mkOutcome
          ([], mkSearchStats 0 (steady_clock 1%nat - steady_clock O) 0
                 complete) []).
Proof.
  apply (search_without_candidates ascii_decode steady_clock in_order token_a
           (options true 200 false (Some 5))
           [mkRoot false (mkDir (Ok [file_entry alpha])); folder []]).
  - intros n futs. reflexivity.
  - reflexivity.
Defined.

Lemma inline_search_keeps_traversal_order_witness :
  let opts := options false 200 false (Some 5) in
  ∃ o, search ascii_decode late_clock in_order token_a opts linked_files
       = Ok o ∧
    emitted_paths o
      `sublist_of` accepted ascii_decode token_a opts false
                            (candidates opts linked_files) ∧
    accepted ascii_decode token_a opts false (candidates opts linked_files)
      `sublist_of` candidates opts linked_files.
Proof.
  apply (inline_search_keeps_traversal_order ascii_decode late_clock in_order
           token_a (options false 200 false (Some 5)) linked_files).
  reflexivity.
Defined.

Lemma inline_search_returns_first_matches_witness :
  let opts := options false 2 false None in
  let found :=
    distinct_files
      (accepted ascii_decode token_a opts false
                (candidates opts linked_files)) in
  let n := Z.to_nat (Z.max 1 (limit opts)) in
  ∃ o, search ascii_decode steady_clock in_order token_a opts linked_files
       = Ok o ∧
    emitted_paths o = take n found ∧
    stopped_reason (returned o).2
    = if (n <=? length found)%nat then limit_reached else complete.
Proof.
  apply (inline_search_returns_first_matches ascii_decode steady_clock
           in_order token_a (options false 2 false None) linked_files).
  - reflexivity.
  - simpl. exact I.
Defined.

Lemma streaming_changes_only_the_channel_witness :
  let opts := options true 200 false None in
  ∃ o1 o0,
    search ascii_decode steady_clock in_order token_a
           (with_callback true opts) linked_files = Ok o1 ∧
    search ascii_decode steady_clock in_order token_a
           (with_callback false opts) linked_files = Ok o0 ∧
    (returned o0).2 = (returned o1).2 ∧
    (returned o0).1 = mkMatchResult <$> callback_calls o1 ∧
    (returned o1).1 = [] ∧ callback_calls o0 = [] ∧
    emitted_paths o0 = emitted_paths o1.
Proof.
  apply (streaming_changes_only_the_channel ascii_decode steady_clock in_order
           token_a (options true 200 false None) linked_files).
  intros n futs. reflexivity.
Defined.

Lemma idle_time_within_wall_time_witness :
  let opts := options true 200 false (Some 5) in
  ∃ o, search ascii_decode steady_clock in_order token_a opts two_files
       = Ok o ∧
    0 ≤ idle_time_sec (returned o).2 ≤ wall_time_sec (returned o).2 ∧
    active (returned o).2
    = wall_time_sec (returned o).2 - idle_time_sec (returned o).2.
Proof.
  apply (idle_time_within_wall_time ascii_decode steady_clock in_order
           token_a (options true 200 false (Some 5)) two_files).
  - intros n futs. reflexivity.
  - intros n. unfold steady_clock. lia.
Defined.

End SearchSamples.

(* ===================================================================== *)
(** ** The roots of the two passes *)
(* ===================================================================== *)

Section PlacesFacts.

Context {Loc : Type} `{Countable Loc}.

Variable resolve : Loc → result Loc.


Lemma uniq_from_sublist (seen : gset Loc) (l : list Loc) :
  uniq_from resolve seen l `sublist_of` l.
Proof.
  revert seen. induction l as [|x l IH]; intros seen; simpl; [constructor|].
  destruct (decide (resolved resolve x ∈ seen)); constructor; apply IH.
Qed.

Lemma uniq_from_first (seen : gset Loc) (l : list Loc) (p : Loc) :
  p ∈ uniq_from resolve seen l ↔
  ∃ l1 l2, l = l1 ++ p :: l2 ∧ (resolved resolve p ∉ seen) ∧
           (resolved resolve p ∉ resolved resolve <$> l1).
Proof.
  revert seen. induction l as [|x l IH]; intros seen; simpl.
  { split; [intros Hp; inversion Hp|].
    intros (l1 & l2 & Hl & _). now destruct l1. }
  destruct (decide (resolved resolve x ∈ seen)) as [Hx|Hx].
  - rewrite IH. split.
    + intros (l1 & l2 & -> & Hs & Hn). exists (x :: l1), l2.
      split; [reflexivity|]. split; [assumption|].
      rewrite fmap_cons, elem_of_cons. intros [E|E]; [|contradiction].
      rewrite E in Hs. contradiction.
    + intros (l1 & l2 & Hl & Hs & Hn). destruct l1 as [|y l1].
      * injection Hl as -> ->. contradiction.
      * injection Hl as -> ->. exists l1, l2.
        split; [reflexivity|]. split; [assumption|].
        rewrite fmap_cons, elem_of_cons in Hn. tauto.
  - rewrite elem_of_cons, IH. split.
    + intros [->|(l1 & l2 & -> & Hs & Hn)].
      * exists [], l. split; [reflexivity|]. split; [assumption|].
        apply not_elem_of_nil.
      * exists (x :: l1), l2. split; [reflexivity|].
        rewrite elem_of_union, elem_of_singleton in Hs.
        split; [tauto|]. rewrite fmap_cons, elem_of_cons. tauto.
    + intros (l1 & l2 & Hl & Hs & Hn). destruct l1 as [|y l1].
      * injection Hl as -> ->. now left.
      * injection Hl as -> ->. right. exists l1, l2.
        rewrite fmap_cons, elem_of_cons in Hn.
        split; [reflexivity|].
        rewrite elem_of_union, elem_of_singleton. tauto.
Qed.

Lemma uniq_from_keys (seen : gset Loc) (l : list Loc) :
  NoDup (resolved resolve <$> uniq_from resolve seen l) ∧
  ∀ p, p ∈ uniq_from resolve seen l → resolved resolve p ∉ seen.
Proof.
  revert seen. induction l as [|x l IH]; intros seen; simpl.
  { split; [constructor|]. intros p Hp. inversion Hp. }
  destruct (decide (resolved resolve x ∈ seen)) as [Hx|Hx]; [apply IH|].
  destruct (IH ({[ resolved resolve x ]} ∪ seen)) as [IH1 IH2].
  split.
  - rewrite fmap_cons. constructor; [|assumption].
    intros Hin. apply list_elem_of_fmap in Hin as (q & Hq & Hin).
    apply IH2 in Hin. rewrite <- Hq in Hin. set_solver.
  - intros p Hp. apply elem_of_cons in Hp as [->|Hp]; [assumption|].
    apply IH2 in Hp. set_solver.
Qed.

Lemma uniq_from_covers (seen : gset Loc) (l : list Loc) (p : Loc) :
  p ∈ l →
  resolved resolve p ∈ seen ∨
  resolved resolve p ∈ resolved resolve <$> uniq_from resolve seen l.
Proof.
  revert seen. induction l as [|x l IH]; intros seen Hp; [inversion Hp|].
  simpl. apply elem_of_cons in Hp as [->|Hp].
  - destruct (decide (resolved resolve x ∈ seen)); [now left|].
    right. rewrite fmap_cons. left.
  - destruct (decide (resolved resolve x ∈ seen)) as [Hx|Hx]; [now apply IH|].
    destruct (IH ({[ resolved resolve x ]} ∪ seen) Hp) as [Hin|Hin].
    + apply elem_of_union in Hin as [Hin|Hin]; [|now left].
      apply elem_of_singleton in Hin. right. rewrite fmap_cons, Hin. left.
    + right. rewrite fmap_cons. now right.
Qed.

Section DefaultPaths.

Variable joinpath : Loc → string → Loc.
Variable path_exists : Loc → bool.
Variable home : Loc.
Variable on_windows : bool.

Lemma existing_exists (base : Loc) (names : list string) (p : Loc) :
  p ∈ existing joinpath path_exists base names → path_exists p = true.
Proof.
  unfold existing. rewrite list_elem_of_In, filter_In. tauto.
Qed.

(** X24: the default search paths are the common directories of the home
    that exist (and the home itself on Windows), in their order, each
    place once: no two of them resolve to the same path, every candidate
    resolves to the path of one that is kept, and a candidate is kept
    exactly when none before it resolves to the same path. *)
Theorem default_search_paths_are_distinct_places :
  let paths := common_paths joinpath path_exists home on_windows in
  let found := default_search_paths joinpath path_exists resolve home
                                    on_windows in
  found `sublist_of` paths ∧
  NoDup (resolved resolve <$> found) ∧
  (∀ p, p ∈ paths → resolved resolve p ∈ resolved resolve <$> found) ∧
  (∀ p, p ∈ found ↔
        ∃ l1 l2, paths = l1 ++ p :: l2 ∧
                 (resolved resolve p ∉ resolved resolve <$> l1)) ∧
  (∀ p, p ∈ found →
        path_exists p = true ∨ (on_windows = true ∧ p = home)).
Proof.
  intros paths found. subst found. unfold default_search_paths.
  fold paths. split; [apply uniq_from_sublist|].
  split; [apply uniq_from_keys|]. split; [|split].
  - intros p Hp. destruct (uniq_from_covers ∅ paths p Hp) as [Hin|Hin];
      [set_solver|assumption].
  - intros p. rewrite uniq_from_first. split.
    + intros (l1 & l2 & Hl & _ & Hn). eauto.
    + intros (l1 & l2 & Hl & Hn). exists l1, l2.
      split; [assumption|]. split; [set_solver|assumption].
  - intros p Hp.
    assert (p ∈ paths) as Hin.
    { eapply elem_of_sublist; [exact Hp|apply uniq_from_sublist]. }
    subst paths. unfold common_paths in Hin.
    rewrite !elem_of_app in Hin. destruct Hin as [Hin|[Hin|Hin]].
    + left. eapply existing_exists, Hin.
    + right. unfold platform_home in Hin. destruct on_windows;
        [|inversion Hin].
      apply list_elem_of_singleton in Hin. now split.
    + left. eapply existing_exists, Hin.
Qed.

End DefaultPaths.

Section DriveRoots.

Variable path_of : string → Loc.
Variable path_exists : Loc → bool.
Variable iterdir : Loc → result (list Loc).
Variable is_dir : Loc → result bool.
Variable os_nt : bool.

Lemma dirs_until_error_elem (children : list Loc) (p : Loc) :
  p ∈ dirs_until_error is_dir children →
  p ∈ children ∧ is_dir p = Ok true.
Proof.
  induction children as [|x l IH]; simpl; [intros Hp; inversion Hp|].
  destruct (is_dir x) as [[|]|e] eqn:Hx.
  - intros Hp. apply elem_of_cons in Hp as [->|Hp].
    + split; [left|assumption].
    + destruct (IH Hp). split; [now right|assumption].
  - intros Hp. destruct (IH Hp). split; [now right|assumption].
  - intros Hp. inversion Hp.
Qed.

(** X25: where [os.name] is not [nt] the drive roots start with the
    root of the file system, which is always kept; every other root is a
    child of one of the three mount directories that exists and could be
    listed, and [is_dir] accepted it; no two roots resolve to the same
    path. *)
Theorem drive_roots_start_at_the_root :
  os_nt = false →
  let found := drive_roots path_of path_exists resolve iterdir is_dir
                           os_nt in
  NoDup (resolved resolve <$> found) ∧
  ∃ rest, found = path_of "/" :: rest ∧
    ∀ p, p ∈ rest →
      ∃ base children,
        base ∈ mount_bases path_of ∧ path_exists base = true ∧
        iterdir base = Ok children ∧ p ∈ children ∧ is_dir p = Ok true.
Proof.
  intros Hnt found. subst found. unfold drive_roots.
  split; [apply uniq_from_keys|].
  unfold all_roots. rewrite Hnt. simpl.
  destruct (decide (resolved resolve (path_of "/") ∈ (∅ : gset Loc))) as [Hin|_];
    [now apply not_elem_of_empty in Hin|].
  eexists. split; [reflexivity|].
  intros p Hp.
  assert (p ∈ flat_map (mounted path_exists iterdir is_dir)
                (mount_bases path_of)) as Hin.
  { eapply elem_of_sublist; [exact Hp|apply uniq_from_sublist]. }
  rewrite list_elem_of_In in Hin. apply in_flat_map in Hin as (base & Hb & Hin).
  rewrite <- list_elem_of_In in Hb, Hin. unfold mounted in Hin.
  destruct (path_exists base) eqn:He; [|inversion Hin].
  destruct (iterdir base) as [children|e] eqn:Hi; [|inversion Hin].
  apply dirs_until_error_elem in Hin as [Hc Hd].
  exists base, children. auto.
Qed.

End DriveRoots.


Section FirstPass.

Variable path_of : string → Loc.
Variable joinpath : Loc → string → Loc.
Variable path_exists : Loc → bool.
Variable home : Loc.
Variable on_windows : bool.
Variable expanduser : Loc → Loc.


End FirstPass.

End PlacesFacts.

Section PlacesSamples.
Import SamplePlaces.

(** A run of [drive_roots]: the mount directory that is missing and the
    one that cannot be listed add nothing, the file among the children is
    left out, and so is the child that resolves to the root. *)
Example drive_roots_run :
  drive_roots id present target listing is_directory false = ["/"; "/mnt/usb"].
Proof. vm_compute. reflexivity. Qed.

Lemma drive_roots_start_at_the_root_witness :
  let found := drive_roots id present target listing is_directory false in
  NoDup (resolved target <$> found) ∧
  ∃ rest, found = id "/" :: rest ∧
    ∀ p, p ∈ rest →
      ∃ base children,
        base ∈ mount_bases id ∧ present base = true ∧
        listing base = Ok children ∧ p ∈ children ∧
        is_directory p = Ok true.
Proof.
  apply (drive_roots_start_at_the_root target id present listing is_directory
           false).
  reflexivity.
Defined.

End PlacesSamples.

(* ===================================================================== *)
(** ** Exact names are bare names *)
(* ===================================================================== *)

Section BareFacts.
Import PyStr Re Query.

Lemma contains_char_absent (x : ascii) (s : string) :
  all_chars (is_not x) s = true → contains (String x "") s = false.
Proof.
  induction s as [|c s IH]; [reflexivity|]. simpl all_chars.
  rewrite andb_true_iff. intros [Hc Hs].
  change (contains (String x "") (String c s))
    with (String.prefix (String x "") (String c s)
          || contains (String x "") s).
  rewrite (IH Hs), orb_false_r. simpl.
  destruct (ascii_dec x c) as [->|_]; [|reflexivity].
  unfold is_not in Hc. now rewrite Ascii.eqb_refl in Hc.
Qed.

Lemma contains_char_present (x : ascii) (s : string) :
  contains (String x "") s = false → all_chars (is_not x) s = true.
Proof.
  induction s as [|c s IH]; [reflexivity|].
  change (contains (String x "") (String c s))
    with (String.prefix (String x "") (String c s)
          || contains (String x "") s).
  rewrite orb_false_iff. intros [Hp Hs]. simpl.
  rewrite (IH Hs), andb_true_r. unfold is_not.
  destruct (Ascii.eqb_spec c x) as [->|]; [|reflexivity].
  simpl in Hp. destruct (ascii_dec x x); [|contradiction]. now destruct s.
Qed.

Lemma bare_has_sep (s : string) : bare s ↔ has_sep s = false.
Proof.
  unfold bare, has_sep. rewrite orb_false_iff. split.
  - intros [H1 H2]. split; now apply contains_char_absent.
  - intros [H1 H2]. split; now apply contains_char_present.
Qed.

Lemma split_on_pieces (sep : ascii) (p : ascii → bool) (cur s : string) :
  all_chars p cur = true →
  all_chars (λ c, Ascii.eqb c sep || p c) s = true →
  Forall (λ t, all_chars p t = true) (split_on sep cur s).
Proof.
  revert cur. induction s as [|c s IH]; intros cur Hcur; simpl.
  { intros _. now constructor. }
  rewrite andb_true_iff. intros [Hc Hs].
  destruct (Ascii.eqb c sep); simpl in Hc.
  - constructor; [assumption|]. now apply IH.
  - apply IH; [|assumption]. rewrite all_chars_app, Hcur. simpl.
    now rewrite Hc.
Qed.

Lemma last_Forall {A : Type} (P : A → Prop) (l : list A) (d : A) :
  P d → Forall P l → P (List.last l d).
Proof.
  intros Hd. induction 1 as [|x l Hx Hl IH]; [assumption|].
  destruct l; [assumption|exact IH].
Qed.

Lemma all_chars_true (p : ascii → bool) (s : string) :
  (∀ c, p c = true) → all_chars p s = true.
Proof.
  intros Hp. induction s as [|c s IH]; [reflexivity|].
  simpl. now rewrite Hp, IH.
Qed.

Lemma final_segment_bare (s : string) : bare (final_segment s).
Proof.
  unfold final_segment, split.
  set (t := List.last (split_on "/" "" s) "").
  assert (all_chars (is_not "/"%char) t = true) as Ht.
  { subst t. apply (last_Forall (λ t, all_chars (is_not "/"%char) t = true));
      [reflexivity|].
    apply split_on_pieces; [reflexivity|].
    apply all_chars_true. intros c. unfold is_not.
    now destruct (Ascii.eqb c "/"). }
  split.
  - apply (last_Forall (λ t, all_chars (is_not "/"%char) t = true));
      [reflexivity|].
    apply split_on_pieces; [reflexivity|].
    revert Ht. apply all_chars_impl. intros c ->. apply orb_true_r.
  - apply (last_Forall (λ t, all_chars (is_not "\"%char) t = true));
      [reflexivity|].
    apply split_on_pieces; [reflexivity|].
    apply all_chars_true. intros c. unfold is_not.
    now destruct (Ascii.eqb c "\"%char).
Qed.

Lemma _norm_has_sep (s : string) (cs : bool) :
  has_sep (_norm s cs) = has_sep s.
Proof. destruct cs; [reflexivity|apply has_sep_lower]. Qed.

Lemma _norm_looks_like_name_ext (s : string) (cs : bool) :
  looks_like_name_ext (_norm s cs) = looks_like_name_ext s.
Proof.
  destruct cs; [reflexivity|]. unfold looks_like_name_ext, _norm, startswith.
  now rewrite (contains_char_lower _ _ eqb_dot_lower),
              (prefix_char_lower _ _ eqb_dot_lower).
Qed.

Lemma directive_names (s n : string) (a a' : acc) :
  directive s n a = Some a' →
  a_filenames a' = a_filenames a ∧ a_stems a' = a_stems a.
Proof. intros Hd. now apply directive_tokens in Hd as (_ & -> & ->). Qed.

Lemma quoted_step_bare (cs : bool) (a : acc) (raw : string) :
  Forall (λ x, has_sep x = false) (a_filenames a) ∧
  Forall (λ x, has_sep x = false ∧ looks_like_name_ext x = false)
         (a_stems a) →
  Forall (λ x, has_sep x = false) (a_filenames (quoted_step cs a raw)) ∧
  Forall (λ x, has_sep x = false ∧ looks_like_name_ext x = false)
         (a_stems (quoted_step cs a raw)).
Proof.
  intros [Hf Hs]. unfold quoted_step.
  destruct (directive _ _ a) as [a'|] eqn:Hd.
  { apply directive_names in Hd as [-> ->]. now split. }
  destruct (has_sep (strip raw)) eqn:Hsep; simpl.
  - split; [|assumption]. apply Forall_app. split; [assumption|].
    constructor; [|constructor].
    rewrite _norm_has_sep. apply bare_has_sep, final_segment_bare.
  - fold (looks_like_name_ext (strip raw)).
    destruct (looks_like_name_ext (strip raw)) eqn:Hdot; simpl.
    + split; [|assumption]. apply Forall_app. split; [assumption|].
      constructor; [|constructor]. now rewrite _norm_has_sep.
    + split; [assumption|]. apply Forall_app. split; [assumption|].
      constructor; [|constructor].
      now rewrite _norm_has_sep, _norm_looks_like_name_ext.
Qed.

Lemma unquoted_step_names (cs : bool) (a : acc) (raw : string) :
  a_filenames (unquoted_step cs a raw) = a_filenames a ∧
  a_stems (unquoted_step cs a raw) = a_stems a.
Proof.
  unfold unquoted_step. destruct (directive _ _ a) as [a'|] eqn:Hd.
  - now apply directive_names in Hd.
  - now split.
Qed.

(** X27: the exact names of a parsed query are bare names, never paths:
    no exact filename and no exact stem holds a slash or a backslash (of a
    quoted path only the last segment is kept), and no exact stem holds a
    dot unless it starts with one, so a stem with an inner dot can only
    be asked for as an exact filename. *)
Theorem exact_names_are_bare_names (argv_terms : list string) (cs : bool) :
  Forall (λ x, has_sep x = false)
         (exact_filenames (parse_query argv_terms cs)) ∧
  Forall (λ x, has_sep x = false ∧ looks_like_name_ext x = false)
         (exact_stems (parse_query argv_terms cs)).
Proof.
  unfold parse_query. simpl.
  assert (Forall (λ x, has_sep x = false)
                 (a_filenames (parse_acc argv_terms cs)) ∧
          Forall (λ x, has_sep x = false ∧ looks_like_name_ext x = false)
                 (a_stems (parse_acc argv_terms cs))) as [Hf Hs].
  { unfold parse_acc.
    apply (fold_left_inv
             (λ a, Forall (λ x, has_sep x = false) (a_filenames a) ∧
                   Forall (λ x, has_sep x = false ∧
                                looks_like_name_ext x = false) (a_stems a))).
    - intros a raw _ Ha.
      destruct (unquoted_step_names cs a raw) as [-> ->]. exact Ha.
    - apply (fold_left_inv
               (λ a, Forall (λ x, has_sep x = false) (a_filenames a) ∧
                     Forall (λ x, has_sep x = false ∧
                                  looks_like_name_ext x = false) (a_stems a))).
      + intros a raw _ Ha. now apply quoted_step_bare.
      + split; constructor. }
  rewrite Forall_forall in Hf, Hs.
  split; apply Forall_forall; intros x Hx; unfold dedup in Hx;
    apply dedup_from_elem in Hx; [apply Hf|apply Hs]; apply Hx.
Qed.

End BareFacts.

(* ===================================================================== *)
(** ** From the command line to the verdict on a name *)
(* ===================================================================== *)

Section EndToEndFacts.
Import PyStr Re Query Search Sample.

Lemma bool_decide_singleton (x y : string) :
  bool_decide (x ∈ [y]) = bool_decide (x = y).
Proof. apply bool_decide_ext, list_elem_of_singleton. Qed.

(** X28: one plain argument that is not a directive asks for a
    substring.  The name matcher accepts a file exactly when the
    argument occurs in its filename, and the content matcher a text
    exactly when the argument occurs in it, both sides in lower case
    unless the query is case-sensitive; the stem and the extension of the
    file play no part. *)
Theorem plain_token_matches_by_substring
  (t filename stem ext text : string) (cs : bool) :
  plain t → is_directive t (_norm t cs) = false →
  _name_matches filename stem ext (parse_query [t] cs)
  = contains (_norm t cs) (_norm filename cs) ∧
  _content_matches text (parse_query [t] cs)
  = contains (_norm t cs) (_norm text cs).
Proof.
  intros Hp Hd. rewrite (parse_query_plain_token t cs Hp Hd).
  assert (truthy (_norm t cs) = true) as Ht.
  { apply truthy_true. rewrite _norm_empty. apply Hp. }
  unfold _name_matches, _content_matches, _norm. simpl.
  fold (_norm t cs). rewrite Ht. simpl.
  destruct cs; now rewrite !orb_false_r.
Qed.

(** X29: one quoted text that is not a directive asks for a name.  The
    name matcher accepts a file exactly when its filename equals the
    text (its final path segment, if it holds a separator) in case the
    text is classified as an exact filename, and exactly when its stem
    equals the text otherwise, both sides in lower case unless the query
    is case-sensitive. *)
Theorem quoted_name_matches_exactly
  (s filename stem ext : string) (cs : bool) :
  s ≠ "" → all_chars no_dquote s = true →
  is_directive (strip s) (_norm (strip s) cs) = false →
  _name_matches filename stem ext (parse_query [in_quotes s] cs)
  = match classify (strip s) with
    | (ExactFilename, x) => bool_decide (_norm filename cs = _norm x cs)
    | (ExactStem, x) => bool_decide (_norm stem cs = _norm x cs)
    end.
Proof.
  intros Hne Hs Hd. rewrite (parse_query_in_quotes s cs Hne Hs Hd).
  destruct (classify (strip s)) as [[|] x]; unfold _name_matches, _norm;
    simpl; rewrite bool_decide_singleton;
    destruct cs; now destruct (bool_decide _).
Qed.

Lemma plain_token_matches_by_substring_witness :
  _name_matches "Annual Report.PDF" "Annual Report" ".pdf"
    (parse_query ["REPORT"] false)
  = contains (_norm "REPORT" false) (_norm "Annual Report.PDF" false) ∧
  _content_matches "the report is due" (parse_query ["REPORT"] false)
  = contains (_norm "REPORT" false) (_norm "the report is due" false).
Proof.
  apply (plain_token_matches_by_substring "REPORT" "Annual Report.PDF"
           "Annual Report" ".pdf" "the report is due" false).
  - split; [discriminate|reflexivity].
  - reflexivity.
Defined.

Lemma quoted_name_matches_exactly_witness :
  _name_matches "Notes.TXT" "Notes" ".txt"
    (parse_query [in_quotes "docs/notes.txt"] false)
  = match classify (strip "docs/notes.txt") with
    | (ExactFilename, x) =>
        bool_decide (_norm "Notes.TXT" false = _norm x false)
    | (ExactStem, x) => bool_decide (_norm "Notes" false = _norm x false)
    end.
Proof.
  apply (quoted_name_matches_exactly "docs/notes.txt" "Notes.TXT" "Notes"
           ".txt" false).
  - discriminate.
  - reflexivity.
  - reflexivity.
Defined.

End EndToEndFacts.

(* ===================================================================== *)
(** ** Where an exception of a search comes from *)
(* ===================================================================== *)

Section LazyWalkFacts.
Import Utils.

Variable follow_symlinks : bool.
Variable max_depth : option Z.
Variable exclude_dirs : gset string.

Lemma lazy_dir_weight_pos (d : Raising.LazyDir) :
  (0 < Raising.dir_weight d)%nat.
Proof. destruct d as [[[es b]|e]]; simpl; lia. Qed.

Lemma lazy_visit_entry_push (depth : Z) (entry : DirEntry)
  (sub d : Raising.LazyDir) (k : Z) (y : option Path) :
  Raising.visit_entry follow_symlinks max_depth exclude_dirs depth entry sub
    = (Some (d, k), y) → d = sub.
Proof.
  unfold Raising.visit_entry.
  destruct (e_is_dir entry follow_symlinks) as [[|]|e]; simpl;
    try discriminate.
  - destruct (bool_decide _); [discriminate|].
    destruct (match max_depth with Some m => _ | None => _ end);
      [|discriminate].
    now intros [= <- _ _].
  - destruct (e_is_file entry follow_symlinks) as [[|]|e]; simpl;
      try discriminate.
    destruct follow_symlinks; simpl; [|discriminate].
    destruct (e_is_symlink entry) as [[|]|e]; simpl; discriminate.
Qed.

Lemma lazy_visit_entries_weight (depth : Z)
  (es : list (DirEntry * Raising.LazyDir))
  (stack : list (Raising.LazyDir * Z)) :
  (lazy_stack_weight
     (Raising.visit_entries follow_symlinks max_depth exclude_dirs depth es
                            stack).1
   ≤ lazy_entries_weight es + lazy_stack_weight stack)%nat.
Proof.
  revert stack. induction es as [|[entry sub] es IH]; intros stack; simpl.
  - lia.
  - destruct (Raising.visit_entry _ _ _ depth entry sub) as [push y] eqn:Hv.
    destruct push as [[d k]|].
    + apply lazy_visit_entry_push in Hv as ->.
      specialize (IH ((sub, k) :: stack)).
      destruct (Raising.visit_entries _ _ _ depth es ((sub, k) :: stack)).
      simpl in *. lia.
    + specialize (IH stack).
      destruct (Raising.visit_entries _ _ _ depth es stack). simpl in *. lia.
Qed.

(** Fuel beyond the weight of the stack changes nothing. *)
Lemma lazy_walk_loop_fuel (f1 f2 : nat) (stack : list (Raising.LazyDir * Z)) :
  (lazy_stack_weight stack ≤ f1)%nat → (lazy_stack_weight stack ≤ f2)%nat →
  Raising.walk_loop follow_symlinks max_depth exclude_dirs f1 stack
  = Raising.walk_loop follow_symlinks max_depth exclude_dirs f2 stack.
Proof.
  revert f2 stack. induction f1 as [|f1 IH]; intros f2 stack H1 H2.
  - destruct stack as [|[d k] stack]; [now destruct f2|].
    pose proof (lazy_dir_weight_pos d). simpl in H1. lia.
  - destruct f2 as [|f2].
    + destruct stack as [|[d k] stack]; [reflexivity|].
      pose proof (lazy_dir_weight_pos d). simpl in H2. lia.
    + destruct stack as [|[[[[es b]|e]] k] stack]; [reflexivity| |].
      * change (lazy_stack_weight ((Raising.mkLazyDir (Ok (es, b)), k) :: stack))
          with (S (lazy_entries_weight es + lazy_stack_weight stack))
          in H1, H2.
        pose proof (lazy_visit_entries_weight k es stack) as Hw.
        simpl Raising.walk_loop.
        destruct (Raising.visit_entries _ _ _ k es stack) as [stack'' ys].
        simpl in Hw. destruct b; [reflexivity|].
        rewrite (IH f2 stack'') by lia. reflexivity.
      * simpl in H1, H2. simpl. apply IH; lia.
Qed.

(** A directory that [os.scandir] cannot open is popped, and the
    traversal goes on with the rest of the stack. *)
Lemma lazy_walk_unlistable (e : exn) (depth : Z)
  (stack : list (Raising.LazyDir * Z)) :
  lazy_walk follow_symlinks max_depth exclude_dirs
            ((Raising.mkLazyDir (Raise e), depth) :: stack)
  = lazy_walk follow_symlinks max_depth exclude_dirs stack.
Proof. reflexivity. Qed.

Lemma lazy_walk_scandir (root : Raising.LazyDir) :
  Raising._walk_scandir root follow_symlinks max_depth exclude_dirs
  = lazy_walk follow_symlinks max_depth exclude_dirs [(root, 0)].
Proof.
  unfold Raising._walk_scandir, lazy_walk.
  apply lazy_walk_loop_fuel; simpl; lia.
Qed.

(** *** Without failures the traversal is the one of [Utils] *)

Lemma calm_dir_Ok (es : list (DirEntry * Dir)) :
  calm_dir (mkDir (Ok es)) = Raising.mkLazyDir (Ok (calm_entries es, None)).
Proof. reflexivity. Qed.

Lemma calm_visit_entry (depth : Z) (entry : DirEntry) (sub : Dir) :
  Raising.visit_entry follow_symlinks max_depth exclude_dirs depth entry
                      (calm_dir sub)
  = (option_map (λ x : Dir * Z, (calm_dir x.1, x.2))
       (visit_entry follow_symlinks max_depth exclude_dirs depth entry sub).1,
     (visit_entry follow_symlinks max_depth exclude_dirs depth entry sub).2).
Proof.
  unfold Raising.visit_entry, visit_entry.
  destruct (e_is_dir entry follow_symlinks) as [[|]|e]; simpl;
    [| |reflexivity].
  - destruct (bool_decide _); [reflexivity|].
    now destruct (match max_depth with Some m => _ | None => _ end).
  - destruct (e_is_file entry follow_symlinks) as [[|]|e]; simpl;
      try reflexivity.
    destruct follow_symlinks; simpl; [|reflexivity].
    now destruct (e_is_symlink entry) as [[|]|e].
Qed.

Lemma calm_visit_entries (depth : Z) (es : list (DirEntry * Dir))
  (stack : list (Dir * Z)) :
  Raising.visit_entries follow_symlinks max_depth exclude_dirs depth
                        (calm_entries es) (calm_stack stack)
  = (calm_stack
       (visit_entries follow_symlinks max_depth exclude_dirs depth es
                      stack).1,
     (visit_entries follow_symlinks max_depth exclude_dirs depth es stack).2).
Proof.
  revert stack. induction es as [|[entry sub] es IH]; intros stack;
    [reflexivity|].
  simpl. rewrite calm_visit_entry.
  destruct (visit_entry follow_symlinks max_depth exclude_dirs depth entry sub)
    as [[d|] y]; simpl.
  - change ((calm_dir d.1, d.2) :: calm_stack stack)
      with (calm_stack (d :: stack)).
    rewrite IH.
    now destruct (visit_entries follow_symlinks max_depth exclude_dirs depth
                    es (d :: stack)).
  - rewrite IH.
    now destruct (visit_entries follow_symlinks max_depth exclude_dirs depth
                    es stack).
Qed.

Lemma calm_walk_loop (fuel : nat) (stack : list (Dir * Z)) :
  Raising.walk_loop follow_symlinks max_depth exclude_dirs fuel
                    (calm_stack stack)
  = (walk_loop follow_symlinks max_depth exclude_dirs fuel stack, None).
Proof.
  revert stack. induction fuel as [|fuel IH]; intros stack; [reflexivity|].
  destruct stack as [|[[[es|e]] k] stack]; [reflexivity| |].
  - change (calm_stack ((mkDir (Ok es), k) :: stack))
      with ((calm_dir (mkDir (Ok es)), k) :: calm_stack stack).
    rewrite calm_dir_Ok. simpl. rewrite calm_visit_entries.
    destruct (visit_entries follow_symlinks max_depth exclude_dirs k es stack)
      as [stack'' ys].
    simpl. now rewrite IH.
  - simpl. apply IH.
Qed.

Lemma calm_dir_weight_le (n : nat) (d : Dir) :
  (dir_weight d ≤ n)%nat → Raising.dir_weight (calm_dir d) = dir_weight d.
Proof.
  revert d. induction n as [|n IH]; intros d Hd.
  { pose proof (dir_weight_pos d). lia. }
  destruct d as [[es|e]]; [|reflexivity].
  rewrite calm_dir_Ok. rewrite dir_weight_Ok in *.
  change (Raising.dir_weight (Raising.mkLazyDir (Ok (calm_entries es, None))))
    with (S (lazy_entries_weight (calm_entries es))).
  f_equal. apply le_S_n in Hd.
  induction es as [|[entry sub] es IHes]; [reflexivity|].
  simpl in *. rewrite IH, IHes by lia. reflexivity.
Qed.

Lemma calm_dir_weight (d : Dir) :
  Raising.dir_weight (calm_dir d) = dir_weight d.
Proof. now apply (calm_dir_weight_le (dir_weight d)). Qed.

Lemma calm_walk_scandir (root : Dir) :
  Raising._walk_scandir (calm_dir root) follow_symlinks max_depth exclude_dirs
  = (_walk_scandir root follow_symlinks max_depth exclude_dirs, None).
Proof.
  unfold Raising._walk_scandir, _walk_scandir. rewrite calm_dir_weight.
  apply (calm_walk_loop (dir_weight root) [(root, 0)]).
Qed.

End LazyWalkFacts.

Section LazyRootFacts.
Import Utils.

Lemma lazy_iter_files_missing_root (r : Raising.LazyRoot)
  (rs : list Raising.LazyRoot) (fs : bool) (md : option Z)
  (ex : list string) :
  Raising.l_exists r = Ok false →
  Raising.iter_files (r :: rs) fs md ex = Raising.iter_files rs fs md ex.
Proof. intros Hr. simpl. now rewrite Hr. Qed.

Lemma calm_iter_files (roots : list Root) (fs : bool) (md : option Z)
  (ex : list string) :
  Raising.iter_files (calm_root <$> roots) fs md ex
  = (iter_files roots fs md ex, None).
Proof.
  induction roots as [|r rs IH]; [reflexivity|].
  rewrite fmap_cons. simpl. rewrite IH.
  destruct (root_exists r); [|reflexivity].
  now rewrite calm_walk_scandir.
Qed.

End LazyRootFacts.

Section RaisingFacts.
Import PyStr Query Utils Search.

Variable utf8_decode : list Byte.byte → result string.
Variable monotonic : nat → Z.
Variable as_completed : nat → list Future → list Future.
Variable callback : Path → result unit.
Variable query : ParsedQuery.
Variable opts : Options.

(** *** With a callback that returns, the coordinator is the one of
    [Search] *)

Section Quiet.

Hypothesis callback_returns : stream_callback opts = true → quiet callback.

Lemma maybe_emit_quiet (p : Path) (c : Coord) :
  Raising.maybe_emit monotonic callback opts p c
  = maybe_emit monotonic opts p c.
Proof.
  unfold Raising.maybe_emit, maybe_emit.
  destruct (_file_id p) as [fid|e]; simpl; [|reflexivity].
  destruct (bool_decide (fid ∈ seen_ids c)); [reflexivity|].
  destruct (stream_callback opts) eqn:Hs; [|reflexivity].
  now rewrite (callback_returns eq_refl p).
Qed.

Lemma drain_quiet (in_batch : bool) (futs : list Future) (c : Coord) :
  Raising.drain monotonic callback opts in_batch futs c
  = drain monotonic opts in_batch futs c.
Proof.
  revert c. induction futs as [|fut futs IH]; intros c; [reflexivity|].
  simpl. destruct (_ || _); [reflexivity|].
  destruct fut as [[m|]|e]; simpl; [|apply IH|reflexivity].
  rewrite maybe_emit_quiet.
  destruct (maybe_emit monotonic opts (path m) c) as [[[|] c1]|e]; simpl;
    [apply IH|reflexivity|reflexivity].
Qed.

Lemma inline_loop_quiet (cands : list Path) (c : Coord) :
  Raising.inline_loop utf8_decode monotonic callback query opts cands None c
  = inline_loop utf8_decode monotonic query opts cands c.
Proof.
  revert c. induction cands as [|p cands IH]; intros c; [reflexivity|].
  simpl. destruct (stop_or_timed_out monotonic c) as [[|] c0]; [reflexivity|].
  destruct (evaluate utf8_decode query opts false p) as [[m|]|e]; simpl;
    [|apply IH|reflexivity].
  rewrite maybe_emit_quiet.
  destruct (maybe_emit monotonic opts (path m) c0) as [[[|] c1]|e]; simpl;
    [apply IH|reflexivity|reflexivity].
Qed.

Lemma submit_loop_quiet (cands : list Path) (futures : list Future)
  (c : Coord) :
  Raising.submit_loop utf8_decode monotonic as_completed callback query opts
    cands None futures c
  = submit_loop utf8_decode monotonic as_completed query opts cands futures c.
Proof.
  revert futures c. induction cands as [|p cands IH]; intros futures c;
    [reflexivity|].
  simpl. destruct (stop_or_timed_out monotonic c) as [[|] c0]; [reflexivity|].
  destruct (if bool_decide (BATCH ≤ length _)%nat then _ else _)
    as [[|] c1]; [|apply IH].
  rewrite drain_quiet.
  destruct (drain monotonic opts true _ _) as [c2|e]; simpl; [|reflexivity].
  destruct (_ || _); [reflexivity|apply IH].
Qed.

(** On roots whose [exists] returns and directories whose iteration does
    not fail, with a callback that returns, the call is the call of
    [Search.search]. *)
Lemma search_calm (roots : list Root) :
  Raising.search utf8_decode monotonic as_completed callback query opts
                 (calm_root <$> roots)
  = search utf8_decode monotonic as_completed query opts roots.
Proof.
  unfold Raising.search, search. rewrite calm_iter_files.
  destruct (scan_content opts); simpl.
  - rewrite submit_loop_quiet.
    destruct (submit_loop utf8_decode monotonic as_completed query opts _ _ _)
      as [[futs c1]|e]; simpl; [|reflexivity].
    now rewrite drain_quiet.
  - now rewrite inline_loop_quiet.
Qed.

End Quiet.

(** *** The exception of a call *)

Lemma maybe_emit_raise (p : Path) (c : Coord) (e : exn) :
  Raising.maybe_emit monotonic callback opts p c = Raise e →
  stream_callback opts = true ∧ callback p = Raise e.
Proof.
  unfold Raising.maybe_emit. rewrite _file_id_fid_of. simpl.
  destruct (bool_decide _); [discriminate|].
  destruct (stream_callback opts); simpl.
  - destruct (callback p) as [[]|e']; simpl.
    + destruct (_ <=? _); discriminate.
    + now intros [= ->].
  - destruct (_ <=? _); discriminate.
Qed.

Lemma evaluate_from_paths (all : list Path) (sc : bool) (p : Path) :
  p ∈ all → from_paths all (evaluate utf8_decode query opts sc p).
Proof.
  intros Hp. split; [apply evaluate_returns|].
  intros p'. destruct (evaluate utf8_decode query opts sc p)
    as [[m|]|e] eqn:E; simpl; try discriminate.
  intros [= <-]. apply _evaluate_path_Some in E. now rewrite E.
Qed.

Lemma drain_raise (all : list Path) (in_batch : bool) (futs : list Future)
  (c : Coord) (e : exn) :
  Forall (from_paths all) futs →
  Raising.drain monotonic callback opts in_batch futs c = Raise e →
  stream_callback opts = true ∧ ∃ p, p ∈ all ∧ callback p = Raise e.
Proof.
  intros Hall. revert c.
  induction Hall as [|fut futs [[r ->] Hfrom] Hfuts IH]; intros c; simpl;
    [discriminate|].
  destruct (_ || _); [discriminate|].
  destruct r as [m|]; simpl; [|apply IH].
  destruct (Raising.maybe_emit monotonic callback opts (path m) c)
    as [[[|] c1]|e'] eqn:E; simpl; [apply IH|discriminate|].
  intros [= ->]. apply maybe_emit_raise in E as [Hs Hc].
  split; [assumption|]. exists (path m). split; [|assumption].
  now apply Hfrom.
Qed.

Lemma inline_loop_raise (all cands : list Path) (failure : option exn)
  (c : Coord) (e : exn) :
  cands ⊆ all →
  Raising.inline_loop utf8_decode monotonic callback query opts cands failure c
    = Raise e →
  failure = Some e ∨
  (stream_callback opts = true ∧ ∃ p, p ∈ all ∧ callback p = Raise e).
Proof.
  revert c. induction cands as [|p cands IH]; intros c Hsub; simpl.
  { destruct failure; [|discriminate]. intros [= ->]. now left. }
  assert (cands ⊆ all) as Hrest by set_solver.
  destruct (stop_or_timed_out monotonic c) as [[|] c0]; [discriminate|].
  destruct (evaluate_from_paths all false p) as [[r Hr] Hfrom]; [set_solver|].
  rewrite Hr in *. simpl. destruct r as [m|]; simpl; [|now apply IH].
  destruct (Raising.maybe_emit monotonic callback opts (path m) c0)
    as [[[|] c1]|e'] eqn:E; simpl; [now apply IH|discriminate|].
  intros [= ->]. apply maybe_emit_raise in E as [Hs Hc].
  right. split; [assumption|]. exists (path m). split; [|assumption].
  now apply Hfrom.
Qed.

Lemma drain_from_paths (all : list Path) (n : nat) (futs : list Future) :
  fair_completion as_completed →
  Forall (from_paths all) futs → Forall (from_paths all) (as_completed n futs).
Proof. intros Hfair Hall. now rewrite (Hfair n futs). Qed.

Lemma submit_loop_raise (all cands : list Path) (failure : option exn)
  (futures : list Future) (c : Coord) :
  fair_completion as_completed →
  cands ⊆ all → Forall (from_paths all) futures →
  match Raising.submit_loop utf8_decode monotonic as_completed callback query
          opts cands failure futures c with
  | Ok (futs', _) => Forall (from_paths all) futs'
  | Raise e =>
      failure = Some e ∨
      (stream_callback opts = true ∧ ∃ p, p ∈ all ∧ callback p = Raise e)
  end.
Proof.
  intros Hfair. revert futures c.
  induction cands as [|p cands IH]; intros futures c Hsub Hfut; simpl.
  { destruct failure; simpl; [now left|assumption]. }
  assert (cands ⊆ all) as Hrest by set_solver.
  destruct (stop_or_timed_out monotonic c) as [[|] c0]; [assumption|].
  set (futures' := futures ++ [evaluate utf8_decode query opts true p]).
  assert (Forall (from_paths all) futures') as Hfut'.
  { apply Forall_app. split; [assumption|].
    constructor; [|constructor]. apply evaluate_from_paths. set_solver. }
  destruct (if bool_decide (BATCH ≤ length futures')%nat then _ else _)
    as [[|] c1]; [|now apply IH].
  destruct (Raising.drain monotonic callback opts true _ _) as [c2|e] eqn:E;
    simpl.
  - destruct (_ || _); [constructor|]. apply IH; [assumption|constructor].
  - right. eapply drain_raise; [|exact E]. now apply drain_from_paths.
Qed.

Lemma search_raise (roots : list Raising.LazyRoot) (e : exn) :
  fair_completion as_completed →
  let stream :=
    Raising.iter_files roots (follow_symlinks opts) (max_depth opts)
                       (exclude_dirs opts) in
  Raising.search utf8_decode monotonic as_completed callback query opts roots
    = Raise e →
  stream.2 = Some e ∨
  (stream_callback opts = true ∧
   ∃ p, p ∈ stream.1 ∧ callback p = Raise e).
Proof.
  intros Hfair stream. unfold Raising.search. fold stream.
  destruct stream as [cands failure]. simpl.
  destruct (scan_content opts); simpl.
  - pose proof (submit_loop_raise cands cands failure []
                  (initial opts (monotonic O)) Hfair (reflexivity _)
                  (List.Forall_nil _)) as Hsub.
    destruct (Raising.submit_loop _ _ _ _ _ _ _ _ _ _) as [[futs c1]|e'];
      simpl; [|now intros [= <-]].
    destruct (Raising.drain monotonic callback opts false _ _) as [c2|e']
      eqn:E; simpl; [discriminate|].
    intros [= <-]. right. eapply drain_raise; [|exact E].
    now apply drain_from_paths.
  - destruct (Raising.inline_loop _ _ _ _ _ _ _ _) as [c1|e'] eqn:E; simpl;
      [discriminate|].
    intros [= <-]. eapply inline_loop_raise; [|exact E]. reflexivity.
Qed.

(** C9 (amended): an exception leaves [search] only if [root.exists()]
    raised or the iteration of an open directory listing raised (the
    generator of candidates ended with that exception) or the stream
    callback raised on a candidate; when the traversal ends without an
    exception and the callback returns, the call returns.  Roots whose
    [exists] returns and directories whose iteration does not fail give
    a traversal without exception, with the candidates of [iter_files],
    and with a callback that returns the call is then the call of
    [Search.search].  A root that does not exist is skipped; a directory
    that [os.scandir] cannot open is dropped from the stack and the traversal
    goes on with the rest; evaluating a file returns; a failure inside the
    content block ([stat], [open], reading) leaves the file with the
    verdict of the checks before it; a text that does not decode is read
    through the fallback decoding; and [_file_id] returns. *)
Theorem search_raises_only_from_outside (roots : list Raising.LazyRoot) :
  fair_completion as_completed →
  let stream :=
    Raising.iter_files roots (follow_symlinks opts) (max_depth opts)
                       (exclude_dirs opts) in
  (∀ e,
     Raising.search utf8_decode monotonic as_completed callback query opts
                    roots = Raise e →
     stream.2 = Some e ∨
     (stream_callback opts = true ∧
      ∃ p, p ∈ stream.1 ∧ callback p = Raise e)) ∧
  (stream.2 = None → (stream_callback opts = true → quiet callback) →
   ∃ o, Raising.search utf8_decode monotonic as_completed callback query opts
                       roots = Ok o) ∧
  (∀ roots0 : list Root,
     Raising.iter_files (calm_root <$> roots0) (follow_symlinks opts)
                        (max_depth opts) (exclude_dirs opts)
     = (candidates opts roots0, None)) ∧
  (∀ roots0 : list Root, (stream_callback opts = true → quiet callback) →
     Raising.search utf8_decode monotonic as_completed callback query opts
                    (calm_root <$> roots0)
     = search utf8_decode monotonic as_completed query opts roots0) ∧
  (∀ r rs, Raising.l_exists r = Ok false →
     Raising.iter_files (r :: rs) (follow_symlinks opts) (max_depth opts)
                        (exclude_dirs opts)
     = Raising.iter_files rs (follow_symlinks opts) (max_depth opts)
                          (exclude_dirs opts)) ∧
  (∀ e depth stack,
     lazy_walk (follow_symlinks opts) (max_depth opts)
               (list_to_set (exclude_dirs opts))
               ((Raising.mkLazyDir (Raise e), depth) :: stack)
     = lazy_walk (follow_symlinks opts) (max_depth opts)
                 (list_to_set (exclude_dirs opts)) stack) ∧
  (∀ sc p, ∃ r, evaluate utf8_decode query opts sc p = Ok r) ∧
  (∀ p e, content_phase utf8_decode p query (lower (p_suffix p))
                        (max_bytes opts) = Raise e →
     evaluate utf8_decode query opts true p
     = evaluate utf8_decode query opts false p) ∧
  (∀ p st content, p_stat p = Ok st → p_open_rb p = Ok content →
     ∃ text, _read_text utf8_decode p (max_bytes opts) = Ok text) ∧
  (∀ p, ∃ i, _file_id p = Ok i).
Proof.
  intros Hfair stream. split_and!.
  - intros e. now apply search_raise.
  - intros Hnone Hquiet.
    destruct (Raising.search utf8_decode monotonic as_completed callback query
                opts roots) as [o|e] eqn:Hs; [eauto|].
    apply (search_raise roots e Hfair) in Hs. fold stream in Hs.
    destruct Hs as [Hs|(Hcb & p & _ & Hp)].
    + rewrite Hnone in Hs. discriminate.
    + rewrite (Hquiet Hcb p) in Hp. discriminate.
  - intros roots0. apply calm_iter_files.
  - intros roots0 Hquiet. now apply search_calm.
  - intros r rs. apply lazy_iter_files_missing_root.
  - intros e depth stack. apply lazy_walk_unlistable.
  - intros sc p. apply _evaluate_path_ok.
  - intros p e He. unfold evaluate, _evaluate_path.
    destruct (_ && _ && _); [reflexivity|].
    destruct (_ && _); [reflexivity|].
    now rewrite He.
  - intros p st content. apply _read_text_ok.
  - intros p. apply _file_id_ok.
Qed.

End RaisingFacts.

Section RaisingSamples.
Import Query Search Sample SampleRaising.

(** C9, the claim fails.  A root whose [exists] raises, a directory whose
    listing breaks while it is iterated, and a callback that raises:
    each time the exception leaves [search], on the fast path and on the
    pooled path. *)
Lemma search_propagates_outside_exceptions :
  Raising.search ascii_decode steady_clock in_order silent token_a
                 (options false 200 false None) [sound; unnameable]
  = Raise OSError ∧
  Raising.search ascii_decode steady_clock in_order silent token_a
                 (options true 200 false None) [unnameable]
  = Raise OSError ∧
  Raising.search ascii_decode steady_clock in_order silent token_a
                 (options false 200 false None) [vanishing]
  = Raise OSError ∧
  Raising.search ascii_decode steady_clock in_order broken_pipe token_a
                 (options false 200 true None) [sound]
  = Raise OSError ∧
  Raising.search ascii_decode steady_clock in_order broken_pipe token_a
                 (options true 200 true None) [sound]
  = Raise OSError.
Proof. vm_compute. repeat split. Qed.

(** The generator is lazy: a call that the limit stops before the
    traversal reaches the failing root returns. *)
Example search_stops_before_the_failure :
  Raising.search ascii_decode steady_clock in_order silent token_a
                 (options false 1 false None) [sound; unnameable]
  = Ok (mkOutcome ([mkMatchResult alpha], mkSearchStats 1 2 0 limit_reached)
                  []).
Proof. vm_compute. reflexivity. Qed.

Lemma search_raises_only_from_outside_witness :
  ∃ o, Raising.search ascii_decode late_clock in_order silent token_invoice
         (options true 200 true (Some 5))
         [Raising.mkLazyRoot (Ok false) (Raising.mkLazyDir (Raise OSError));
          Raising.mkLazyRoot (Ok true) (Raising.mkLazyDir (Raise OSError));
          sound] = Ok o.
Proof.
  apply (search_raises_only_from_outside ascii_decode late_clock in_order
           silent token_invoice (options true 200 true (Some 5))
           [Raising.mkLazyRoot (Ok false) (Raising.mkLazyDir (Raise OSError));
            Raising.mkLazyRoot (Ok true) (Raising.mkLazyDir (Raise OSError));
            sound]).
  - intros n futs. reflexivity.
  - reflexivity.
  - intros _ p. reflexivity.
Defined.

End RaisingSamples.
